(** * SecureBox: a GF(2) solver for a row-and-column toggle puzzle

    Verification of [SecureBox/main.cpp].  The file has three parts:
    the program (class [SecureBox], [openBox], [main]) as executable
    definitions over machine integers, vectors and a fault monad; the
    linear algebra over GF(2) that explains the solver; and the proofs
    that connect the two. *)

From Stdlib Require Import ZArith Bool List Lia String Ascii.
From stdpp Require Import base list.
Import ListNotations.

(* ===================================================================== *)
(** * Part I: the program                                                 *)
(* ===================================================================== *)

(** ** Undefined behaviour as a fault

    The source never checks an index or a divisor.  An out-of-range
    [operator[]], a division by zero and a null pointer handed to [atol]
    are undefined behaviour in C++; the model stops with a [Fault]. *)

Inductive fault : Set := DivByZero | OutOfRange | NullPointer | Unrepresentable.

Inductive result (A : Type) : Type :=
| Done (a : A)
| Fault (f : fault).
Arguments Done {A} a.
Arguments Fault {A} f.

Definition bind {A B : Type} (m : result A) (k : A -> result B) : result B :=
  match m with
  | Done a => k a
  | Fault f => Fault f
  end.

Notation "x <- m ; k" := (bind m (fun x => k))
  (at level 20, m at level 100, k at level 200, only parsing).

(** ** Machine integers

    [uint32_t] and the 64-bit generator output are integers reduced
    modulo their width; [int] is the two's complement reading of a
    32-bit pattern.  Loop counters are bounded by their guards and never
    wrap; the products [y * x] and [row * x + col] can. *)

Definition wrap32 (z : Z) : Z := (z mod 4294967296)%Z.
Definition wrap64 (z : Z) : Z := (z mod 18446744073709551616)%Z.
Definition to_int32 (z : Z) : Z := if (z <? 2147483648)%Z then z else (z - 4294967296)%Z.

Definition urem (a b : Z) : result Z :=
  if (b =? 0)%Z then Fault DivByZero else Done (a mod b)%Z.
Definition udiv (a b : Z) : result Z :=
  if (b =? 0)%Z then Fault DivByZero else Done (a / b)%Z.

(** ** std::vector *)

Definition rd {A : Type} (v : list A) (i : Z) : result A :=
  if (i <? 0)%Z then Fault OutOfRange
  else match v !! Z.to_nat i with
       | Some a => Done a
       | None => Fault OutOfRange
       end.

Definition wr {A : Type} (v : list A) (i : Z) (a : A) : result (list A) :=
  if (0 <=? i)%Z && (i <? Z.of_nat (length v))%Z then Done (<[Z.to_nat i := a]> v)
  else Fault OutOfRange.

Abbreviation matrix := (list (list bool)).

Definition rd2 (m : matrix) (i j : Z) : result bool :=
  r <- rd m i; rd r j.

Definition wr2 (m : matrix) (i j : Z) (v : bool) : result matrix :=
  r <- rd m i; r' <- wr r j v; wr m i r'.

(** ** Counted loops

    [for_range lo hi body] is [for (i = lo; i < hi; ++i) body]: the
    fuel is the exact trip count.  [scan] is a loop whose body may
    [return true]. *)

Fixpoint for_loop {S : Type} (fuel : nat) (i : Z) (body : Z -> S -> result S) (s : S)
  : result S :=
  match fuel with
  | O => Done s
  | Datatypes.S fuel' => s' <- body i s; for_loop fuel' (i + 1)%Z body s'
  end.

Definition for_range {S : Type} (lo hi : Z) (body : Z -> S -> result S) (s : S) : result S :=
  for_loop (Z.to_nat (hi - lo)) lo body s.

Fixpoint scan (fuel : nat) (i : Z) (test : Z -> result bool) : result bool :=
  match fuel with
  | O => Done false
  | S fuel' => b <- test i; if b then Done true else scan fuel' (i + 1)%Z test
  end.

(** ** class SecureBox

    [rng] is the output sequence of the [std::mt19937_64] member once it
    has been seeded with the clock, [drawn] the number of outputs already
    consumed.  Nothing is assumed about the sequence. *)

Record SecureBox : Type := mkBox {
  box : matrix;
  ySize : Z;
  xSize : Z;
  rng : nat -> Z;
  drawn : nat
}.

Definition with_box (bx : SecureBox) (g : matrix) : SecureBox :=
  mkBox g (ySize bx) (xSize bx) (rng bx) (drawn bx).

Definition next (bx : SecureBox) : Z * SecureBox :=
  (wrap64 (rng bx (drawn bx)),
   mkBox (box bx) (ySize bx) (xSize bx) (rng bx) (S (drawn bx))).

Definition flip (g : matrix) (y x : Z) : result matrix :=
  v <- rd2 g y x; wr2 g y x (negb v).

Definition toggle (bx : SecureBox) (y x : Z) : result SecureBox :=
  g <- flip (box bx) y x;
  g <- for_range 0 (xSize bx) (fun i g => flip g y i) g;
  g <- for_range 0 (ySize bx) (fun i g => flip g i x) g;
  Done (with_box bx g).

Definition isLocked (bx : SecureBox) : result bool :=
  scan (Z.to_nat (xSize bx)) 0 (fun x =>
    scan (Z.to_nat (ySize bx)) 0 (fun y => rd2 (box bx) y x)).

Definition getState (bx : SecureBox) : matrix := box bx.

(** The two draws of [toggle(rng() % ySize, rng() % xSize)] are
    unsequenced in C++; the model takes the row first.  Every statement
    below holds for every sequence, hence for either order. *)

Fixpoint shuffle_loop (t : nat) (bx : SecureBox) : result SecureBox :=
  match t with
  | O => Done bx
  | S t' =>
      let (a, bx1) := next bx in
      let (b, bx2) := next bx1 in
      y <- urem a (ySize bx2);
      x <- urem b (xSize bx2);
      bx3 <- toggle bx2 y x;
      shuffle_loop t' bx3
  end.

Definition shuffle (bx : SecureBox) : result SecureBox :=
  let (a, bx1) := next bx in
  shuffle_loop (Z.to_nat (a mod 1000)) bx1.

Definition blank (y x : Z) (gen : nat -> Z) (k : nat) : SecureBox :=
  mkBox (replicate (Z.to_nat y) (replicate (Z.to_nat x) false)) y x gen k.

Definition SecureBox_new (y x : Z) (gen : nat -> Z) : result SecureBox :=
  shuffle (blank y x gen 0).

(** The constructor with the order of the two draws left open.  In
    [toggle(rng() % ySize, rng() % xSize)] the two arguments are
    evaluated one after the other in an order the language does not
    fix, and which may differ from one call to the next: [ord k] tells
    whether the round whose first output is number [k] evaluates the
    column argument first.  [shuffle_loop] is the case where no round
    does. *)

Fixpoint shuffle_loop_any (ord : nat -> bool) (t : nat) (bx : SecureBox)
  : result SecureBox :=
  match t with
  | O => Done bx
  | S t' =>
      let (a, bx1) := next bx in
      let (b, bx2) := next bx1 in
      if ord (drawn bx) then
        x <- urem a (xSize bx2);
        y <- urem b (ySize bx2);
        bx3 <- toggle bx2 y x;
        shuffle_loop_any ord t' bx3
      else
        y <- urem a (ySize bx2);
        x <- urem b (xSize bx2);
        bx3 <- toggle bx2 y x;
        shuffle_loop_any ord t' bx3
  end.

Definition shuffle_any (ord : nat -> bool) (bx : SecureBox) : result SecureBox :=
  let (a, bx1) := next bx in
  shuffle_loop_any ord (Z.to_nat (a mod 1000)) bx1.

Definition SecureBox_new_any (ord : nat -> bool) (y x : Z) (gen : nat -> Z)
  : result SecureBox :=
  shuffle_any ord (blank y x gen 0).

Fixpoint toggles (bx : SecureBox) (ts : list (Z * Z)) : result SecureBox :=
  match ts with
  | [] => Done bx
  | t :: ts' => bx' <- toggle bx (fst t) (snd t); toggles bx' ts'
  end.

(** ** openBox *)

Definition build_cell (bx : SecureBox) (y x row col : Z) (st : matrix * list bool)
  : result (matrix * list bool) :=
  let idx := wrap32 (row * x + col) in
  v <- rd2 (getState bx) row col;
  b <- wr (snd st) idx v;
  A <- wr2 (fst st) idx idx true;
  A <- for_range 0 x (fun i A => wr2 A idx (wrap32 (row * x + i)) true) A;
  A <- for_range 0 y (fun i A => wr2 A idx (wrap32 (i * x + col)) true) A;
  Done (A, b).

Definition build (bx : SecureBox) (y x : Z) : result (matrix * list bool) :=
  let n := Z.to_nat (wrap32 (y * x)) in
  for_range 0 y (fun row st =>
    for_range 0 x (fun col st => build_cell bx y x row col st) st)
    (replicate n (replicate n false), replicate n false).

Fixpoint find_pivot (fuel : nat) (A : matrix) (n col pivot : Z) : result Z :=
  match fuel with
  | O => Done pivot
  | S fuel' =>
      if (pivot <? n)%Z then
        v <- rd2 A pivot col;
        if v then Done pivot else find_pivot fuel' A n col (pivot + 1)%Z
      else Done pivot
  end.

Definition swap_rows (col pivot : Z) (st : matrix * list bool)
  : result (matrix * list bool) :=
  rc <- rd (fst st) col; rp <- rd (fst st) pivot;
  A <- wr (fst st) col rp; A <- wr A pivot rc;
  tempB <- rd (snd st) col; bp <- rd (snd st) pivot;
  b <- wr (snd st) col bp; b <- wr b pivot tempB;
  Done (A, b).

Definition xor_row (n row col : Z) (A : matrix) : result matrix :=
  for_range col n (fun k A =>
    a <- rd2 A row k; c <- rd2 A col k; wr2 A row k (xorb a c)) A.

Definition eliminate_below (n col : Z) (st : matrix * list bool)
  : result (matrix * list bool) :=
  for_range (col + 1) n (fun row st =>
    v <- rd2 (fst st) row col;
    if v then
      A <- xor_row n row col (fst st);
      br <- rd (snd st) row; bc <- rd (snd st) col;
      b <- wr (snd st) row (xorb br bc);
      Done (A, b)
    else Done st) st.

Definition gauss_column (n col : Z) (st : matrix * list bool)
  : result (matrix * list bool) :=
  pivot <- find_pivot (Z.to_nat (n - col)) (fst st) n col col;
  if (pivot =? n)%Z then Done st
  else st' <- swap_rows col pivot st; eliminate_below n col st'.

Definition gauss (n : Z) (st : matrix * list bool) : result (matrix * list bool) :=
  for_range 0 n (gauss_column n) st.

Fixpoint back_loop (fuel : nat) (row n : Z) (A : matrix) (b xr : list bool)
  : result (list bool) :=
  match fuel with
  | O => Done xr
  | S fuel' =>
      sum0 <- rd b row;
      sum <- for_range (wrap32 (row + 1)) n (fun col sum =>
               a <- rd2 A row col; xc <- rd xr col; Done (xorb sum (a && xc))) sum0;
      xr <- wr xr row sum;
      back_loop fuel' (row - 1)%Z n A b xr
  end.

Definition back_substitute (n : Z) (A : matrix) (b : list bool) : result (list bool) :=
  let start := to_int32 (wrap32 (n - 1)) in
  back_loop (Z.to_nat (start + 1)) start n A b (replicate (Z.to_nat n) false).

Definition solve (bx : SecureBox) (y x : Z) : result (list bool) :=
  let n := wrap32 (y * x) in
  st <- build bx y x;
  st <- gauss n st;
  back_substitute n (fst st) (snd st).

Definition replay (n x : Z) (xr : list bool) (bx : SecureBox) : result SecureBox :=
  for_range 0 n (fun i bx =>
    v <- rd xr i;
    if v then r <- udiv i x; c <- urem i x; toggle bx r c
    else Done bx) bx.

Definition unlock (bx : SecureBox) (y x : Z) : result SecureBox :=
  xr <- solve bx y x; replay (wrap32 (y * x)) x xr bx.

Definition openBox_from (bx : SecureBox) (y x : Z) : result bool :=
  bx' <- unlock bx y x; isLocked bx'.

Definition openBox (y x : Z) (gen : nat -> Z) : result bool :=
  bx <- SecureBox_new y x gen; openBox_from bx y x.

(** ** main

    [long_max] is [LONG_MAX] of the platform (from [<climits>], not part
    of the repository).  [argv] lists the [argc] arguments; [argv[argc]]
    is the null pointer. *)

Definition is_space (c : ascii) : bool :=
  let k := nat_of_ascii c in (k =? 32) || ((9 <=? k) && (k <=? 13)).

Definition digit_of (c : ascii) : option Z :=
  let k := Z.of_nat (nat_of_ascii c) in
  if (48 <=? k)%Z && (k <=? 57)%Z then Some (k - 48)%Z else None.

Fixpoint skip_space (s : string) : string :=
  match s with
  | String c s' => if is_space c then skip_space s' else s
  | EmptyString => s
  end.

Fixpoint digits (acc : Z) (s : string) : Z :=
  match s with
  | String c s' =>
      match digit_of c with
      | Some d => digits (acc * 10 + d)%Z s'
      | None => acc
      end
  | EmptyString => acc
  end.

Definition signed_digits (s : string) : Z :=
  match s with
  | String c s' =>
      if (nat_of_ascii c =? 45) then (- digits 0 s')%Z
      else if (nat_of_ascii c =? 43) then digits 0 s'
      else digits 0 s
  | EmptyString => 0%Z
  end.

Definition atol (long_max : Z) (s : string) : result Z :=
  let v := signed_digits (skip_space s) in
  if (- long_max - 1 <=? v)%Z && (v <=? long_max)%Z then Done v
  else Fault Unrepresentable.


Definition arg (argv : list string) (i : nat) : result string :=
  match argv !! i with
  | Some s => Done s
  | None => if i =? length argv then Fault NullPointer else Fault OutOfRange
  end.

Inductive event : Set :=
| Called (y x : Z)
| Output (line : string).

Definition main (long_max : Z) (argv : list string) (gen : nat -> Z)
  : list event * result Z :=
  match (s1 <- arg argv 1; v1 <- atol long_max s1;
         s2 <- arg argv 2; v2 <- atol long_max s2;
         Done (wrap32 v1, wrap32 v2)) with
  | Fault f => ([], Fault f)
  | Done yx =>
      match openBox (fst yx) (snd yx) gen with
      | Fault f => ([Called (fst yx) (snd yx)], Fault f)
      | Done state =>
          ([Called (fst yx) (snd yx);
            Output (if state then "BOX: LOCKED!" else "BOX: OPENED!")%string],
           Done (if state then 1 else 0)%Z)
      end
  end.

(* ===================================================================== *)
(** * Part II: linear algebra over GF(2)                                  *)
(* ===================================================================== *)

(** Vectors and matrices as total functions; only the entries below the
    dimension [n] matter.  Addition is [xorb], multiplication [andb]. *)

Definition vec := nat -> bool.
Definition mat := nat -> nat -> bool.

Fixpoint dot (n : nat) (u v : vec) : bool :=
  match n with
  | 0 => false
  | S k => xorb (dot k u v) (u k && v k)
  end.

Definition idm : mat := fun i j => i =? j.

Definition swp (c p r : nat) : nat :=
  if r =? c then p else if r =? p then c else r.

Fixpoint find_first (fuel p : nat) (f : nat -> bool) : nat :=
  match fuel with
  | 0 => p
  | S k => if f p then p else find_first k (S p) f
  end.

Definition pivot (n : nat) (M : mat) (c : nat) : nat :=
  find_first (n - c) c (fun r => M r c).

(** The system under elimination: the matrix [sM], the right-hand side
    [sb], and a ghost matrix [sE] that records the row operations done so
    far ([sM = sE * A]).  The program has no [sE]; it is carried through
    the same row operations to state the invariant of the elimination. *)

Record sys := { sM : mat; sE : mat; sb : vec }.

Definition hit (M : mat) (c p r : nat) : bool := (c <? r) && M (swp c p r) c.

(** One iteration of the column loop: search, swap, clear below.  The
    matrix is combined on the columns from [c] on, as the source does. *)

Definition astep (n c : nat) (s : sys) : sys :=
  let p := pivot n (sM s) c in
  if p =? n then s
  else
    {| sM := fun r j =>
         if hit (sM s) c p r && (c <=? j)
         then xorb (sM s (swp c p r) j) (sM s p j)
         else sM s (swp c p r) j;
       sE := fun r j =>
         if hit (sM s) c p r
         then xorb (sE s (swp c p r) j) (sE s p j)
         else sE s (swp c p r) j;
       sb := fun r =>
         if hit (sM s) c p r
         then xorb (sb s (swp c p r)) (sb s p)
         else sb s (swp c p r) |}.

Fixpoint aelim (n k : nat) (s : sys) : sys :=
  match k with
  | 0 => s
  | S k' => astep n k' (aelim n k' s)
  end.

Fixpoint backsub (n : nat) (M : mat) (b : vec) (t : nat) : vec :=
  match t with
  | 0 => fun _ => false
  | S t' =>
      let x := backsub n M b t' in
      let row := n - S t' in
      fun j => if j =? row then xorb (b row) (dot n (M row) x) else x j
  end.

Definition upper (n c : nat) (M : mat) : Prop :=
  forall k r, k < c -> k < r -> r < n -> M r k = false.

Definition sym (n : nat) (s : sys) : Prop :=
  forall r t, r < n -> t < n -> dot n (sM s r) (sE s t) = dot n (sM s t) (sE s r).

Definition sat (n : nat) (M : mat) (b x : vec) : Prop :=
  forall r, r < n -> dot n (M r) x = b r.

Definition consistent (n : nat) (s : sys) : Prop :=
  exists sv : vec, forall r, r < n -> sb s r = dot n (sM s r) sv.

(** Three systems with the same matrix, the third right-hand side being
    the sum of the other two. *)
Definition lin3 (s1 s2 s3 : sys) : Prop :=
  (forall r j, sM s1 r j = sM s3 r j) /\
  (forall r j, sM s2 r j = sM s3 r j) /\
  (forall r, sb s3 r = xorb (sb s1 r) (sb s2 r)).

(** ** Pending rows

    When the pivot of column [c] is found at a row [p > c], the row that
    sat at [c] is parked at position [p]: [(p, c)] joins the pending list
    (youngest first) until column [p] is reached. *)

Definition pnd (pend : list (nat * nat)) (q : nat) : Prop := In q (map fst pend).

Definition pend_next (p c : nat) (pend : list (nat * nat)) : list (nat * nat) :=
  if p =? c then pend else (p, c) :: pend.

Fixpoint Kinv (n : nat) (s : sys) (pend : list (nat * nat)) : Prop :=
  match pend with
  | [] => True
  | e :: rest =>
      dot n (sM s (fst e)) (sE s (snd e)) = true /\
      (forall e', In e' rest -> dot n (sM s (fst e')) (sE s (snd e)) = false) /\
      Kinv n s rest
  end.

Record Inv (n c : nat) (s : sys) (pend : list (nat * nat)) : Prop := {
  I_rng : forall e, In e pend -> c <= fst e < n /\ snd e < c;
  I_nodup : List.NoDup (map fst pend);
  I_up : upper n c (sM s);
  I_sym : sym n s;
  I_E1 : forall i, c <= i < n -> ~ pnd pend i ->
           sE s i i = true /\
           forall k, c <= k < n -> k <> i -> sE s i k = true -> pnd pend k /\ k < i;
  I_E2 : forall q, pnd pend q -> forall k, c <= k < n -> sE s q k = false;
  I_E3 : forall e, In e pend ->
           sE s (snd e) (fst e) = true /\
           forall k, c <= k < n -> k <> fst e -> sE s (snd e) k = true ->
                     pnd pend k /\ k < fst e;
  I_K : Kinv n s pend
}.

Inductive span (n : nat) (M : mat) (lo : nat) : vec -> Prop :=
| span_zero v : (forall j, j < n -> v j = false) -> span n M lo v
| span_add r v u :
    lo < r < n -> span n M lo v ->
    (forall j, j < n -> u j = xorb (v j) (M r j)) -> span n M lo u.

Fixpoint reduce (n : nat) (s : sys) (l : list (nat * nat)) (m eps : vec) : vec * vec :=
  match l with
  | [] => (m, eps)
  | e :: rest =>
      let a := dot n m (sE s (snd e)) in
      reduce n s rest (fun j => xorb (m j) (a && sM s (fst e) j))
                      (fun j => xorb (eps j) (a && sE s (fst e) j))
  end.

Definition free_span (n c : nat) (M : mat) : Prop :=
  forall k, k < c -> M k k = false -> span n M k (M k).

(* ===================================================================== *)
(** * Part III: what the vectors of the program represent                 *)
(* ===================================================================== *)

Definition repV (N : nat) (b : list bool) (v : vec) : Prop :=
  length b = N /\ forall i, i < N -> b !! i = Some (v i).

Definition repM (R C : nat) (A : matrix) (M : mat) : Prop :=
  length A = R /\ forall i, i < R -> exists r, A !! i = Some r /\ repV C r (M i).

Definition rep_sys (N : nat) (st : matrix * list bool) (s : sys) : Prop :=
  repM N N (fst st) (sM s) /\ repV N (snd st) (sb s).

Definition ent (g : matrix) : mat :=
  fun i j => match g !! i with
             | Some r => match r !! j with Some v => v | None => false end
             | None => false
             end.

Definition nthb (b : list bool) : vec :=
  fun i => match b !! i with Some v => v | None => false end.

(** The class invariant of [SecureBox]: [box] has [ySize] rows of
    [xSize] cells. *)

Definition well_formed (bx : SecureBox) : Prop :=
  (0 <= ySize bx)%Z /\ (0 <= xSize bx)%Z /\
  length (box bx) = Z.to_nat (ySize bx) /\
  Forall (fun r => length r = Z.to_nat (xSize bx)) (box bx).

Definition wf_box (bx : SecureBox) (G : mat) : Prop :=
  (0 <= ySize bx)%Z /\ (0 <= xSize bx)%Z /\
  repM (Z.to_nat (ySize bx)) (Z.to_nat (xSize bx)) (box bx) G.

Definition same_shape (bx bx' : SecureBox) : Prop :=
  ySize bx' = ySize bx /\ xSize bx' = xSize bx /\ rng bx' = rng bx /\ drawn bx' = drawn bx.

(** The footprint of a toggle in linear indices, with [X] cells per row. *)

Definition foot (X : nat) (i j : nat) : bool :=
  (j / X =? i / X) || (j mod X =? i mod X) || (j =? i).

Definition cover (X i j : nat) : vec := fun k => (i =? k / X) || (j =? k mod X).

Definition flat (X : nat) (G : mat) : vec := fun i => G (i / X) (i mod X).

Definition built (X N : nat) (G : mat) (cnt : nat) (st : matrix * list bool) : Prop :=
  repM N N (fst st) (fun i j => (i <? cnt) && foot X i j) /\
  repV N (snd st) (fun i => (i <? cnt) && flat X G i).

(** A grid whose state is a GF(2) combination of footprints. *)

Definition good (Y X : nat) (bx : SecureBox) : Prop :=
  ySize bx = Z.of_nat Y /\ xSize bx = Z.of_nat X /\
  exists (G : mat) (sv : vec),
    wf_box bx G /\
    forall idx, idx < Y * X -> flat X G idx = dot (Y * X) (foot X idx) sv.

Definition all_false (g : matrix) : Prop :=
  forall row, In row g -> forall v, In v row -> v = false.

Definition in_range (y x : Z) (t : Z * Z) : Prop :=
  (0 <= fst t < y)%Z /\ (0 <= snd t < x)%Z.

(** The unknowns the elimination and the back substitution compute for
    the grid [G] of a [Y] by [X] box. *)
Definition solved (Y X : nat) (G : mat) : vec :=
  let s := aelim (Y * X) (Y * X) {| sM := foot X; sE := idm; sb := flat X G |} in
  backsub (Y * X) (sM s) (sb s) (Y * X).

(** ** Vocabulary of Part VIII

    The positions the constructor's shuffle toggles, read off the
    generator from output [k] on.  A round takes two outputs; which of
    the two gives the row and which the column follows the order [ord]
    in which the round evaluates the arguments of [toggle]. *)

Fixpoint draws (ord : nat -> bool) (t : nat) (gen : nat -> Z) (k : nat) (y x : Z)
  : list (Z * Z) :=
  match t with
  | O => []
  | S t' =>
      (if ord k
       then (wrap64 (gen (S k)) mod y, wrap64 (gen k) mod x)%Z
       else (wrap64 (gen k) mod y, wrap64 (gen (S k)) mod x)%Z)
      :: draws ord t' gen (S (S k)) y x
  end.

(** The GF(2) product of two vectors of the program, and a system
    satisfied by a vector: [b[i]] is the product of row [i] and [x]. *)

Fixpoint dotl (u v : list bool) : bool :=
  match u, v with
  | a :: u', c :: v' => xorb (a && c) (dotl u' v')
  | _, _ => false
  end.

Definition satl (A : matrix) (b x : list bool) : Prop :=
  forall i row, A !! i = Some row -> b !! i = Some (dotl row x).

(** The toggles the replay loop makes for the entries of [xr] from
    linear index [i] on. *)

Fixpoint chosen (i x : Z) (xr : list bool) : list (Z * Z) :=
  match xr with
  | [] => []
  | v :: xr' =>
      if v then (i / x, i mod x)%Z :: chosen (i + 1) x xr' else chosen (i + 1) x xr'
  end.

(** A grid some sequence of in-range toggles clears. *)

Definition solvable (bx : SecureBox) : Prop :=
  exists ts bx',
    Forall (in_range (ySize bx) (xSize bx)) ts /\
    toggles bx ts = Done bx' /\ all_false (box bx').

Ltac nat_cases :=
  repeat match goal with
         | |- context [?a =? ?b] => destruct (Nat.eqb_spec a b)
         | |- context [?a <? ?b] => destruct (Nat.ltb_spec a b)
         | |- context [?a <=? ?b] => destruct (Nat.leb_spec a b)
         end;
  simpl; try reflexivity; try lia.

(* ===================================================================== *)
(** * Part IV: the elimination on symmetric systems                       *)
(* ===================================================================== *)

(* ---------- dot product ---------- *)

Lemma dot_ext n u u' v v' :
  (forall j, j < n -> u j = u' j) -> (forall j, j < n -> v j = v' j) ->
  dot n u v = dot n u' v'.
Proof.
  induction n as [|n IH]; intros Hu Hv; simpl; [reflexivity|].
  rewrite IH by (intros; auto with arith).
  rewrite (Hu n), (Hv n) by lia. reflexivity.
Qed.

Lemma dot_comm n u v : dot n u v = dot n v u.
Proof. induction n; simpl; [reflexivity|]. now rewrite IHn, andb_comm. Qed.

Lemma dot_xor_l n u u' a v :
  dot n (fun j => xorb (u j) (a && u' j)) v = xorb (dot n u v) (a && dot n u' v).
Proof.
  induction n as [|n IH]; simpl; [now destruct a|].
  rewrite IH. destruct a, (dot n u v), (dot n u' v), (u n), (u' n), (v n); reflexivity.
Qed.

Lemma dot_xor_r n u v v' a :
  dot n u (fun j => xorb (v j) (a && v' j)) = xorb (dot n u v) (a && dot n u v').
Proof.
  rewrite dot_comm, dot_xor_l. now rewrite (dot_comm n v u), (dot_comm n v' u).
Qed.

Lemma dot_zero n u v : (forall j, j < n -> u j && v j = false) -> dot n u v = false.
Proof.
  induction n as [|n IH]; intros H; simpl; [reflexivity|].
  rewrite IH by (intros; apply H; lia). now rewrite H by lia.
Qed.

Lemma dot_single n u v k :
  k < n -> (forall j, j < n -> j <> k -> u j && v j = false) ->
  dot n u v = u k && v k.
Proof.
  induction n as [|n IH]; intros Hk H; [lia|]. simpl.
  destruct (Nat.eq_dec k n) as [->|Hne].
  - rewrite dot_zero by (intros; apply H; lia). now destruct (u n && v n).
  - rewrite IH by (try lia; intros; apply H; lia).
    rewrite (H n) by lia. now destruct (u k && v k).
Qed.

(* ---------- pivot search ---------- *)

Lemma find_first_spec fuel p f :
  let q := find_first fuel p f in
  p <= q <= p + fuel /\
  (q < p + fuel -> f q = true) /\
  (forall r, p <= r < q -> f r = false).
Proof.
  revert p; induction fuel as [|k IH]; intros p; simpl.
  - repeat split; try lia.
  - destruct (f p) eqn:Hp.
    + repeat split; try lia; auto.
    + specialize (IH (S p)). simpl in IH. destruct IH as (H1 & H2 & H3).
      repeat split; try lia.
      * intros; apply H2; lia.
      * intros r Hr. destruct (Nat.eq_dec r p) as [->|]; [assumption|apply H3; lia].
Qed.

Lemma pivot_spec n M c :
  c <= n ->
  let p := pivot n M c in
  c <= p <= n /\ (p < n -> M p c = true) /\ (forall r, c <= r < p -> M r c = false).
Proof.
  intros Hc. unfold pivot.
  pose proof (find_first_spec (n - c) c (fun r => M r c)) as H. simpl in H.
  destruct H as (H1 & H2 & H3). repeat split; try lia.
  - intros; apply H2; lia.
  - apply H3.
Qed.

Lemma swp_invol c p r : swp c p (swp c p r) = r.
Proof.
  unfold swp.
  destruct (r =? c) eqn:E1; [apply Nat.eqb_eq in E1; subst|].
  - destruct (p =? c) eqn:E2; [apply Nat.eqb_eq in E2; now subst|].
    now rewrite Nat.eqb_refl.
  - destruct (r =? p) eqn:E2; [apply Nat.eqb_eq in E2; subst|].
    + now rewrite Nat.eqb_refl.
    + now rewrite E1, E2.
Qed.

Lemma swp_c c p : swp c p c = p.
Proof. unfold swp. now rewrite Nat.eqb_refl. Qed.

Lemma swp_p c p : swp c p p = c.
Proof. unfold swp. destruct (p =? c) eqn:E; [apply Nat.eqb_eq in E; now subst|now rewrite Nat.eqb_refl]. Qed.

Lemma swp_other c p r : r <> c -> r <> p -> swp c p r = r.
Proof. intros H1 H2. unfold swp. apply Nat.eqb_neq in H1, H2. now rewrite H1, H2. Qed.

Lemma swp_lt c p r n : c < n -> p < n -> r < n -> swp c p r < n.
Proof. intros. unfold swp. destruct (r =? c), (r =? p); lia. Qed.

Lemma swp_ge c p r : c <= p -> c <= r -> c <= swp c p r.
Proof. intros. unfold swp. destruct (r =? c), (r =? p); lia. Qed.

Lemma swp_gt c p r : c <= p -> c < r -> c <= swp c p r.
Proof. intros. apply swp_ge; lia. Qed.

Lemma astep_free n c s : pivot n (sM s) c = n -> astep n c s = s.
Proof. intros H. unfold astep. rewrite H, Nat.eqb_refl. reflexivity. Qed.

Section Step.
Variables (n c : nat) (s : sys).
Hypothesis Hc : c < n.
Hypothesis Hup : upper n c (sM s).
Let p := pivot n (sM s) c.
Hypothesis Hp : p < n.

Lemma piv_ge : c <= p.
Proof. pose proof (pivot_spec n (sM s) c ltac:(lia)) as H. simpl in H. fold p in H. lia. Qed.

Lemma piv_true : sM s p c = true.
Proof. pose proof (pivot_spec n (sM s) c ltac:(lia)) as H. simpl in H. fold p in H. now apply H. Qed.

Lemma piv_first r : c <= r < p -> sM s r c = false.
Proof. pose proof (pivot_spec n (sM s) c ltac:(lia)) as H. simpl in H. fold p in H. now apply H. Qed.

Lemma astep_M r j :
  sM (astep n c s) r j = xorb (sM s (swp c p r) j) (hit (sM s) c p r && sM s p j).
Proof.
  unfold astep. fold p. replace (p =? n) with false by (symmetry; apply Nat.eqb_neq; lia).
  simpl. destruct (hit (sM s) c p r) eqn:Hh; simpl.
  - destruct (c <=? j) eqn:Hj; [reflexivity|].
    apply Nat.leb_gt in Hj. rewrite (Hup j p) by (pose proof piv_ge; lia).
    now rewrite xorb_false_r.
  - now rewrite xorb_false_r.
Qed.

Lemma astep_E r j :
  sE (astep n c s) r j = xorb (sE s (swp c p r) j) (hit (sM s) c p r && sE s p j).
Proof.
  unfold astep. fold p. replace (p =? n) with false by (symmetry; apply Nat.eqb_neq; lia).
  simpl. destruct (hit (sM s) c p r); simpl; [reflexivity|now rewrite xorb_false_r].
Qed.

Lemma astep_b r :
  sb (astep n c s) r = xorb (sb s (swp c p r)) (hit (sM s) c p r && sb s p).
Proof.
  unfold astep. fold p. replace (p =? n) with false by (symmetry; apply Nat.eqb_neq; lia).
  simpl. destruct (hit (sM s) c p r); simpl; [reflexivity|now rewrite xorb_false_r].
Qed.

Lemma dotM_step r v :
  dot n (sM (astep n c s) r) v =
  xorb (dot n (sM s (swp c p r)) v) (hit (sM s) c p r && dot n (sM s p) v).
Proof.
  rewrite <- dot_xor_l. apply dot_ext; intros; [apply astep_M|reflexivity].
Qed.

Lemma dotE_step u t :
  dot n u (sE (astep n c s) t) =
  xorb (dot n u (sE s (swp c p t))) (hit (sM s) c p t && dot n u (sE s p)).
Proof.
  rewrite <- dot_xor_r. apply dot_ext; intros; [reflexivity|apply astep_E].
Qed.

Lemma hit_le r : r <= c -> hit (sM s) c p r = false.
Proof. intros H. unfold hit. replace (c <? r) with false; [reflexivity|]. symmetry; apply Nat.ltb_ge; lia. Qed.

Lemma hit_gt r : c < r -> hit (sM s) c p r = sM s (swp c p r) c.
Proof. intros H. unfold hit. replace (c <? r) with true; [reflexivity|]. symmetry; apply Nat.ltb_lt; lia. Qed.

Lemma hit_p : c < p -> hit (sM s) c p p = false.
Proof. intros H. rewrite hit_gt by lia. rewrite swp_p. apply piv_first; lia. Qed.

Lemma upper_pivot : upper n (S c) (sM (astep n c s)).
Proof.
  intros k r Hk Hr Hn. rewrite astep_M.
  pose proof piv_ge as Hge.
  destruct (Nat.eq_dec k c) as [->|Hkc].
  - rewrite hit_gt by lia. rewrite piv_true. now destruct (sM s (swp c p r) c).
  - assert (k < c) by lia.
    rewrite (Hup k p) by lia. rewrite andb_false_r, xorb_false_r.
    apply Hup; try lia.
    + unfold swp. destruct (r =? c); [lia|]. destruct (r =? p); lia.
    + apply swp_lt; lia.
Qed.

Lemma sym_pivot : sym n s -> sym n (astep n c s).
Proof.
  intros Hs r t Hr Ht.
  rewrite !dotM_step, !dotE_step.
  assert (Hsr : swp c p r < n) by (apply swp_lt; lia).
  assert (Hst : swp c p t < n) by (apply swp_lt; lia).
  rewrite (Hs (swp c p r) (swp c p t)), (Hs (swp c p r) p), (Hs p (swp c p t)) by assumption.
  destruct (hit (sM s) c p r), (hit (sM s) c p t),
    (dot n (sM s (swp c p t)) (sE s (swp c p r))),
    (dot n (sM s p) (sE s (swp c p r))),
    (dot n (sM s (swp c p t)) (sE s p)),
    (dot n (sM s p) (sE s p)); reflexivity.
Qed.

End Step.

Lemma upper_step n c s : c < n -> upper n c (sM s) -> upper n (S c) (sM (astep n c s)).
Proof.
  intros Hc Hup.
  pose proof (pivot_spec n (sM s) c ltac:(lia)) as H. simpl in H.
  destruct (Nat.eq_dec (pivot n (sM s) c) n) as [e|ne].
  - rewrite astep_free by assumption.
    intros k r Hk Hr Hn. destruct (Nat.eq_dec k c) as [->|].
    + apply H. lia.
    + apply Hup; lia.
  - apply upper_pivot; try assumption. lia.
Qed.

Lemma sym_step n c s : c < n -> upper n c (sM s) -> sym n s -> sym n (astep n c s).
Proof.
  intros Hc Hup Hs.
  pose proof (pivot_spec n (sM s) c ltac:(lia)) as H. simpl in H.
  destruct (Nat.eq_dec (pivot n (sM s) c) n) as [e|ne].
  - now rewrite astep_free.
  - apply sym_pivot; try assumption. lia.
Qed.

Lemma pnd_in pend e : In e pend -> pnd pend (fst e).
Proof. intros H. unfold pnd. now apply in_map. Qed.

Lemma pnd_ex pend q : pnd pend q -> exists o, In (q, o) pend.
Proof.
  unfold pnd. rewrite in_map_iff. intros ([q' o] & Hq & Hin). simpl in Hq. subst. now exists o.
Qed.

Lemma pnd_dec pend q : {pnd pend q} + {~ pnd pend q}.
Proof. apply in_dec, Nat.eq_dec. Qed.

Lemma Kinv_diag n s pend e : Kinv n s pend -> In e pend ->
  dot n (sM s (fst e)) (sE s (snd e)) = true.
Proof.
  induction pend as [|a l IH]; simpl; [tauto|].
  intros (H1 & H2 & H3) [->|Hin]; auto.
Qed.

Lemma Kinv_transfer n s s' l :
  (forall e e', In e l -> In e' l ->
     dot n (sM s' (fst e')) (sE s' (snd e)) = dot n (sM s (fst e')) (sE s (snd e))) ->
  Kinv n s l -> Kinv n s' l.
Proof.
  induction l as [|a l IH]; simpl; [tauto|].
  intros H (H1 & H2 & H3). repeat split.
  - rewrite H; auto.
  - intros e' He'. rewrite H; auto.
  - apply IH; auto.
Qed.

Section Derived.
Variables (n c : nat) (s : sys) (pend : list (nat * nat)).
Hypothesis Hc : c < n.
Hypothesis HI : Inv n c s pend.

Lemma pnd_ge q : pnd pend q -> c <= q < n.
Proof. intros Hq. destruct (pnd_ex _ _ Hq) as (o & Ho). apply (I_rng _ _ _ _ HI) in Ho. simpl in Ho. lia. Qed.

(* entry in column c of a row at position >= c, read off against E_c (normal c) *)
Lemma col_normal r : ~ pnd pend c -> c <= r < n -> dot n (sM s r) (sE s c) = sM s r c.
Proof.
  intros Hn Hr. rewrite (dot_single n _ _ c Hc).
  - destruct (I_E1 _ _ _ _ HI c ltac:(lia) Hn) as (H1 & _). rewrite H1. apply andb_true_r.
  - intros j Hj Hjc. destruct (Nat.lt_ge_cases j c) as [Hlt|Hge].
    + rewrite (I_up _ _ _ _ HI j r) by lia. reflexivity.
    + destruct (sE s c j) eqn:He; [|apply andb_false_r].
      destruct (I_E1 _ _ _ _ HI c ltac:(lia) Hn) as (_ & H2).
      destruct (H2 j ltac:(lia) Hjc He) as (_ & Hlt). lia.
Qed.

Lemma col_pending r o : In (c, o) pend -> c <= r < n -> dot n (sM s r) (sE s o) = sM s r c.
Proof.
  intros Hin Hr. rewrite (dot_single n _ _ c Hc).
  - destruct (I_E3 _ _ _ _ HI _ Hin) as (H1 & _). simpl in H1. rewrite H1. apply andb_true_r.
  - intros j Hj Hjc. destruct (Nat.lt_ge_cases j c) as [Hlt|Hge].
    + rewrite (I_up _ _ _ _ HI j r) by lia. reflexivity.
    + destruct (sE s o j) eqn:He; [|apply andb_false_r].
      destruct (I_E3 _ _ _ _ HI _ Hin) as (_ & H2). simpl in H2.
      destruct (H2 j ltac:(lia) Hjc He) as (_ & Hlt). lia.
Qed.

(* a row at position >= c is orthogonal to every pending ghost row *)
Lemma orth_pending r q : c <= r < n -> pnd pend q -> dot n (sM s r) (sE s q) = false.
Proof.
  intros Hr Hq. apply dot_zero. intros j Hj.
  destruct (Nat.lt_ge_cases j c) as [Hlt|Hge].
  - rewrite (I_up _ _ _ _ HI j r) by lia. reflexivity.
  - rewrite (I_E2 _ _ _ _ HI q Hq j) by lia. apply andb_false_r.
Qed.

Lemma h1 q : ~ pnd pend c -> pnd pend q -> sM s q c = false.
Proof.
  intros Hn Hq. pose proof (pnd_ge q Hq) as Hge.
  rewrite <- (col_normal q Hn Hge).
  rewrite (I_sym _ _ _ _ HI q c) by lia.
  apply orth_pending; [lia|assumption].
Qed.

Lemma h2 : pnd pend c -> sM s c c = true.
Proof.
  intros Hq. destruct (pnd_ex _ _ Hq) as (o & Ho).
  rewrite <- (col_pending c o Ho) by lia.
  apply (Kinv_diag n s pend (c, o) (I_K _ _ _ _ HI) Ho).
Qed.

Lemma pivot_pending : pnd pend c -> pivot n (sM s) c = c.
Proof.
  intros Hq. pose proof (pivot_spec n (sM s) c ltac:(lia)) as H. simpl in H.
  destruct H as (H1 & H2 & H3).
  destruct (Nat.eq_dec (pivot n (sM s) c) c) as [|ne]; [assumption|].
  pose proof (h2 Hq) as Hd. rewrite (H3 c) in Hd by lia. discriminate.
Qed.

Lemma pivot_normal : ~ pnd pend c -> pivot n (sM s) c < n -> ~ pnd pend (pivot n (sM s) c).
Proof.
  intros Hn Hp Hq. pose proof (piv_true n c s Hc Hp) as Ht.
  rewrite (h1 _ Hn Hq) in Ht. discriminate.
Qed.

End Derived.

Lemma inv_free n c s pend :
  c < n -> Inv n c s pend -> pivot n (sM s) c = n -> Inv n (S c) s pend.
Proof.
  intros Hc HI Hp.
  assert (Hn : ~ pnd pend c).
  { intros Hq. rewrite (pivot_pending n c s pend Hc HI Hq) in Hp. lia. }
  constructor.
  - intros e He. pose proof (I_rng _ _ _ _ HI e He) as H.
    assert (fst e <> c) by (intros E; apply Hn; rewrite <- E; now apply pnd_in). lia.
  - apply (I_nodup _ _ _ _ HI).
  - rewrite <- (astep_free n c s Hp). apply upper_step; [assumption|apply (I_up _ _ _ _ HI)].
  - apply (I_sym _ _ _ _ HI).
  - intros i Hi Hni. destruct (I_E1 _ _ _ _ HI i ltac:(lia) Hni) as (H1 & H2).
    split; [assumption|]. intros k Hk. apply H2; lia.
  - intros q Hq k Hk. apply (I_E2 _ _ _ _ HI q Hq); lia.
  - intros e He. destruct (I_E3 _ _ _ _ HI e He) as (H1 & H2).
    split; [assumption|]. intros k Hk. apply H2; lia.
  - apply (I_K _ _ _ _ HI).
Qed.

Section Normal.
Variables (n c : nat) (s : sys) (pend : list (nat * nat)).
Hypothesis Hc : c < n.
Hypothesis HI : Inv n c s pend.
Hypothesis Hn : ~ pnd pend c.
Let p := pivot n (sM s) c.
Hypothesis Hp : p < n.
Let s' := astep n c s.
Let pend' := pend_next p c pend.

Let Hup := I_up _ _ _ _ HI.

Let W_M : forall r j, sM s' r j = xorb (sM s (swp c p r) j) (hit (sM s) c p r && sM s p j)
  := astep_M n c s Hc Hup Hp.
Let W_E : forall r j, sE s' r j = xorb (sE s (swp c p r) j) (hit (sM s) c p r && sE s p j)
  := astep_E n c s Hc Hp.
Let W_hit_le : forall r, r <= c -> hit (sM s) c p r = false := hit_le n c s Hc Hp.
Let W_first : forall r, c <= r < p -> sM s r c = false := piv_first n c s Hc Hp.
Let W_true : sM s p c = true := piv_true n c s Hc Hp.

Lemma N_pge : c <= p.
Proof. apply (piv_ge n c s Hc Hp). Qed.

Lemma N_pnp : ~ pnd pend p.
Proof. apply (pivot_normal n c s pend Hc HI Hn Hp). Qed.

Lemma N_hit i : i < n -> hit (sM s) c p i = true ->
  p < i /\ swp c p i = i /\ ~ pnd pend i.
Proof.
  intros Hi Hh. unfold hit in Hh. apply andb_true_iff in Hh. destruct Hh as (H1 & H2).
  apply Nat.ltb_lt in H1. pose proof N_pge as Hge.
  destruct (Nat.eq_dec i p) as [->|Hip].
  - rewrite swp_p in H2. rewrite (W_first c) in H2 by lia. discriminate.
  - rewrite swp_other in H2 by lia.
    assert (p < i).
    { destruct (Nat.lt_ge_cases i p) as [Hlt|]; [|lia].
      rewrite (W_first i) in H2 by lia. discriminate. }
    repeat split; [assumption|apply swp_other; lia|].
    intros Hq. rewrite (h1 n c s pend Hc HI i Hn Hq) in H2. discriminate.
Qed.

Lemma N_hit_false i : i < n -> (i <= c \/ i = p \/ pnd pend i) -> hit (sM s) c p i = false.
Proof.
  intros Hi H. destruct (hit (sM s) c p i) eqn:Hh; [|reflexivity].
  destruct (N_hit i Hi Hh) as (H1 & H2 & H3). pose proof N_pge. destruct H as [H|[H|H]]; try lia.
  contradiction.
Qed.

Lemma N_pnd_mono q : pnd pend q -> pnd pend' q.
Proof. unfold pend', pend_next. destruct (p =? c); [auto|]. intros H. right. exact H. Qed.

Lemma N_pnd_inv q : pnd pend' q -> pnd pend q \/ (q = p /\ c < p).
Proof.
  unfold pend', pend_next. destruct (p =? c) eqn:E; [auto|].
  apply Nat.eqb_neq in E. pose proof N_pge as Hge.
  intros [H|H]; [right; simpl in H; lia|left; exact H].
Qed.

Lemma N_rowE_low o k : o < c -> sE s' o k = sE s o k.
Proof.
  intros Ho. rewrite W_E.
  pose proof N_pge.
  rewrite swp_other by lia. rewrite W_hit_le by lia. apply xorb_false_r.
Qed.

Lemma N_rowM_pend q j : pnd pend q -> sM s' q j = sM s q j.
Proof.
  intros Hq. rewrite W_M.
  pose proof (pnd_ge n c s pend Hc HI q Hq) as Hge.
  assert (q <> c) by (intros ->; contradiction).
  assert (q <> p) by (intros ->; apply N_pnp; assumption).
  rewrite swp_other by assumption.
  rewrite N_hit_false by (try lia; auto). apply xorb_false_r.
Qed.

Lemma N_rowE_pend q k : pnd pend q -> sE s' q k = sE s q k.
Proof.
  intros Hq. rewrite W_E.
  pose proof (pnd_ge n c s pend Hc HI q Hq) as Hge.
  assert (q <> c) by (intros ->; contradiction).
  assert (q <> p) by (intros ->; apply N_pnp; assumption).
  rewrite swp_other by assumption.
  rewrite N_hit_false by (try lia; auto). apply xorb_false_r.
Qed.

Lemma N_Ec_high k : c < k < n -> sE s c k = false.
Proof.
  intros Hk. destruct (sE s c k) eqn:He; [|reflexivity].
  destruct (I_E1 _ _ _ _ HI c ltac:(lia) Hn) as (_ & H2).
  destruct (H2 k ltac:(lia) ltac:(lia) He) as (_ & Hlt). lia.
Qed.

Lemma N_Ep k : c <= k < n -> k <> p -> sE s p k = true -> pnd pend k /\ k < p.
Proof.
  intros Hk Hkp He. pose proof N_pge.
  destruct (I_E1 _ _ _ _ HI p ltac:(lia) N_pnp) as (_ & H2). apply H2; auto.
Qed.

Lemma N_Epp : sE s p p = true.
Proof.
  pose proof N_pge.
  destruct (I_E1 _ _ _ _ HI p ltac:(lia) N_pnp) as (H1 & _). exact H1.
Qed.

Lemma N_K_old : Kinv n s' pend.
Proof.
  apply (Kinv_transfer n s s' pend); [|apply (I_K _ _ _ _ HI)].
  intros e e' He He'. apply dot_ext; intros j Hj.
  - apply N_rowM_pend. now apply pnd_in.
  - apply N_rowE_low. apply (I_rng _ _ _ _ HI e He).
Qed.

Lemma N_swapped_M j : c < p -> sM s' p j = sM s c j.
Proof.
  intros Hlt. rewrite W_M.
  rewrite swp_p. rewrite N_hit_false by auto. apply xorb_false_r.
Qed.

Lemma N_swapped_E k : c < p -> sE s' p k = sE s c k.
Proof.
  intros Hlt. rewrite W_E.
  rewrite swp_p. rewrite N_hit_false by auto. apply xorb_false_r.
Qed.

Lemma N_pivrow_E k : sE s' c k = sE s p k.
Proof.
  rewrite W_E.
  rewrite swp_c. rewrite N_hit_false by (try lia; auto). apply xorb_false_r.
Qed.

Lemma N_K_new : c < p -> Kinv n s' ((p, c) :: pend).
Proof.
  intros Hlt. simpl. repeat split.
  - rewrite (dot_ext n _ (sM s c) _ (sE s p)); [| intros; now apply N_swapped_M | intros; apply N_pivrow_E].
    rewrite (I_sym _ _ _ _ HI c p) by lia.
    rewrite (col_normal n c s pend Hc HI p Hn) by lia.
    apply W_true.
  - intros e' He'.
    rewrite (dot_ext n _ (sM s (fst e')) _ (sE s p));
      [| intros; apply N_rowM_pend; now apply pnd_in | intros; apply N_pivrow_E].
    pose proof (I_rng _ _ _ _ HI e' He') as Hr.
    rewrite (I_sym _ _ _ _ HI (fst e') p) by lia.
    apply (orth_pending n c s pend Hc HI); [lia| now apply pnd_in].
  - apply N_K_old.
Qed.

Lemma inv_normal : Inv n (S c) s' pend'.
Proof.
  pose proof N_pge as Hge. pose proof N_pnp as Hpn.
  constructor.
  - (* ranges *)
    intros e He. unfold pend', pend_next in He.
    assert (Hold : In e pend -> S c <= fst e < n /\ snd e < S c).
    { intros Hin. pose proof (I_rng _ _ _ _ HI e Hin) as H.
      assert (fst e <> c) by (intros E; apply Hn; rewrite <- E; now apply pnd_in). lia. }
    destruct (p =? c) eqn:E; [auto|]. apply Nat.eqb_neq in E.
    destruct He as [<-|Hin]; [simpl; lia|auto].
  - (* nodup *)
    unfold pend', pend_next. destruct (p =? c); [apply (I_nodup _ _ _ _ HI)|].
    simpl. apply List.NoDup_cons; [exact Hpn|apply (I_nodup _ _ _ _ HI)].
  - apply upper_pivot; assumption.
  - apply sym_pivot; try assumption. apply (I_sym _ _ _ _ HI).
  - (* E1 *)
    intros i Hi Hni.
    assert (Hni0 : ~ pnd pend i) by (intros H; apply Hni, N_pnd_mono, H).
    assert (Hip : i <> p).
    { intros ->. apply Hni. unfold pend', pend_next. destruct (p =? c) eqn:E.
      - apply Nat.eqb_eq in E. lia.
      - left. reflexivity. }
    destruct (I_E1 _ _ _ _ HI i ltac:(lia) Hni0) as (H1 & H2).
    assert (Hrow : forall k, sE s' i k = xorb (sE s i k) (hit (sM s) c p i && sE s p k)).
    { intros k. rewrite W_E.
      rewrite swp_other by lia. reflexivity. }
    split.
    + rewrite Hrow, H1.
      destruct (hit (sM s) c p i) eqn:Hh; [|reflexivity]. simpl.
      destruct (sE s p i) eqn:He; [|reflexivity].
      destruct (N_Ep i ltac:(lia) Hip He) as (Hq & _). contradiction.
    + intros k Hk Hki He. rewrite Hrow in He.
      destruct (sE s i k) eqn:He1.
      * destruct (H2 k ltac:(lia) Hki He1) as (Hq & Hlt). split; [apply N_pnd_mono, Hq|exact Hlt].
      * simpl in He. apply andb_true_iff in He. destruct He as (Hh & He2).
        destruct (N_hit i ltac:(lia) Hh) as (Hpi & _ & _).
        destruct (Nat.eq_dec k p) as [->|Hkp].
        -- split; [|exact Hpi]. unfold pend', pend_next. destruct (p =? c) eqn:E.
           ++ apply Nat.eqb_eq in E. lia.
           ++ left. reflexivity.
        -- destruct (N_Ep k ltac:(lia) Hkp He2) as (Hq & Hlt).
           split; [apply N_pnd_mono, Hq|lia].
  - (* E2 *)
    intros q Hq k Hk. destruct (N_pnd_inv q Hq) as [Hold|(-> & Hlt)].
    + rewrite N_rowE_pend by assumption. apply (I_E2 _ _ _ _ HI q Hold); lia.
    + rewrite N_swapped_E by assumption. apply N_Ec_high. lia.
  - (* E3 *)
    intros e He.
    assert (Hold : In e pend ->
       sE s' (snd e) (fst e) = true /\
       forall k, S c <= k < n -> k <> fst e -> sE s' (snd e) k = true ->
                 pnd pend' k /\ k < fst e).
    { intros Hin. pose proof (I_rng _ _ _ _ HI e Hin) as Hr.
      destruct (I_E3 _ _ _ _ HI e Hin) as (H1 & H2). split.
      - rewrite N_rowE_low by lia. exact H1.
      - intros k Hk Hke Hek. rewrite N_rowE_low in Hek by lia.
        destruct (H2 k ltac:(lia) Hke Hek) as (Hq & Hlt).
        split; [apply N_pnd_mono, Hq|exact Hlt]. }
    unfold pend', pend_next in He. destruct (p =? c) eqn:E; [auto|]. apply Nat.eqb_neq in E.
    destruct He as [<-|Hin]; [|auto]. simpl. split.
    + rewrite N_pivrow_E. apply N_Epp.
    + intros k Hk Hkp Hek. rewrite N_pivrow_E in Hek.
      destruct (N_Ep k ltac:(lia) Hkp Hek) as (Hq & Hlt).
      split; [apply N_pnd_mono, Hq|exact Hlt].
  - (* K *)
    unfold pend', pend_next. destruct (p =? c) eqn:E.
    + apply N_K_old.
    + apply Nat.eqb_neq in E. apply N_K_new. lia.
Qed.

End Normal.

Lemma swp_same c r : swp c c r = r.
Proof. unfold swp. destruct (r =? c) eqn:E; [apply Nat.eqb_eq in E; now subst|reflexivity]. Qed.

Lemma Kinv_app_r n s Y l : Kinv n s (Y ++ l) -> Kinv n s l.
Proof. induction Y as [|a Y IH]; simpl; [tauto|]. intros (_ & _ & H). auto. Qed.

Lemma Kinv_cross n s Y l e e' :
  Kinv n s (Y ++ l) -> In e Y -> In e' l ->
  dot n (sM s (fst e')) (sE s (snd e)) = false.
Proof.
  induction Y as [|a Y IH]; simpl; [tauto|].
  intros (_ & H2 & H3) [->|Hin] He'.
  - apply H2. apply in_or_app. now right.
  - now apply IH.
Qed.

Section Pending.
Variables (n c : nat) (s : sys) (Y O : list (nat * nat)) (o : nat).
Hypothesis Hc : c < n.
Let pend := Y ++ (c, o) :: O.
Hypothesis HI : Inv n c s pend.
Let s' := astep n c s.

Let Hup := I_up _ _ _ _ HI.

Lemma P_in : In (c, o) pend.
Proof. unfold pend. apply in_or_app. right. now left. Qed.

Lemma P_pnd : pnd pend c.
Proof. apply (pnd_in pend (c, o) P_in). Qed.

Lemma P_piv : pivot n (sM s) c = c.
Proof. apply (pivot_pending n c s pend Hc HI P_pnd). Qed.

Lemma P_M r j : sM s' r j = xorb (sM s r j) (hit (sM s) c c r && sM s c j).
Proof.
  unfold s'. rewrite astep_M by (try assumption; rewrite P_piv; assumption).
  rewrite P_piv, swp_same. reflexivity.
Qed.

Lemma P_E r j : sE s' r j = xorb (sE s r j) (hit (sM s) c c r && sE s c j).
Proof.
  unfold s'. rewrite astep_E by (try assumption; rewrite P_piv; assumption).
  rewrite P_piv, swp_same. reflexivity.
Qed.

Lemma P_hit_le r : r <= c -> hit (sM s) c c r = false.
Proof. intros H. unfold hit. replace (c <? r) with false; [reflexivity|]. symmetry; apply Nat.ltb_ge; lia. Qed.

Lemma P_Ec k : c <= k < n -> sE s c k = false.
Proof. intros Hk. apply (I_E2 _ _ _ _ HI c P_pnd k Hk). Qed.

Lemma P_E_high r k : c <= k < n -> sE s' r k = sE s r k.
Proof. intros Hk. rewrite P_E, P_Ec by assumption. rewrite andb_false_r. apply xorb_false_r. Qed.

Lemma P_E_low r k : r <= c -> sE s' r k = sE s r k.
Proof. intros Hr. rewrite P_E, P_hit_le by assumption. apply xorb_false_r. Qed.

Lemma P_nodup : List.NoDup (map fst (Y ++ O)) /\ ~ In c (map fst (Y ++ O)).
Proof.
  pose proof (I_nodup _ _ _ _ HI) as H. unfold pend in H.
  rewrite map_app in H. simpl in H. rewrite map_app.
  split; [apply (List.NoDup_remove_1 _ _ _ H)|apply (List.NoDup_remove_2 _ _ _ H)].
Qed.

Lemma P_pnd_sub q : pnd (Y ++ O) q -> pnd pend q /\ q <> c.
Proof.
  intros Hq. split.
  - unfold pnd, pend in *. rewrite map_app in *. simpl.
    apply in_app_or in Hq. apply in_or_app. destruct Hq; [now left|right; now right].
  - intros ->. destruct P_nodup as (_ & H). apply H, Hq.
Qed.

Lemma P_pnd_sup q : pnd pend q -> q <> c -> pnd (Y ++ O) q.
Proof.
  unfold pnd, pend. rewrite !map_app. simpl. intros Hq Hne.
  apply in_app_or in Hq. apply in_or_app. destruct Hq as [H|[H|H]]; [now left|congruence|now right].
Qed.

Lemma P_in_sub e : In e (Y ++ O) -> In e pend.
Proof.
  unfold pend. intros H. apply in_app_or in H. apply in_or_app.
  destruct H; [now left|right; now right].
Qed.

Lemma P_dot q e : q < n -> In e pend ->
  dot n (sM s' q) (sE s' (snd e)) =
  xorb (dot n (sM s q) (sE s (snd e))) (hit (sM s) c c q && dot n (sM s c) (sE s (snd e))).
Proof.
  intros Hq He. pose proof (I_rng _ _ _ _ HI e He) as Hr.
  rewrite <- dot_xor_l. apply dot_ext; intros j Hj.
  - apply P_M.
  - apply P_E_low. lia.
Qed.

Lemma P_hit_old e : In e O -> hit (sM s) c c (fst e) = false.
Proof.
  intros He. unfold hit. rewrite swp_same.
  assert (Hin : In e pend) by (unfold pend; apply in_or_app; right; now right).
  pose proof (I_rng _ _ _ _ HI e Hin) as Hr.
  rewrite <- (col_pending n c s pend Hc HI (fst e) o P_in) by lia.
  pose proof (Kinv_app_r n s Y _ (I_K _ _ _ _ HI)) as HK. simpl in HK.
  destruct HK as (_ & HK & _). rewrite (HK e He). apply andb_false_r.
Qed.

Lemma P_K_old : Kinv n s' O.
Proof.
  pose proof (Kinv_app_r n s Y _ (I_K _ _ _ _ HI)) as HK. simpl in HK.
  destruct HK as (_ & _ & HK).
  apply (Kinv_transfer n s s' O); [|exact HK].
  intros e e' He He'.
  assert (Hin : In e pend) by (unfold pend; apply in_or_app; right; now right).
  assert (Hin' : In e' pend) by (unfold pend; apply in_or_app; right; now right).
  pose proof (I_rng _ _ _ _ HI e' Hin') as Hr.
  rewrite P_dot by (try lia; assumption).
  rewrite (P_hit_old e' He'). apply xorb_false_r.
Qed.

Lemma P_K_aux Y1 Y2 : Y = Y1 ++ Y2 -> Kinv n s' (Y2 ++ O).
Proof.
  revert Y1. induction Y2 as [|e Y2 IH]; intros Y1 HY; simpl.
  - apply P_K_old.
  - assert (HK : Kinv n s (Y1 ++ (e :: Y2 ++ (c, o) :: O))).
    { pose proof (I_K _ _ _ _ HI) as H. unfold pend in H. rewrite HY in H.
      rewrite <- app_assoc in H. exact H. }
    apply Kinv_app_r in HK. simpl in HK. destruct HK as (K1 & K2 & K3).
    assert (Hine : In e pend).
    { unfold pend. rewrite HY. apply in_or_app. left. apply in_or_app. right. now left. }
    assert (Hc0 : dot n (sM s c) (sE s (snd e)) = false).
    { apply (K2 (c, o)). apply in_or_app. right. now left. }
    repeat split.
    + pose proof (I_rng _ _ _ _ HI e Hine) as Hr.
      rewrite P_dot by (try lia; assumption). rewrite K1, Hc0, andb_false_r. reflexivity.
    + intros e' He'.
      assert (Hin' : In e' (Y2 ++ (c, o) :: O)).
      { apply in_app_or in He'. apply in_or_app. destruct He'; [now left|right; now right]. }
      assert (Hinp : In e' pend).
      { unfold pend. rewrite HY. rewrite <- app_assoc. apply in_or_app. right. right. exact Hin'. }
      pose proof (I_rng _ _ _ _ HI e' Hinp) as Hr.
      rewrite P_dot by (try lia; assumption).
      rewrite (K2 e' Hin'), Hc0, andb_false_r. reflexivity.
    + apply (IH (Y1 ++ [e])). rewrite <- app_assoc. exact HY.
Qed.

Lemma inv_pending : Inv n (S c) s' (Y ++ O).
Proof.
  constructor.
  - intros e He. pose proof (I_rng _ _ _ _ HI e (P_in_sub e He)) as H.
    destruct (P_pnd_sub (fst e) (pnd_in _ _ He)) as (_ & Hne). lia.
  - apply P_nodup.
  - unfold s'. apply upper_pivot; try assumption. rewrite P_piv. assumption.
  - unfold s'. apply sym_pivot; try assumption; [rewrite P_piv; assumption|apply (I_sym _ _ _ _ HI)].
  - intros i Hi Hni.
    assert (Hni0 : ~ pnd pend i) by (intros H; apply Hni, P_pnd_sup; [exact H|lia]).
    destruct (I_E1 _ _ _ _ HI i ltac:(lia) Hni0) as (H1 & H2). split.
    + rewrite P_E_high by lia. exact H1.
    + intros k Hk Hki He. rewrite P_E_high in He by lia.
      destruct (H2 k ltac:(lia) Hki He) as (Hq & Hlt). split; [apply P_pnd_sup; [exact Hq|lia]|exact Hlt].
  - intros q Hq k Hk. destruct (P_pnd_sub q Hq) as (Hq0 & _).
    rewrite P_E_high by lia. apply (I_E2 _ _ _ _ HI q Hq0). lia.
  - intros e He. pose proof (P_in_sub e He) as Hin.
    pose proof (I_rng _ _ _ _ HI e Hin) as Hr.
    destruct (I_E3 _ _ _ _ HI e Hin) as (H1 & H2). split.
    + rewrite P_E_low by lia. exact H1.
    + intros k Hk Hke Hek. rewrite P_E_low in Hek by lia.
      destruct (H2 k ltac:(lia) Hke Hek) as (Hq & Hlt).
      split; [apply P_pnd_sup; [exact Hq|lia]|exact Hlt].
  - apply (P_K_aux [] Y). reflexivity.
Qed.

End Pending.

Theorem inv_step n c s pend :
  c < n -> Inv n c s pend -> exists pend', Inv n (S c) (astep n c s) pend'.
Proof.
  intros Hc HI.
  destruct (pnd_dec pend c) as [Hq|Hn].
  - destruct (pnd_ex _ _ Hq) as (o & Ho).
    destruct (in_split _ _ Ho) as (Y & O & HY). subst pend.
    exists (Y ++ O). now apply (inv_pending n c s Y O o).
  - destruct (Nat.eq_dec (pivot n (sM s) c) n) as [e|ne].
    + exists pend. rewrite astep_free by assumption. now apply inv_free.
    + exists (pend_next (pivot n (sM s) c) c pend). apply inv_normal; try assumption.
      pose proof (pivot_spec n (sM s) c ltac:(lia)) as H. simpl in H. lia.
Qed.

(* ---------- span ---------- *)

Lemma span_ext n M lo v v' :
  span n M lo v -> (forall j, j < n -> v j = v' j) -> span n M lo v'.
Proof.
  intros H He. destruct H as [v Hz|r v u Hr Hv Hu].
  - apply span_zero. intros j Hj. rewrite <- He by assumption. auto.
  - apply (span_add n M lo r v v' Hr Hv). intros j Hj. rewrite <- He by assumption. auto.
Qed.

Lemma span_row n M lo r : lo < r < n -> span n M lo (M r).
Proof.
  intros Hr. apply (span_add n M lo r (fun _ => false) (M r) Hr).
  - now apply span_zero.
  - reflexivity.
Qed.

Lemma span_xor n M lo v u :
  span n M lo v -> span n M lo u -> span n M lo (fun j => xorb (v j) (u j)).
Proof.
  intros Hv Hu. induction Hu as [u Hz|r w u Hr Hw IH Hu].
  - apply (span_ext n M lo v); [assumption|]. intros j Hj. rewrite Hz by assumption.
    now rewrite xorb_false_r.
  - apply (span_add n M lo r (fun j => xorb (v j) (w j)) _ Hr IH).
    intros j Hj. rewrite Hu by assumption. now rewrite xorb_assoc.
Qed.

Lemma span_scale n M lo r (a : bool) :
  lo < r < n -> span n M lo (fun j => a && M r j).
Proof.
  intros Hr. destruct a; simpl.
  - apply (span_ext n M lo (M r)); [now apply span_row|reflexivity].
  - now apply span_zero.
Qed.

Lemma span_mono n M M' lo v :
  (forall r, lo < r < n -> span n M' lo (M r)) ->
  span n M lo v -> span n M' lo v.
Proof.
  intros HM Hv. induction Hv as [v Hz|r w u Hr Hw IH Hu].
  - now apply span_zero.
  - apply (span_ext n M' lo (fun j => xorb (w j) (M r j))).
    + apply span_xor; [exact IH|apply HM, Hr].
    + intros j Hj. symmetry. now apply Hu.
Qed.

Lemma span_dot n M lo v x y :
  span n M lo v ->
  (forall r, lo < r < n -> dot n (M r) x = dot n (M r) y) ->
  dot n v x = dot n v y.
Proof.
  intros Hv HM. induction Hv as [v Hz|r w u Hr Hw IH Hu].
  - rewrite !dot_zero; [reflexivity| |]; intros j Hj; now rewrite Hz.
  - rewrite (dot_ext n u (fun j => xorb (w j) (true && M r j)) x x); [|assumption|reflexivity].
    rewrite (dot_ext n u (fun j => xorb (w j) (true && M r j)) y y); [|assumption|reflexivity].
    rewrite !dot_xor_l. simpl. now rewrite IH, HM.
Qed.

(* ---------- reduction of a free row by the pending rows ---------- *)

Lemma reduce_span n s c l m eps :
  (forall e, In e l -> c < fst e < n) ->
  span n (sM s) c (fun j => xorb (m j) (fst (reduce n s l m eps) j)).
Proof.
  revert m eps. induction l as [|e l IH]; intros m eps Hl; simpl.
  - apply span_zero. intros j _. apply xorb_nilpotent.
  - set (a := dot n m (sE s (snd e))).
    set (m1 := fun j => xorb (m j) (a && sM s (fst e) j)).
    set (e1 := fun j => xorb (eps j) (a && sE s (fst e) j)).
    specialize (IH m1 e1 (fun e' H => Hl e' (or_intror H))).
    apply (span_ext n (sM s) c
             (fun j => xorb (a && sM s (fst e) j) (xorb (m1 j) (fst (reduce n s l m1 e1) j)))).
    + apply span_xor; [|exact IH]. apply span_scale. apply Hl. now left.
    + intros j Hj. unfold m1.
      destruct (m j), (a && sM s (fst e) j), (fst (reduce n s l (fun j0 => xorb (m j0) (a && sM s (fst e) j0)) e1) j); reflexivity.
Qed.

Lemma reduce_low n s l m eps j :
  (forall e, In e l -> sM s (fst e) j = false) ->
  fst (reduce n s l m eps) j = m j.
Proof.
  revert m eps. induction l as [|e l IH]; intros m eps Hl; simpl; [reflexivity|].
  rewrite IH by (intros; apply Hl; now right).
  rewrite (Hl e) by now left. rewrite andb_false_r. apply xorb_false_r.
Qed.

Lemma reduce_eps n s l m eps k :
  (forall e, In e l -> sE s (fst e) k = false) ->
  snd (reduce n s l m eps) k = eps k.
Proof.
  revert m eps. induction l as [|e l IH]; intros m eps Hl; simpl; [reflexivity|].
  rewrite IH by (intros; apply Hl; now right).
  rewrite (Hl e) by now left. rewrite andb_false_r. apply xorb_false_r.
Qed.

Lemma reduce_sym n s l m eps :
  sym n s -> (forall e, In e l -> fst e < n) ->
  (forall t, t < n -> dot n m (sE s t) = dot n (sM s t) eps) ->
  forall t, t < n ->
    dot n (fst (reduce n s l m eps)) (sE s t) = dot n (sM s t) (snd (reduce n s l m eps)).
Proof.
  intros Hs. revert m eps. induction l as [|e l IH]; intros m eps Hl H; simpl; [exact H|].
  apply IH; [intros; apply Hl; now right|].
  intros t Ht. rewrite dot_xor_l, dot_xor_r, H by assumption.
  rewrite (Hs (fst e) t) by (try assumption; apply Hl; now left). reflexivity.
Qed.

Lemma reduce_keep n s l m eps v :
  dot n m v = false ->
  (forall e, In e l -> dot n (sM s (fst e)) v = false) ->
  dot n (fst (reduce n s l m eps)) v = false.
Proof.
  revert m eps. induction l as [|e l IH]; intros m eps Hm Hl; simpl; [exact Hm|].
  apply IH; [|intros; apply Hl; now right].
  rewrite dot_xor_l, Hm, (Hl e) by now left. now rewrite andb_false_r.
Qed.

Lemma reduce_kill n s l m eps e :
  Kinv n s l -> In e l ->
  dot n (fst (reduce n s l m eps)) (sE s (snd e)) = false.
Proof.
  revert m eps. induction l as [|a l IH]; intros m eps HK He; simpl; [destruct He|].
  simpl in HK. destruct HK as (K1 & K2 & K3).
  destruct He as [->|He].
  - apply reduce_keep; [|exact K2].
    rewrite dot_xor_l, K1. now destruct (dot n m (sE s (snd e))).
  - now apply IH.
Qed.

Section Free.
Variables (n c : nat) (s : sys) (pend : list (nat * nat)).
Hypothesis Hc : c < n.
Hypothesis HI : Inv n c s pend.
Hypothesis Hfree : pivot n (sM s) c = n.

Let mf := fst (reduce n s pend (sM s c) (sE s c)).
Let ef := snd (reduce n s pend (sM s c) (sE s c)).

Lemma F_normal : ~ pnd pend c.
Proof. intros Hq. rewrite (pivot_pending n c s pend Hc HI Hq) in Hfree. lia. Qed.

Lemma F_col r : c <= r < n -> sM s r c = false.
Proof.
  intros Hr. pose proof (pivot_spec n (sM s) c ltac:(lia)) as H. simpl in H.
  rewrite Hfree in H. now apply H.
Qed.

Lemma F_rng e : In e pend -> c < fst e < n.
Proof.
  intros He. pose proof (I_rng _ _ _ _ HI e He) as H.
  assert (fst e <> c) by (intros E; apply F_normal; rewrite <- E; now apply pnd_in). lia.
Qed.

Lemma F_low j : j < c -> mf j = false.
Proof.
  intros Hj. unfold mf. rewrite reduce_low.
  - apply (I_up _ _ _ _ HI); lia.
  - intros e He. pose proof (F_rng e He). apply (I_up _ _ _ _ HI); lia.
Qed.

Lemma F_pend : forall j, pnd pend j -> mf j = false.
Proof.
  intros j. induction j as [j IH] using lt_wf_ind. intros Hq.
  destruct (pnd_ex _ _ Hq) as (o & Ho).
  pose proof (I_rng _ _ _ _ HI _ Ho) as Hr. simpl in Hr.
  destruct (I_E3 _ _ _ _ HI _ Ho) as (H1 & H2). simpl in H1, H2.
  assert (Hd : dot n mf (sE s o) = mf j && sE s o j).
  { apply dot_single; [lia|]. intros k Hk Hkj.
    destruct (Nat.lt_ge_cases k c) as [Hlt|Hge].
    - now rewrite F_low.
    - destruct (sE s o k) eqn:He; [|apply andb_false_r].
      destruct (H2 k ltac:(lia) Hkj He) as (Hqk & Hlt).
      now rewrite (IH k Hlt Hqk). }
  pose proof (reduce_kill n s pend (sM s c) (sE s c) (j, o) (I_K _ _ _ _ HI) Ho) as Hz.
  simpl in Hz. fold mf in Hz. rewrite Hd, H1, andb_true_r in Hz. exact Hz.
Qed.

Lemma F_eps k : c <= k < n -> ef k = sE s c k.
Proof.
  intros Hk. unfold ef. apply reduce_eps. intros e He.
  apply (I_E2 _ _ _ _ HI (fst e) (pnd_in _ _ He) k Hk).
Qed.

Lemma F_norm j : c <= j < n -> ~ pnd pend j -> mf j = false.
Proof.
  intros Hj Hnq.
  destruct (I_E1 _ _ _ _ HI j Hj Hnq) as (H1 & H2).
  assert (Hd : dot n mf (sE s j) = mf j).
  { rewrite (dot_single n _ _ j); [now rewrite H1, andb_true_r|lia|].
    intros k Hk Hkj.
    destruct (Nat.lt_ge_cases k c) as [Hlt|Hge].
    - now rewrite F_low.
    - destruct (sE s j k) eqn:He; [|apply andb_false_r].
      destruct (H2 k ltac:(lia) Hkj He) as (Hqk & _).
      now rewrite (F_pend k Hqk). }
  rewrite <- Hd. unfold mf.
  rewrite (reduce_sym n s pend (sM s c) (sE s c) (I_sym _ _ _ _ HI)).
  - fold ef. rewrite (dot_single n _ _ c Hc).
    + rewrite F_col by lia. reflexivity.
    + intros k Hk Hkc.
      destruct (Nat.lt_ge_cases k c) as [Hlt|Hge].
      * rewrite (I_up _ _ _ _ HI k j) by lia. reflexivity.
      * rewrite F_eps by lia.
        destruct (sE s c k) eqn:He; [|apply andb_false_r].
        destruct (I_E1 _ _ _ _ HI c ltac:(lia) F_normal) as (_ & H3).
        destruct (H3 k ltac:(lia) Hkc He) as (_ & Hlt). lia.
  - intros e He. apply (I_rng _ _ _ _ HI e He).
  - intros t Ht. apply (I_sym _ _ _ _ HI); lia.
  - lia.
Qed.

Lemma free_row_span : span n (sM s) c (sM s c).
Proof.
  apply (span_ext n (sM s) c (fun j => xorb (sM s c j) (mf j))).
  - unfold mf. apply reduce_span. apply F_rng.
  - intros j Hj.
    assert (mf j = false) as ->; [|apply xorb_false_r].
    destruct (Nat.lt_ge_cases j c) as [Hlt|Hge]; [now apply F_low|].
    destruct (pnd_dec pend j) as [Hq|Hnq]; [now apply F_pend|apply F_norm; [lia|assumption]].
Qed.

End Free.

Lemma free_span_step n c s pend :
  c < n -> Inv n c s pend ->
  free_span n c (sM s) -> free_span n (S c) (sM (astep n c s)).
Proof.
  intros Hc HI HF.
  pose proof (pivot_spec n (sM s) c ltac:(lia)) as Hps. simpl in Hps.
  destruct (Nat.eq_dec (pivot n (sM s) c) n) as [e|ne].
  - rewrite astep_free by assumption. intros k Hk Hkk.
    destruct (Nat.eq_dec k c) as [->|Hne].
    + apply (free_row_span n c s pend Hc HI e).
    + apply HF; [lia|assumption].
  - assert (Hp : pivot n (sM s) c < n) by lia.
    pose proof (I_up _ _ _ _ HI) as Hup.
    pose proof (astep_M n c s Hc Hup Hp) as HM.
    pose proof (piv_ge n c s Hc Hp) as Hge.
    pose proof (hit_le n c s Hc Hp) as Hle.
    pose proof (piv_true n c s Hc Hp) as Htrue.
    set (p := pivot n (sM s) c) in *.
    intros k Hk Hkk.
    destruct (Nat.eq_dec k c) as [->|Hne].
    + exfalso. rewrite HM, swp_c, Hle in Hkk by lia.
      rewrite Htrue in Hkk. discriminate.
    + assert (Hkc : k < c) by lia.
      assert (Hrow : forall j, sM (astep n c s) k j = sM s k j).
      { intros j. rewrite HM. rewrite swp_other by lia.
        rewrite Hle by lia. apply xorb_false_r. }
      rewrite Hrow in Hkk.
      apply (span_ext n _ k (sM s k)); [|intros; symmetry; apply Hrow].
      apply (span_mono n (sM s)); [|now apply HF].
      intros r Hr.
      apply (span_ext n _ k
               (fun j => xorb (sM (astep n c s) (swp c p r) j)
                              (hit (sM s) c p (swp c p r) && sM (astep n c s) c j))).
      * apply span_xor.
        -- apply span_row. split.
           ++ unfold swp. destruct (r =? c); [lia|]. destruct (r =? p); lia.
           ++ apply swp_lt; lia.
        -- apply span_scale. lia.
      * intros j Hj. rewrite !HM. rewrite swp_invol, swp_c.
        rewrite (Hle c) by lia. simpl.
        rewrite xorb_false_r.
        destruct (sM s r j), (hit (sM s) c p (swp c p r)), (sM s p j); reflexivity.
Qed.

Lemma consistent_step n c s :
  c < n -> upper n c (sM s) -> consistent n s -> consistent n (astep n c s).
Proof.
  intros Hc Hup (sv & Hsv).
  pose proof (pivot_spec n (sM s) c ltac:(lia)) as Hps. simpl in Hps.
  destruct (Nat.eq_dec (pivot n (sM s) c) n) as [e|ne].
  - rewrite astep_free by assumption. now exists sv.
  - assert (Hp : pivot n (sM s) c < n) by lia.
    pose proof (piv_ge n c s Hc Hp) as Hge.
    exists sv. intros r Hr.
    rewrite astep_b, dotM_step by assumption.
    rewrite !Hsv by (try assumption; apply swp_lt; lia). reflexivity.
Qed.

Lemma sat_step n c s x :
  c < n -> upper n c (sM s) ->
  sat n (sM (astep n c s)) (sb (astep n c s)) x -> sat n (sM s) (sb s) x.
Proof.
  intros Hc Hup Hs.
  pose proof (pivot_spec n (sM s) c ltac:(lia)) as Hps. simpl in Hps.
  destruct (Nat.eq_dec (pivot n (sM s) c) n) as [e|ne].
  - now rewrite astep_free in Hs.
  - assert (Hp : pivot n (sM s) c < n) by lia.
    pose proof (piv_ge n c s Hc Hp) as Hge.
    pose proof (hit_le n c s Hc Hp) as Hle.
    pose proof (dotM_step n c s Hc Hup Hp) as HdM.
    pose proof (astep_b n c s Hc Hp) as Hb.
    set (p := pivot n (sM s) c) in *.
    pose proof (Hs c Hc) as Hpc.
    rewrite HdM, Hb in Hpc.
    rewrite swp_c, (Hle c) in Hpc by lia. simpl in Hpc.
    rewrite !xorb_false_r in Hpc.
    intros r Hr.
    pose proof (Hs (swp c p r) ltac:(apply swp_lt; lia)) as Hsr.
    rewrite HdM, Hb in Hsr.
    rewrite swp_invol, Hpc in Hsr.
    destruct (hit (sM s) c p (swp c p r)), (dot n (sM s r) x), (sb s r), (sb s p);
      simpl in Hsr; congruence.
Qed.

(* ---------- iterating the step ---------- *)

Lemma aelim_inv n A b k :
  (forall i j, i < n -> j < n -> A i j = A j i) ->
  k <= n ->
  exists pend, Inv n k (aelim n k {| sM := A; sE := idm; sb := b |}) pend.
Proof.
  intros HA. induction k as [|k IH]; intros Hk; simpl.
  - exists []. constructor; simpl.
    + intros e [].
    + apply List.NoDup_nil.
    + intros k r Hk0. lia.
    + intros r t Hr Ht. simpl.
      rewrite (dot_single n _ _ t Ht), (dot_single n _ _ r Hr).
      * unfold idm. rewrite !Nat.eqb_refl, !andb_true_r. now apply HA.
      * intros j Hj Hjr. unfold idm. replace (r =? j) with false; [apply andb_false_r|].
        symmetry. apply Nat.eqb_neq. lia.
      * intros j Hj Hjr. unfold idm. replace (t =? j) with false; [apply andb_false_r|].
        symmetry. apply Nat.eqb_neq. lia.
    + intros i Hi _. unfold idm. split; [apply Nat.eqb_refl|].
      intros k _ Hki He. apply Nat.eqb_eq in He. congruence.
    + intros q [].
    + intros e [].
    + exact I.
  - destruct (IH ltac:(lia)) as (pend & HI).
    apply (inv_step n k _ pend); [lia|exact HI].
Qed.

Lemma aelim_upper n s k : k <= n -> upper n k (sM (aelim n k s)).
Proof.
  induction k as [|k IH]; intros Hk; simpl.
  - intros j r Hj. lia.
  - apply upper_step; [lia|apply IH; lia].
Qed.

Lemma aelim_free_span n A b k :
  (forall i j, i < n -> j < n -> A i j = A j i) ->
  k <= n -> free_span n k (sM (aelim n k {| sM := A; sE := idm; sb := b |})).
Proof.
  intros HA. induction k as [|k IH]; intros Hk; simpl.
  - intros j Hj. lia.
  - destruct (aelim_inv n A b k HA ltac:(lia)) as (pend & HI).
    apply (free_span_step n k _ pend); [lia|exact HI|apply IH; lia].
Qed.

Lemma aelim_consistent n s k : k <= n -> consistent n s -> consistent n (aelim n k s).
Proof.
  intros Hk Hs. induction k as [|k IH]; simpl; [exact Hs|].
  apply consistent_step; [lia|apply aelim_upper; lia|apply IH; lia].
Qed.

Lemma aelim_sat n s k x :
  k <= n -> sat n (sM (aelim n k s)) (sb (aelim n k s)) x -> sat n (sM s) (sb s) x.
Proof.
  intros Hk. induction k as [|k IH]; simpl; [auto|].
  intros H. apply IH; [lia|]. apply (sat_step n k); [lia|apply aelim_upper; lia|exact H].
Qed.

(* ---------- back substitution ---------- *)

Lemma backsub_low n M b t j : j < n - t -> backsub n M b t j = false.
Proof.
  revert j. induction t as [|t IH]; intros j Hj; simpl; [reflexivity|].
  replace (j =? n - S t) with false by (symmetry; apply Nat.eqb_neq; lia).
  apply IH. lia.
Qed.

Lemma backsub_stable n M b t t' j :
  t <= t' -> t' <= n -> n - t <= j -> backsub n M b t' j = backsub n M b t j.
Proof.
  intros Ht Hn Hj. induction t' as [|t' IH].
  - replace t with 0 by lia. reflexivity.
  - destruct (Nat.eq_dec t (S t')) as [->|Hne]; [reflexivity|].
    simpl. replace (j =? n - S t') with false by (symmetry; apply Nat.eqb_neq; lia).
    apply IH; lia.
Qed.

Lemma dot_ext_supp n u v v' :
  (forall k, k < n -> u k = true -> v k = v' k) -> dot n u v = dot n u v'.
Proof.
  induction n as [|n IH]; intros H; simpl; [reflexivity|].
  rewrite IH by (intros; apply H; [lia|assumption]).
  destruct (u n) eqn:E; [|reflexivity]. rewrite (H n) by (try lia; assumption). reflexivity.
Qed.

Lemma dot_idm n u j : j < n -> dot n u (idm j) = u j.
Proof.
  intros Hj. rewrite (dot_single n u (idm j) j Hj).
  - unfold idm. now rewrite Nat.eqb_refl, andb_true_r.
  - intros k Hk Hkj. unfold idm. replace (j =? k) with false; [apply andb_false_r|].
    symmetry. apply Nat.eqb_neq. lia.
Qed.

Lemma backsub_eq n M b j :
  j < n -> upper n n M ->
  backsub n M b n j =
  xorb (b j) (xorb (dot n (M j) (backsub n M b n)) (M j j && backsub n M b n j)).
Proof.
  intros Hj Hup.
  set (t := n - S j).
  assert (Hrow : n - S t = j) by (unfold t; lia).
  rewrite (backsub_stable n M b (S t) n j) at 1 by (unfold t; lia).
  simpl. rewrite Hrow, Nat.eqb_refl. f_equal.
  set (x0 := backsub n M b t). set (x := backsub n M b n).
  assert (Hx : forall k, j < k -> x k = x0 k).
  { intros k Hk. unfold x, x0. apply backsub_stable; unfold t; lia. }
  assert (H0 : x0 j = false) by (apply backsub_low; unfold t; lia).
  rewrite (dot_ext_supp n (M j) x0 (fun k => xorb (x k) (x j && idm j k))).
  - rewrite dot_xor_r, dot_idm by assumption.
    destruct (dot n (M j) x), (M j j), (x j); reflexivity.
  - intros k Hk Hm. unfold idm.
    destruct (Nat.lt_trichotomy k j) as [Hlt|[->|Hgt]].
    + rewrite (Hup k j) in Hm by lia. discriminate.
    + rewrite Nat.eqb_refl, H0, andb_true_r. now destruct (x j).
    + replace (j =? k) with false by (symmetry; apply Nat.eqb_neq; lia).
      rewrite andb_false_r, xorb_false_r. symmetry. now apply Hx.
Qed.

Lemma backsub_sat n M b :
  upper n n M -> free_span n n M ->
  (exists sv : vec, forall r, r < n -> b r = dot n (M r) sv) ->
  sat n M b (backsub n M b n).
Proof.
  intros Hup HF (sv & Hsv).
  set (x := backsub n M b n).
  assert (H : forall d r, r < n -> n - r <= d -> dot n (M r) x = b r).
  { induction d as [|d IH]; intros r Hr Hd; [lia|].
    pose proof (backsub_eq n M b r Hr Hup) as He. fold x in He.
    destruct (M r r) eqn:Hd0.
    - destruct (x r), (b r), (dot n (M r) x); simpl in He; congruence.
    - rewrite (span_dot n M r (M r) x sv (HF r Hr Hd0)).
      + symmetry. now apply Hsv.
      + intros r' Hr'. rewrite IH by lia. apply Hsv. lia. }
  intros r Hr. apply (H n r Hr). lia.
Qed.

Theorem gauss_sym_correct n A b sv :
  (forall i j, i < n -> j < n -> A i j = A j i) ->
  (forall r, r < n -> b r = dot n (A r) sv) ->
  let sf := aelim n n {| sM := A; sE := idm; sb := b |} in
  sat n A b (backsub n (sM sf) (sb sf) n).
Proof.
  intros HA Hb sf.
  apply (aelim_sat n {| sM := A; sE := idm; sb := b |} n _ (Nat.le_refl n)).
  fold sf. apply backsub_sat.
  - apply aelim_upper. lia.
  - apply aelim_free_span; [exact HA|lia].
  - assert (Hc : consistent n sf).
    { apply aelim_consistent; [lia|]. exists sv. exact Hb. }
    exact Hc.
Qed.

(* ===================================================================== *)
(** * Part V: the program refines the algebra                             *)
(* ===================================================================== *)

Lemma bind_done {A B : Type} (m : result A) (k : A -> result B) a :
  m = Done a -> bind m k = k a.
Proof. intros ->. reflexivity. Qed.

Lemma repV_ext N b v v' : repV N b v -> (forall i, i < N -> v i = v' i) -> repV N b v'.
Proof. intros (Hl & H) He. split; [exact Hl|]. intros i Hi. rewrite <- He by exact Hi. now apply H. Qed.

Lemma repM_ext R C A M M' :
  repM R C A M -> (forall i j, i < R -> j < C -> M i j = M' i j) -> repM R C A M'.
Proof.
  intros (Hl & H) He. split; [exact Hl|]. intros i Hi.
  destruct (H i Hi) as (r & Hr & Hv). exists r. split; [exact Hr|].
  apply (repV_ext C r (M i)); [exact Hv|]. intros j Hj. now apply He.
Qed.

Lemma repV_replicate N a : repV N (replicate N a) (fun _ => a).
Proof. split; [apply length_replicate|]. intros i Hi. now apply lookup_replicate_2. Qed.

Lemma repM_replicate R C a : repM R C (replicate R (replicate C a)) (fun _ _ => a).
Proof.
  split; [apply length_replicate|]. intros i Hi. exists (replicate C a).
  split; [now apply lookup_replicate_2|apply repV_replicate].
Qed.

Lemma rd_repV N b v i :
  repV N b v -> (0 <= i < Z.of_nat N)%Z -> rd b i = Done (v (Z.to_nat i)).
Proof.
  intros (Hl & H) Hi. unfold rd.
  replace (i <? 0)%Z with false by (symmetry; apply Z.ltb_ge; lia).
  rewrite H by lia. reflexivity.
Qed.

Lemma wr_repV N b v i a :
  repV N b v -> (0 <= i < Z.of_nat N)%Z ->
  exists b', wr b i a = Done b' /\
             repV N b' (fun k => if k =? Z.to_nat i then a else v k).
Proof.
  intros (Hl & H) Hi. unfold wr.
  replace (0 <=? i)%Z with true by (symmetry; apply Z.leb_le; lia).
  replace (i <? Z.of_nat (length b))%Z with true by (symmetry; apply Z.ltb_lt; lia).
  simpl. eexists. split; [reflexivity|]. split; [now rewrite length_insert|].
  intros k Hk. destruct (Nat.eqb_spec k (Z.to_nat i)) as [->|Hne].
  - apply list_lookup_insert_eq. lia.
  - rewrite list_lookup_insert_ne by lia. now apply H.
Qed.

Lemma rd_row R C A M i :
  repM R C A M -> (0 <= i < Z.of_nat R)%Z ->
  exists r, rd A i = Done r /\ repV C r (M (Z.to_nat i)).
Proof.
  intros (Hl & H) Hi. destruct (H (Z.to_nat i) ltac:(lia)) as (r & Hr & Hv).
  exists r. split; [|exact Hv]. unfold rd.
  replace (i <? 0)%Z with false by (symmetry; apply Z.ltb_ge; lia).
  now rewrite Hr.
Qed.

Lemma wr_row R C A M i r v :
  repM R C A M -> (0 <= i < Z.of_nat R)%Z -> repV C r v ->
  exists A', wr A i r = Done A' /\
             repM R C A' (fun k => if k =? Z.to_nat i then v else M k).
Proof.
  intros (Hl & H) Hi Hr. unfold wr.
  replace (0 <=? i)%Z with true by (symmetry; apply Z.leb_le; lia).
  replace (i <? Z.of_nat (length A))%Z with true by (symmetry; apply Z.ltb_lt; lia).
  simpl. eexists. split; [reflexivity|]. split; [now rewrite length_insert|].
  intros k Hk. destruct (Nat.eqb_spec k (Z.to_nat i)) as [->|Hne].
  - exists r. split; [apply list_lookup_insert_eq; lia|exact Hr].
  - rewrite list_lookup_insert_ne by lia. now apply H.
Qed.

Lemma rd2_repM R C A M i j :
  repM R C A M -> (0 <= i < Z.of_nat R)%Z -> (0 <= j < Z.of_nat C)%Z ->
  rd2 A i j = Done (M (Z.to_nat i) (Z.to_nat j)).
Proof.
  intros HA Hi Hj. unfold rd2.
  destruct (rd_row R C A M i HA Hi) as (r & Hr & Hv).
  rewrite (bind_done _ _ _ Hr). now apply (rd_repV C).
Qed.

Lemma wr2_repM R C A M i j a :
  repM R C A M -> (0 <= i < Z.of_nat R)%Z -> (0 <= j < Z.of_nat C)%Z ->
  exists A', wr2 A i j a = Done A' /\
    repM R C A' (fun k l => if (k =? Z.to_nat i) && (l =? Z.to_nat j) then a else M k l).
Proof.
  intros HA Hi Hj. unfold wr2.
  destruct (rd_row R C A M i HA Hi) as (r & Hr & Hv).
  rewrite (bind_done _ _ _ Hr).
  destruct (wr_repV C r _ j a Hv Hj) as (r' & Hr' & Hv').
  rewrite (bind_done _ _ _ Hr').
  destruct (wr_row R C A M i r' _ HA Hi Hv') as (A' & HA' & HM').
  exists A'. split; [exact HA'|].
  apply (repM_ext R C A' _ _ HM'). intros k l Hk Hl.
  destruct (Nat.eqb_spec k (Z.to_nat i)) as [->|Hne]; reflexivity.
Qed.

Lemma repV_inj N b b' v : repV N b v -> repV N b' v -> b = b'.
Proof.
  intros (Hl & H) (Hl' & H'). apply list_eq. intros i.
  destruct (Nat.lt_ge_cases i N) as [Hi|Hi].
  - now rewrite H, H'.
  - rewrite !lookup_ge_None_2 by lia. reflexivity.
Qed.

(* ---------- loops ---------- *)

Lemma for_loop_inv {S : Type} (P : nat -> S -> Prop) fuel lo body (s : S) :
  P 0 s ->
  (forall k s, k < fuel -> P k s ->
     exists s', body (lo + Z.of_nat k)%Z s = Done s' /\ P (Datatypes.S k) s') ->
  exists s', for_loop fuel lo body s = Done s' /\ P fuel s'.
Proof.
  revert P lo s. induction fuel as [|fuel IH]; intros P lo s H0 Hstep; simpl.
  - exists s. auto.
  - destruct (Hstep 0 s ltac:(lia) H0) as (s1 & Hb & H1).
    replace (lo + Z.of_nat 0)%Z with lo in Hb by lia.
    rewrite (bind_done _ _ _ Hb).
    apply (IH (fun k s => P (Datatypes.S k) s) (lo + 1)%Z s1 H1).
    intros k s2 Hk Hs2. destruct (Hstep (Datatypes.S k) s2 ltac:(lia) Hs2) as (s3 & Hb3 & H3).
    exists s3. split; [|exact H3]. rewrite <- Hb3. f_equal. lia.
Qed.

Lemma for_range_inv {S : Type} (P : nat -> S -> Prop) lo hi body (s : S) :
  P 0 s ->
  (forall k s, (lo + Z.of_nat k < hi)%Z -> P k s ->
     exists s', body (lo + Z.of_nat k)%Z s = Done s' /\ P (Datatypes.S k) s') ->
  exists s', for_range lo hi body s = Done s' /\ P (Z.to_nat (hi - lo)) s'.
Proof.
  intros H0 Hstep. unfold for_range. apply for_loop_inv; [exact H0|].
  intros k s1 Hk. apply Hstep. lia.
Qed.

Lemma for_range_fault {S : Type} lo hi body (s : S) f :
  (lo < hi)%Z -> body lo s = Fault f -> for_range lo hi body s = Fault f.
Proof.
  intros Hlt Hb. unfold for_range.
  destruct (Z.to_nat (hi - lo)) as [|k] eqn:E; [lia|].
  simpl. now rewrite Hb.
Qed.

Lemma for_range_nop {S : Type} lo hi body (s : S) :
  (forall i s, body i s = Done s) -> for_range lo hi body s = Done s.
Proof.
  intros Hb. unfold for_range. generalize (Z.to_nat (hi - lo)). intros k. revert lo.
  induction k as [|k IH]; intros lo; simpl; [reflexivity|]. rewrite Hb. simpl. apply IH.
Qed.

Lemma flip_spec R C g G y x :
  repM R C g G -> (0 <= y < Z.of_nat R)%Z -> (0 <= x < Z.of_nat C)%Z ->
  exists g', flip g y x = Done g' /\
    repM R C g' (fun i j => xorb (G i j) ((i =? Z.to_nat y) && (j =? Z.to_nat x))).
Proof.
  intros Hg Hy Hx. unfold flip.
  rewrite (bind_done _ _ _ (rd2_repM R C g G y x Hg Hy Hx)).
  destruct (wr2_repM R C g G y x (negb (G (Z.to_nat y) (Z.to_nat x))) Hg Hy Hx) as (g' & Hw & Hg').
  exists g'. split; [exact Hw|].
  apply (repM_ext R C g' _ _ Hg'). intros i j Hi Hj.
  destruct (Nat.eqb_spec i (Z.to_nat y)) as [->|]; simpl; [|now rewrite xorb_false_r].
  destruct (Nat.eqb_spec j (Z.to_nat x)) as [->|]; simpl; [|now rewrite xorb_false_r].
  now destruct (G (Z.to_nat y) (Z.to_nat x)).
Qed.

Lemma toggle_spec bx G y x :
  wf_box bx G -> (0 <= y < ySize bx)%Z -> (0 <= x < xSize bx)%Z ->
  exists bx', toggle bx y x = Done bx' /\ same_shape bx bx' /\
    wf_box bx' (fun i j => xorb (G i j) ((i =? Z.to_nat y) || (j =? Z.to_nat x))).
Proof.
  intros (Hy0 & Hx0 & Hg) Hy Hx. unfold toggle.
  set (R := Z.to_nat (ySize bx)) in *. set (C := Z.to_nat (xSize bx)) in *.
  destruct (flip_spec R C (box bx) G y x Hg ltac:(lia) ltac:(lia)) as (g1 & Hf1 & Hg1).
  rewrite (bind_done _ _ _ Hf1).
  (* the row loop *)
  destruct (for_range_inv
    (fun k g => repM R C g (fun i j =>
       xorb (xorb (G i j) ((i =? Z.to_nat y) && (j =? Z.to_nat x)))
            ((i =? Z.to_nat y) && (j <? k))))
    0%Z (xSize bx) (fun i g => flip g y i) g1) as (g2 & Hf2 & Hg2).
  { apply (repM_ext R C g1 _ _ Hg1). intros i j Hi Hj.
    rewrite andb_false_r. now rewrite xorb_false_r. }
  { intros k g Hk Hgk.
    destruct (flip_spec R C g _ y (0 + Z.of_nat k)%Z Hgk ltac:(lia) ltac:(lia)) as (g' & Hf & Hg').
    exists g'. split; [exact Hf|].
    apply (repM_ext R C g' _ _ Hg'). intros i j Hi Hj.
    replace (Z.to_nat (0 + Z.of_nat k)) with k by lia.
    destruct (G i j); nat_cases. }
  rewrite (bind_done _ _ _ Hf2).
  replace (Z.to_nat (xSize bx - 0)) with C in Hg2 by lia.
  (* the column loop *)
  destruct (for_range_inv
    (fun k g => repM R C g (fun i j =>
       xorb (xorb (xorb (G i j) ((i =? Z.to_nat y) && (j =? Z.to_nat x)))
                  ((i =? Z.to_nat y) && (j <? C)))
            ((j =? Z.to_nat x) && (i <? k))))
    0%Z (ySize bx) (fun i g => flip g i x) g2) as (g3 & Hf3 & Hg3).
  { apply (repM_ext R C g2 _ _ Hg2). intros i j Hi Hj.
    rewrite andb_false_r. now rewrite xorb_false_r. }
  { intros k g Hk Hgk.
    destruct (flip_spec R C g _ (0 + Z.of_nat k)%Z x Hgk ltac:(lia) ltac:(lia)) as (g' & Hf & Hg').
    exists g'. split; [exact Hf|].
    apply (repM_ext R C g' _ _ Hg'). intros i j Hi Hj.
    replace (Z.to_nat (0 + Z.of_nat k)) with k by lia.
    destruct (G i j); nat_cases. }
  rewrite (bind_done _ _ _ Hf3).
  replace (Z.to_nat (ySize bx - 0)) with R in Hg3 by lia.
  eexists. split; [reflexivity|]. split; [repeat split|].
  split; [exact Hy0|]. split; [exact Hx0|]. simpl. fold R C.
  apply (repM_ext R C g3 _ _ Hg3). intros i j Hi Hj.
  destruct (G i j); nat_cases.
Qed.

Lemma wrap32_small z : (0 <= z < 4294967296)%Z -> wrap32 z = z.
Proof. intros H. unfold wrap32. apply Z.mod_small. exact H. Qed.

Lemma lin_lt Y X k l : k < Y -> l < X -> k * X + l < Y * X.
Proof. intros Hk Hl. nia. Qed.

Lemma lin_div X k l : l < X -> (k * X + l) / X = k.
Proof.
  intros Hl. symmetry. apply (Nat.div_unique (k * X + l) X k l); [exact Hl|lia].
Qed.

Lemma lin_mod X k l : l < X -> (k * X + l) mod X = l.
Proof.
  intros Hl. symmetry. apply (Nat.mod_unique (k * X + l) X k l); [exact Hl|lia].
Qed.

Lemma div_eq_iff X j k : 0 < X -> (j / X = k <-> k * X <= j < k * X + X).
Proof.
  intros HX. pose proof (Nat.div_mod_eq j X) as Hd.
  pose proof (Nat.mod_upper_bound j X ltac:(lia)) as Hm.
  split.
  - intros <-. nia.
  - intros Hj. symmetry. apply (Nat.div_unique j X k (j - k * X)); lia.
Qed.

Lemma div_lt_rows Y X j : j < Y * X -> j / X < Y.
Proof.
  intros Hj. destruct X as [|X]; [lia|].
  apply Nat.Div0.div_lt_upper_bound. lia.
Qed.

Lemma idx_nat Y X k l :
  (Z.of_nat (Y * X) < 4294967296)%Z -> k < Y -> l < X ->
  wrap32 (Z.of_nat k * Z.of_nat X + Z.of_nat l) = Z.of_nat (k * X + l).
Proof.
  intros HN Hk Hl. pose proof (lin_lt Y X k l Hk Hl) as Hlt.
  rewrite wrap32_small; lia.
Qed.

Section Build.
Variables (bx : SecureBox) (G : mat) (Y X : nat).
Hypothesis Hwf : repM Y X (box bx) G.
Hypothesis HN : (Z.of_nat (Y * X) < 4294967296)%Z.
Let N := Y * X.

Lemma build_cell_spec k l st :
  k < Y -> l < X -> built X N G (k * X + l) st ->
  exists st', build_cell bx (Z.of_nat Y) (Z.of_nat X) (Z.of_nat k) (Z.of_nat l) st = Done st' /\
              built X N G (S (k * X + l)) st'.
Proof.
  intros Hk Hl (HA & Hb). destruct st as (A & b). simpl in HA, Hb.
  pose proof (lin_lt Y X k l Hk Hl) as Hlt. fold N in Hlt.
  unfold build_cell. cbv zeta. cbn [fst snd]. rewrite (idx_nat Y X k l HN Hk Hl).
  set (idx := k * X + l) in *.
  unfold getState.
  rewrite (bind_done _ _ _ (rd2_repM Y X (box bx) G (Z.of_nat k) (Z.of_nat l) Hwf ltac:(lia) ltac:(lia))).
  rewrite !Nat2Z.id.
  destruct (wr_repV N b _ (Z.of_nat idx) (G k l) Hb ltac:(lia)) as (b' & Hwb & Hb').
  rewrite (bind_done _ _ _ Hwb).
  destruct (wr2_repM N N A _ (Z.of_nat idx) (Z.of_nat idx) true HA ltac:(lia) ltac:(lia))
    as (A1 & Hw1 & HA1).
  rewrite (bind_done _ _ _ Hw1). rewrite !Nat2Z.id in HA1, Hb'.
  (* the row of the cell *)
  destruct (for_range_inv
    (fun t A => repM N N A (fun i j =>
       ((i <? idx) && foot X i j) ||
       ((i =? idx) && ((j =? idx) || ((k * X <=? j) && (j <? k * X + t))))))
    0%Z (Z.of_nat X) (fun i A => wr2 A (Z.of_nat idx) (wrap32 (Z.of_nat k * Z.of_nat X + i)) true) A1)
    as (A2 & Hw2 & HA2).
  { apply (repM_ext N N A1 _ _ HA1). intros i j Hi Hj.
    destruct (foot X i j); nat_cases. }
  { intros t A' Ht HA'.
    assert (Htl : t < X) by lia.
    replace (0 + Z.of_nat t)%Z with (Z.of_nat t) by lia.
    rewrite (idx_nat Y X k t HN Hk Htl).
    pose proof (lin_lt Y X k t Hk Htl) as Hlt'. fold N in Hlt'.
    destruct (wr2_repM N N A' _ (Z.of_nat idx) (Z.of_nat (k * X + t)) true HA'
                ltac:(lia) ltac:(lia)) as (A'' & Hw & HA'').
    exists A''. split; [exact Hw|]. rewrite !Nat2Z.id in HA''.
    apply (repM_ext N N A'' _ _ HA''). intros i j Hi Hj.
    destruct (foot X i j); nat_cases. }
  rewrite (bind_done _ _ _ Hw2).
  replace (Z.to_nat (Z.of_nat X - 0)) with X in HA2 by lia.
  (* the column of the cell *)
  destruct (for_range_inv
    (fun t A => repM N N A (fun i j =>
       ((i <? idx) && foot X i j) ||
       ((i =? idx) && ((j =? idx) || ((k * X <=? j) && (j <? k * X + X))
                       || ((j mod X =? l) && (j / X <? t))))))
    0%Z (Z.of_nat Y) (fun i A => wr2 A (Z.of_nat idx) (wrap32 (i * Z.of_nat X + Z.of_nat l)) true) A2)
    as (A3 & Hw3 & HA3).
  { apply (repM_ext N N A2 _ _ HA2). intros i j Hi Hj.
    rewrite andb_false_r, orb_false_r. reflexivity. }
  { intros t A' Ht HA'.
    assert (Htl : t < Y) by lia.
    replace (0 + Z.of_nat t)%Z with (Z.of_nat t) by lia.
    rewrite (idx_nat Y X t l HN Htl Hl).
    pose proof (lin_lt Y X t l Htl Hl) as Hlt'. fold N in Hlt'.
    destruct (wr2_repM N N A' _ (Z.of_nat idx) (Z.of_nat (t * X + l)) true HA'
                ltac:(lia) ltac:(lia)) as (A'' & Hw & HA'').
    exists A''. split; [exact Hw|]. rewrite !Nat2Z.id in HA''.
    apply (repM_ext N N A'' _ _ HA''). intros i j Hi Hj.
    assert (Hjt : (j =? t * X + l) = (j mod X =? l) && (j / X =? t)).
    { destruct (Nat.eqb_spec j (t * X + l)) as [->|Hne].
      - rewrite lin_div, lin_mod by exact Hl. now rewrite !Nat.eqb_refl.
      - destruct (Nat.eqb_spec (j mod X) l) as [Hm|]; [|reflexivity].
        destruct (Nat.eqb_spec (j / X) t) as [Hd|]; [|reflexivity].
        exfalso. apply Hne. rewrite (Nat.div_mod_eq j X). lia. }
    rewrite Hjt.
    destruct (foot X i j), (j mod X =? l); nat_cases. }
  rewrite (bind_done _ _ _ Hw3).
  replace (Z.to_nat (Z.of_nat Y - 0)) with Y in HA3 by lia.
  eexists. split; [reflexivity|]. split; simpl.
  - apply (repM_ext N N A3 _ _ HA3). intros i j Hi Hj.
    assert (HX : 0 < X) by lia.
    assert (Hrow : ((k * X <=? j) && (j <? k * X + X)) = (j / X =? k)).
    { destruct (Nat.eqb_spec (j / X) k) as [Hd|Hd].
      - apply (div_eq_iff X j k HX) in Hd. nat_cases.
      - destruct (Nat.leb_spec (k * X) j); [|reflexivity].
        destruct (Nat.ltb_spec j (k * X + X)); [|reflexivity].
        exfalso. apply Hd. apply (div_eq_iff X j k HX). lia. }
    assert (Hcol : (j / X <? Y) = true).
    { apply Nat.ltb_lt. apply div_lt_rows. exact Hj. }
    rewrite Hrow, Hcol, andb_true_r.
    destruct (Nat.eqb_spec i idx) as [->|Hne].
    + unfold foot. unfold idx. rewrite lin_div, lin_mod by exact Hl. fold idx.
      replace (idx <? idx) with false by (symmetry; apply Nat.ltb_ge; lia).
      replace (idx <? S idx) with true by (symmetry; apply Nat.ltb_lt; lia).
      simpl. destruct (j =? idx), (j / X =? k), (j mod X =? l); reflexivity.
    + simpl. rewrite orb_false_r. f_equal. nat_cases.
  - apply (repV_ext N b' _ _ Hb'). intros i Hi.
    destruct (Nat.eqb_spec i idx) as [->|Hne].
    + replace (idx <? S idx) with true by (symmetry; apply Nat.ltb_lt; lia).
      unfold flat, idx. now rewrite lin_div, lin_mod by exact Hl.
    + f_equal. nat_cases.
Qed.

Lemma build_spec :
  exists A b, build bx (Z.of_nat Y) (Z.of_nat X) = Done (A, b) /\
    repM N N A (foot X) /\ repV N b (flat X G).
Proof.
  unfold build.
  replace (Z.to_nat (wrap32 (Z.of_nat Y * Z.of_nat X))) with N
    by (unfold N; rewrite wrap32_small; lia).
  destruct (for_range_inv (fun k st => built X N G (k * X) st) 0%Z (Z.of_nat Y)
    (fun row st => for_range 0 (Z.of_nat X) (fun col st => build_cell bx (Z.of_nat Y) (Z.of_nat X) row col st) st)
    (replicate N (replicate N false), replicate N false)) as (st & Hst & Hend).
  { split; simpl.
    - apply (repM_ext N N _ _ _ (repM_replicate N N false)). intros i j _ _. nat_cases.
    - apply (repV_ext N _ _ _ (repV_replicate N false)). intros i _. nat_cases. }
  { intros k st Hk Hb.
    assert (Hky : k < Y) by lia.
    replace (0 + Z.of_nat k)%Z with (Z.of_nat k) by lia.
    destruct (for_range_inv (fun l st => built X N G (k * X + l) st) 0%Z (Z.of_nat X)
      (fun col st => build_cell bx (Z.of_nat Y) (Z.of_nat X) (Z.of_nat k) col st) st) as (st' & Hst' & Hend').
    - now rewrite Nat.add_0_r.
    - intros l st1 Hl Hb1.
      assert (Hlx : l < X) by lia.
      replace (0 + Z.of_nat l)%Z with (Z.of_nat l) by lia.
      replace (k * X + S l) with (S (k * X + l)) by lia.
      now apply build_cell_spec.
    - exists st'. split; [exact Hst'|].
      replace (Z.to_nat (Z.of_nat X - 0)) with X in Hend' by lia.
      replace (S k * X) with (k * X + X) by lia. exact Hend'. }
  replace (Z.to_nat (Z.of_nat Y - 0)) with Y in Hend by lia.
  destruct st as (A & b). exists A, b. split; [exact Hst|].
  destruct Hend as (HA & Hb). simpl in HA, Hb. split.
  - apply (repM_ext N N A _ _ HA). intros i j Hi Hj.
    replace (i <? Y * X) with true by (symmetry; apply Nat.ltb_lt; exact Hi). reflexivity.
  - apply (repV_ext N b _ _ Hb). intros i Hi.
    replace (i <? Y * X) with true by (symmetry; apply Nat.ltb_lt; exact Hi). reflexivity.
Qed.

End Build.

Lemma find_pivot_spec N A M c fuel p0 :
  repM N N A M -> c < N -> fuel = N - p0 -> p0 <= N ->
  find_pivot fuel A (Z.of_nat N) (Z.of_nat c) (Z.of_nat p0) =
  Done (Z.of_nat (find_first fuel p0 (fun r => M r c))).
Proof.
  intros HA Hc. revert p0. induction fuel as [|fuel IH]; intros p0 Hf Hp; simpl.
  - reflexivity.
  - replace (Z.of_nat p0 <? Z.of_nat N)%Z with true by (symmetry; apply Z.ltb_lt; lia).
    rewrite (bind_done _ _ _ (rd2_repM N N A M (Z.of_nat p0) (Z.of_nat c) HA ltac:(lia) ltac:(lia))).
    rewrite !Nat2Z.id. destruct (M p0 c); [reflexivity|].
    replace (Z.of_nat p0 + 1)%Z with (Z.of_nat (S p0)) by lia.
    apply IH; lia.
Qed.

Lemma swap_rows_spec N A M c p :
  repM N N A M -> c < N -> p < N ->
  exists rc rp A1 A2,
    rd A (Z.of_nat c) = Done rc /\ rd A (Z.of_nat p) = Done rp /\
    wr A (Z.of_nat c) rp = Done A1 /\ wr A1 (Z.of_nat p) rc = Done A2 /\
    repM N N A2 (fun r => M (swp c p r)).
Proof.
  intros HA Hc Hp.
  destruct (rd_row N N A M (Z.of_nat c) HA ltac:(lia)) as (rc & Hrc & Hvc).
  destruct (rd_row N N A M (Z.of_nat p) HA ltac:(lia)) as (rp & Hrp & Hvp).
  rewrite Nat2Z.id in Hvc, Hvp.
  destruct (wr_row N N A M (Z.of_nat c) rp _ HA ltac:(lia) Hvp) as (A1 & Hw1 & HA1).
  destruct (wr_row N N A1 _ (Z.of_nat p) rc _ HA1 ltac:(lia) Hvc) as (A2 & Hw2 & HA2).
  exists rc, rp, A1, A2. repeat split; try assumption; [apply HA2|].
  intros i Hi. destruct HA2 as (_ & H2). destruct (H2 i Hi) as (r & Hr & Hv).
  exists r. split; [exact Hr|]. rewrite !Nat2Z.id in Hv.
  unfold swp. destruct (Nat.eqb_spec i c) as [->|Hic].
  - destruct (Nat.eqb_spec c p) as [->|Hcp]; exact Hv.
  - destruct (Nat.eqb_spec i p) as [->|Hip]; exact Hv.
Qed.

Lemma swap_vec_spec N b v c p :
  repV N b v -> c < N -> p < N ->
  exists b1 b2,
    rd b (Z.of_nat c) = Done (v c) /\ rd b (Z.of_nat p) = Done (v p) /\
    wr b (Z.of_nat c) (v p) = Done b1 /\ wr b1 (Z.of_nat p) (v c) = Done b2 /\
    repV N b2 (fun r => v (swp c p r)).
Proof.
  intros Hb Hc Hp.
  pose proof (rd_repV N b v (Z.of_nat c) Hb ltac:(lia)) as Hrc.
  pose proof (rd_repV N b v (Z.of_nat p) Hb ltac:(lia)) as Hrp.
  rewrite Nat2Z.id in Hrc, Hrp.
  destruct (wr_repV N b v (Z.of_nat c) (v p) Hb ltac:(lia)) as (b1 & Hw1 & Hb1).
  destruct (wr_repV N b1 _ (Z.of_nat p) (v c) Hb1 ltac:(lia)) as (b2 & Hw2 & Hb2).
  exists b1, b2. repeat split; try assumption; [apply Hb2|].
  intros i Hi. destruct Hb2 as (_ & H2). rewrite (H2 i Hi). f_equal.
  rewrite !Nat2Z.id. unfold swp.
  destruct (Nat.eqb_spec i c) as [->|Hic].
  - destruct (Nat.eqb_spec c p) as [->|Hcp]; reflexivity.
  - destruct (Nat.eqb_spec i p) as [->|Hip]; reflexivity.
Qed.

Lemma xor_row_spec N A M r c :
  repM N N A M -> r < N -> c < N -> r <> c ->
  exists A', xor_row (Z.of_nat N) (Z.of_nat r) (Z.of_nat c) A = Done A' /\
    repM N N A' (fun i j => if (i =? r) && (c <=? j) then xorb (M r j) (M c j) else M i j).
Proof.
  intros HA Hr Hc Hrc. unfold xor_row.
  destruct (for_range_inv
    (fun t A => repM N N A (fun i j =>
       if (i =? r) && (c <=? j) && (j <? c + t) then xorb (M r j) (M c j) else M i j))
    (Z.of_nat c) (Z.of_nat N)
    (fun k A => a <- rd2 A (Z.of_nat r) k; c0 <- rd2 A (Z.of_nat c) k;
                wr2 A (Z.of_nat r) k (xorb a c0)) A) as (A' & HA' & Hend).
  { apply (repM_ext N N A _ _ HA). intros i j Hi Hj. nat_cases. }
  { intros t A1 Ht HA1.
    replace (Z.of_nat c + Z.of_nat t)%Z with (Z.of_nat (c + t)) by lia.
    rewrite (bind_done _ _ _ (rd2_repM N N A1 _ (Z.of_nat r) (Z.of_nat (c + t)) HA1
                                ltac:(lia) ltac:(lia))).
    rewrite (bind_done _ _ _ (rd2_repM N N A1 _ (Z.of_nat c) (Z.of_nat (c + t)) HA1
                                ltac:(lia) ltac:(lia))).
    rewrite !Nat2Z.id.
    destruct (wr2_repM N N A1 _ (Z.of_nat r) (Z.of_nat (c + t))
      (xorb (if (r =? r) && (c <=? c + t) && (c + t <? c + t)
             then xorb (M r (c + t)) (M c (c + t)) else M r (c + t))
            (if (c =? r) && (c <=? c + t) && (c + t <? c + t)
             then xorb (M r (c + t)) (M c (c + t)) else M c (c + t)))
      HA1 ltac:(lia) ltac:(lia)) as (A2 & Hw & HA2).
    exists A2. split; [exact Hw|]. rewrite !Nat2Z.id in HA2.
    apply (repM_ext N N A2 _ _ HA2). intros i j Hi Hj.
    replace (c + t <? c + t) with false by (symmetry; apply Nat.ltb_ge; lia).
    rewrite !andb_false_r.
    destruct (Nat.eqb_spec i r) as [->|Hir]; simpl.
    - destruct (Nat.eqb_spec j (c + t)) as [->|Hj'].
      + replace (c <=? c + t) with true by (symmetry; apply Nat.leb_le; lia).
        replace (c + t <? c + S t) with true by (symmetry; apply Nat.ltb_lt; lia).
        reflexivity.
      + nat_cases.
    - reflexivity. }
  exists A'. split; [exact HA'|].
  apply (repM_ext N N A' _ _ Hend). intros i j Hi Hj.
  replace (j <? c + Z.to_nat (Z.of_nat N - Z.of_nat c)) with true
    by (symmetry; apply Nat.ltb_lt; lia).
  now rewrite andb_true_r.
Qed.

Lemma eliminate_below_spec N st M1 b1 c :
  repM N N (fst st) M1 -> repV N (snd st) b1 -> c < N ->
  exists st', eliminate_below (Z.of_nat N) (Z.of_nat c) st = Done st' /\
    repM N N (fst st') (fun i j =>
      if (c <? i) && M1 i c && (c <=? j) then xorb (M1 i j) (M1 c j) else M1 i j) /\
    repV N (snd st') (fun i =>
      if (c <? i) && M1 i c then xorb (b1 i) (b1 c) else b1 i).
Proof.
  intros HA Hb Hc. unfold eliminate_below.
  destruct (for_range_inv
    (fun t st =>
       repM N N (fst st) (fun i j =>
         if (c <? i) && (i <? c + 1 + t) && M1 i c && (c <=? j)
         then xorb (M1 i j) (M1 c j) else M1 i j) /\
       repV N (snd st) (fun i =>
         if (c <? i) && (i <? c + 1 + t) && M1 i c then xorb (b1 i) (b1 c) else b1 i))
    (Z.of_nat c + 1)%Z (Z.of_nat N)
    (fun row st =>
       v <- rd2 (fst st) row (Z.of_nat c);
       if v then
         A <- xor_row (Z.of_nat N) row (Z.of_nat c) (fst st);
         br <- rd (snd st) row; bc <- rd (snd st) (Z.of_nat c);
         b <- wr (snd st) row (xorb br bc);
         Done (A, b)
       else Done st) st) as (st' & Hst' & HendA & Hendb).
  { split.
    - apply (repM_ext N N _ _ _ HA). intros i j Hi Hj. nat_cases.
    - apply (repV_ext N _ _ _ Hb). intros i Hi. nat_cases. }
  { intros t (A & b) Ht (HA1 & Hb1). simpl in HA1, Hb1. cbn [fst snd].
    replace (Z.of_nat c + 1 + Z.of_nat t)%Z with (Z.of_nat (c + 1 + t)) by lia.
    set (r := c + 1 + t) in *.
    assert (Hr : r < N) by lia.
    rewrite (bind_done _ _ _ (rd2_repM N N A _ (Z.of_nat r) (Z.of_nat c) HA1 ltac:(lia) ltac:(lia))).
    rewrite !Nat2Z.id.
    replace (r <? r) with false by (symmetry; apply Nat.ltb_ge; lia).
    rewrite andb_false_r. simpl.
    destruct (M1 r c) eqn:Hv.
    - destruct (xor_row_spec N A _ r c HA1 Hr Hc ltac:(lia)) as (A' & Hx & HA').
      rewrite (bind_done _ _ _ Hx).
      rewrite (bind_done _ _ _ (rd_repV N b _ (Z.of_nat r) Hb1 ltac:(lia))).
      rewrite (bind_done _ _ _ (rd_repV N b _ (Z.of_nat c) Hb1 ltac:(lia))).
      rewrite !Nat2Z.id.
      destruct (wr_repV N b _ (Z.of_nat r)
        (xorb (if (c <? r) && (r <? r) && M1 r c then xorb (b1 r) (b1 c) else b1 r)
              (if (c <? c) && (c <? r) && M1 c c then xorb (b1 c) (b1 c) else b1 c))
        Hb1 ltac:(lia)) as (b' & Hwb & Hb').
      rewrite (bind_done _ _ _ Hwb).
      eexists. split; [reflexivity|]. simpl. rewrite !Nat2Z.id in Hb'. split.
      + apply (repM_ext N N A' _ _ HA'). intros i j Hi Hj.
        destruct (Nat.eqb_spec i r) as [->|Hir]; rewrite ?Hv; nat_cases.
      + apply (repV_ext N b' _ _ Hb'). intros i Hi.
        destruct (Nat.eqb_spec i r) as [->|Hir]; rewrite ?Hv; nat_cases.
    - eexists. split; [reflexivity|]. simpl. split.
      + apply (repM_ext N N A _ _ HA1). intros i j Hi Hj.
        destruct (Nat.eqb_spec i r) as [->|Hir]; rewrite ?Hv; nat_cases.
      + apply (repV_ext N b _ _ Hb1). intros i Hi.
        destruct (Nat.eqb_spec i r) as [->|Hir]; rewrite ?Hv; nat_cases. }
  exists st'. split; [exact Hst'|]. split.
  - apply (repM_ext N N _ _ _ HendA). intros i j Hi Hj.
    replace (i <? c + 1 + Z.to_nat (Z.of_nat N - (Z.of_nat c + 1))) with true
      by (symmetry; apply Nat.ltb_lt; lia).
    now rewrite andb_true_r.
  - apply (repV_ext N _ _ _ Hendb). intros i Hi.
    replace (i <? c + 1 + Z.to_nat (Z.of_nat N - (Z.of_nat c + 1))) with true
      by (symmetry; apply Nat.ltb_lt; lia).
    now rewrite andb_true_r.
Qed.

Lemma swap_spec N st M b c p :
  repM N N (fst st) M -> repV N (snd st) b -> c < N -> p < N ->
  exists st', swap_rows (Z.of_nat c) (Z.of_nat p) st = Done st' /\
    repM N N (fst st') (fun r => M (swp c p r)) /\
    repV N (snd st') (fun r => b (swp c p r)).
Proof.
  intros HA Hb Hc Hp. unfold swap_rows.
  destruct (swap_rows_spec N (fst st) M c p HA Hc Hp)
    as (rc & rp & A1 & A2 & Hrc & Hrp & Hw1 & Hw2 & HA2).
  rewrite (bind_done _ _ _ Hrc), (bind_done _ _ _ Hrp).
  rewrite (bind_done _ _ _ Hw1), (bind_done _ _ _ Hw2).
  destruct (swap_vec_spec N (snd st) b c p Hb Hc Hp)
    as (b1 & b2 & Hbc & Hbp & Hwb1 & Hwb2 & Hb2).
  rewrite (bind_done _ _ _ Hbc), (bind_done _ _ _ Hbp).
  rewrite (bind_done _ _ _ Hwb1), (bind_done _ _ _ Hwb2).
  eexists. split; [reflexivity|]. split; assumption.
Qed.

Lemma gauss_column_spec N st s c :
  rep_sys N st s -> c < N ->
  exists st', gauss_column (Z.of_nat N) (Z.of_nat c) st = Done st' /\
              rep_sys N st' (astep N c s).
Proof.
  intros (HA & Hb) Hc.
  unfold gauss_column.
  replace (Z.to_nat (Z.of_nat N - Z.of_nat c)) with (N - c) by lia.
  rewrite (bind_done _ _ _ (find_pivot_spec N (fst st) (sM s) c (N - c) c HA Hc eq_refl ltac:(lia))).
  fold (pivot N (sM s) c).
  pose proof (pivot_spec N (sM s) c ltac:(lia)) as Hps. simpl in Hps.
  unfold astep.
  set (p := pivot N (sM s) c) in *.
  destruct (Nat.eqb_spec p N) as [Hpn|Hpn].
  - replace (Z.of_nat p =? Z.of_nat N)%Z with true by (symmetry; apply Z.eqb_eq; lia).
    eexists. split; [reflexivity|]. split; assumption.
  - replace (Z.of_nat p =? Z.of_nat N)%Z with false by (symmetry; apply Z.eqb_neq; lia).
    assert (Hp : p < N) by lia.
    destruct (swap_spec N st (sM s) (sb s) c p HA Hb Hc Hp) as (st1 & Hsw & HA1 & Hb1).
    rewrite (bind_done _ _ _ Hsw).
    destruct (eliminate_below_spec N st1 _ _ c HA1 Hb1 Hc) as (st' & He & HA' & Hb').
    exists st'. split; [exact He|]. split; simpl.
    + apply (repM_ext N N _ _ _ HA'). intros i j Hi Hj.
      unfold hit. rewrite swp_c. reflexivity.
    + apply (repV_ext N _ _ _ Hb'). intros i Hi.
      unfold hit. rewrite swp_c. reflexivity.
Qed.

Lemma gauss_prefix_spec N st s k :
  rep_sys N st s -> k <= N ->
  exists st', for_range 0 (Z.of_nat k) (gauss_column (Z.of_nat N)) st = Done st' /\
              rep_sys N st' (aelim N k s).
Proof.
  intros Hst Hk.
  destruct (for_range_inv (fun t st => rep_sys N st (aelim N t s))
    0%Z (Z.of_nat k) (gauss_column (Z.of_nat N)) st) as (st' & Hst' & Hend).
  { exact Hst. }
  { intros t st1 Ht Hs1.
    replace (0 + Z.of_nat t)%Z with (Z.of_nat t) by lia.
    destruct (gauss_column_spec N st1 _ t Hs1 ltac:(lia)) as (st2 & Hg & Hs2).
    exists st2. split; [exact Hg|exact Hs2]. }
  exists st'. split; [exact Hst'|].
  replace (Z.to_nat (Z.of_nat k - 0)) with k in Hend by lia. exact Hend.
Qed.

Lemma gauss_spec N st s :
  rep_sys N st s ->
  exists st', gauss (Z.of_nat N) st = Done st' /\ rep_sys N st' (aelim N N s).
Proof.
  intros Hst. unfold gauss. now apply gauss_prefix_spec.
Qed.

Lemma to_int32_small z : (0 <= z < 2147483648)%Z -> to_int32 z = z.
Proof.
  intros H. unfold to_int32.
  replace (z <? 2147483648)%Z with true by (symmetry; apply Z.ltb_lt; lia). reflexivity.
Qed.

Section BackSub.
Variables (N : nat) (A : matrix) (bl : list bool) (M : mat) (b : vec).
Hypothesis HA : repM N N A M.
Hypothesis Hb : repV N bl b.
Hypothesis HN : (Z.of_nat N < 2147483648)%Z.

Lemma back_row_spec f xr x0 :
  f < N -> repV N xr x0 -> (forall k, k <= f -> x0 k = false) ->
  for_range (wrap32 (Z.of_nat f + 1)) (Z.of_nat N)
    (fun col sum => a <- rd2 A (Z.of_nat f) col; xc <- rd xr col; Done (xorb sum (a && xc)))
    (b f) = Done (xorb (b f) (dot N (M f) x0)).
Proof.
  intros Hf Hxr Hlow.
  rewrite wrap32_small by lia.
  destruct (for_range_inv
    (fun t sum => sum = xorb (b f) (dot (S f + t) (M f) x0))
    (Z.of_nat f + 1)%Z (Z.of_nat N)
    (fun col sum => a <- rd2 A (Z.of_nat f) col; xc <- rd xr col; Done (xorb sum (a && xc)))
    (b f)) as (sum & Hsum & Hend).
  { rewrite Nat.add_0_r. rewrite dot_zero; [now rewrite xorb_false_r|].
    intros j Hj. rewrite Hlow by lia. apply andb_false_r. }
  { intros t sum Ht ->.
    replace (Z.of_nat f + 1 + Z.of_nat t)%Z with (Z.of_nat (S f + t)) by lia.
    rewrite (bind_done _ _ _ (rd2_repM N N A M (Z.of_nat f) (Z.of_nat (S f + t)) HA
                                ltac:(lia) ltac:(lia))).
    rewrite (bind_done _ _ _ (rd_repV N xr x0 (Z.of_nat (S f + t)) Hxr ltac:(lia))).
    rewrite !Nat2Z.id. eexists. split; [reflexivity|].
    replace (S f + S t) with (S (S f + t)) by lia. simpl.
    now rewrite xorb_assoc. }
  rewrite Hsum, Hend. do 3 f_equal. lia.
Qed.

Lemma back_loop_spec fuel xr :
  fuel <= N -> repV N xr (backsub N M b (N - fuel)) ->
  exists xr', back_loop fuel (Z.of_nat fuel - 1) (Z.of_nat N) A bl xr = Done xr' /\
              repV N xr' (backsub N M b N).
Proof.
  revert xr. induction fuel as [|f IH]; intros xr Hf Hxr; simpl back_loop.
  - exists xr. split; [reflexivity|]. now rewrite Nat.sub_0_r in Hxr.
  - replace (Z.of_nat (S f) - 1)%Z with (Z.of_nat f) by lia.
    rewrite (bind_done _ _ _ (rd_repV N bl b (Z.of_nat f) Hb ltac:(lia))).
    rewrite Nat2Z.id.
    rewrite (bind_done _ _ _ (back_row_spec f xr _ ltac:(lia) Hxr
               ltac:(intros; apply backsub_low; lia))).
    destruct (wr_repV N xr _ (Z.of_nat f)
                (xorb (b f) (dot N (M f) (backsub N M b (N - S f)))) Hxr ltac:(lia))
      as (xr1 & Hw & Hxr1).
    rewrite (bind_done _ _ _ Hw).
    apply IH; [lia|].
    apply (repV_ext N xr1 _ _ Hxr1). intros k Hk. rewrite Nat2Z.id.
    replace (N - f) with (S (N - S f)) by lia. simpl.
    replace (N - S (N - S f)) with f by lia. reflexivity.
Qed.

Lemma back_substitute_spec :
  exists xr, back_substitute (Z.of_nat N) A bl = Done xr /\ repV N xr (backsub N M b N).
Proof.
  unfold back_substitute.
  destruct (Nat.eq_dec N 0) as [E0|Hpos].
  - assert (Hz : Z.of_nat N = 0%Z) by lia. rewrite Hz.
    change (Z.to_nat (to_int32 (wrap32 (0 - 1)) + 1)) with 0. simpl.
    eexists. split; [reflexivity|]. split; [simpl; lia|]. intros i Hi. lia.
  - rewrite wrap32_small by lia. rewrite to_int32_small by lia.
    replace (Z.to_nat (Z.of_nat N - 1 + 1)) with N by lia.
    rewrite Nat2Z.id.
    replace (Z.of_nat N - 1)%Z with (Z.of_nat N - 1)%Z by lia.
    apply back_loop_spec; [lia|].
    rewrite Nat.sub_diag. simpl. apply repV_replicate.
Qed.

End BackSub.

(* ---------- replaying the toggle set ---------- *)

Lemma z_div_nat k X : Z.to_nat (Z.of_nat k / Z.of_nat X) = k / X.
Proof. rewrite <- Nat2Z.inj_div. apply Nat2Z.id. Qed.

Lemma z_mod_nat k X : Z.to_nat (Z.of_nat k mod Z.of_nat X) = k mod X.
Proof. rewrite <- Nat2Z.inj_mod. apply Nat2Z.id. Qed.

Lemma replay_spec bx G Y X xr xv :
  wf_box bx G -> ySize bx = Z.of_nat Y -> xSize bx = Z.of_nat X ->
  repV (Y * X) xr xv ->
  exists bx', replay (Z.of_nat (Y * X)) (Z.of_nat X) xr bx = Done bx' /\
    same_shape bx bx' /\
    wf_box bx' (fun i j => xorb (G i j) (dot (Y * X) (cover X i j) xv)).
Proof.
  intros Hwf Hy Hx Hxr. unfold replay.
  destruct (for_range_inv
    (fun t bx' => same_shape bx bx' /\
       wf_box bx' (fun i j => xorb (G i j) (dot t (cover X i j) xv)))
    0%Z (Z.of_nat (Y * X))
    (fun i bx0 => v <- rd xr i;
       if v then r <- udiv i (Z.of_nat X); c <- urem i (Z.of_nat X); toggle bx0 r c
       else Done bx0) bx) as (bx' & Hr & Hend).
  { split; [repeat split|]. destruct Hwf as (H1 & H2 & H3).
    split; [exact H1|]. split; [exact H2|].
    apply (repM_ext _ _ _ _ _ H3). intros i j _ _. simpl. now rewrite xorb_false_r. }
  { intros t bx1 Ht ((Sy & Sx & Sr & Sd) & Hwf1).
    replace (0 + Z.of_nat t)%Z with (Z.of_nat t) by lia.
    assert (Htn : t < Y * X) by lia.
    assert (HX : 0 < X) by (destruct X; [rewrite Nat.mul_0_r in Htn; lia|lia]).
    rewrite (bind_done _ _ _ (rd_repV (Y * X) xr xv (Z.of_nat t) Hxr ltac:(lia))).
    rewrite Nat2Z.id. destruct (xv t) eqn:Hv.
    - unfold udiv, urem.
      replace (Z.of_nat X =? 0)%Z with false by (symmetry; apply Z.eqb_neq; lia).
      simpl bind.
      pose proof (div_lt_rows Y X t Htn) as Hdr.
      pose proof (Nat.mod_upper_bound t X ltac:(lia)) as Hmc.
      destruct (toggle_spec bx1 _ (Z.of_nat t / Z.of_nat X)%Z (Z.of_nat t mod Z.of_nat X)%Z Hwf1)
        as (bx2 & Ht2 & (Sy2 & Sx2 & Sr2 & Sd2) & Hwf2).
      { rewrite Sy, Hy, <- Nat2Z.inj_div. lia. }
      { rewrite Sx, Hx, <- Nat2Z.inj_mod. lia. }
      exists bx2. split; [exact Ht2|]. split; [repeat split; congruence|].
      destruct Hwf2 as (H1 & H2 & H3). split; [exact H1|]. split; [exact H2|].
      apply (repM_ext _ _ _ _ _ H3). intros i j _ _. simpl.
      rewrite z_div_nat, z_mod_nat. unfold cover at 2. rewrite Hv, andb_true_r.
      now rewrite xorb_assoc.
    - exists bx1. split; [reflexivity|]. split; [repeat split; assumption|].
      destruct Hwf1 as (H1 & H2 & H3). split; [exact H1|]. split; [exact H2|].
      apply (repM_ext _ _ _ _ _ H3). intros i j _ _. simpl.
      rewrite Hv, andb_false_r. now rewrite xorb_false_r. }
  exists bx'. split; [exact Hr|].
  replace (Z.to_nat (Z.of_nat (Y * X) - 0)) with (Y * X) in Hend by lia. exact Hend.
Qed.

Lemma cover_foot Y X i j k :
  i < Y -> j < X -> k < Y * X -> cover X i j k = foot X (i * X + j) k.
Proof.
  intros Hi Hj Hk. unfold cover, foot. rewrite lin_div, lin_mod by exact Hj.
  rewrite (Nat.eqb_sym i), (Nat.eqb_sym j).
  destruct (Nat.eqb_spec k (i * X + j)) as [->|Hne]; [|now rewrite orb_false_r].
  rewrite lin_div, lin_mod by exact Hj. now rewrite !Nat.eqb_refl.
Qed.

(* ---------- isLocked ---------- *)

Lemma scan_false fuel lo test :
  (forall k, k < fuel -> test (lo + Z.of_nat k)%Z = Done false) ->
  scan fuel lo test = Done false.
Proof.
  revert lo. induction fuel as [|fuel IH]; intros lo H; simpl; [reflexivity|].
  pose proof (H 0 ltac:(lia)) as H0. replace (lo + Z.of_nat 0)%Z with lo in H0 by lia.
  rewrite H0. simpl. apply IH. intros k Hk.
  replace (lo + 1 + Z.of_nat k)%Z with (lo + Z.of_nat (S k))%Z by lia. apply H. lia.
Qed.

Lemma isLocked_clear bx G :
  wf_box bx G ->
  (forall i j, i < Z.to_nat (ySize bx) -> j < Z.to_nat (xSize bx) -> G i j = false) ->
  isLocked bx = Done false.
Proof.
  intros (Hy & Hx & Hg) Hz. unfold isLocked.
  apply scan_false. intros j Hj. apply scan_false. intros i Hi.
  rewrite (rd2_repM _ _ _ _ (0 + Z.of_nat i)%Z (0 + Z.of_nat j)%Z Hg) by lia.
  f_equal. apply Hz; lia.
Qed.

(* a grid of Y rows and X columns whose state is a GF(2) combination of footprints *)

Lemma foot_sym X i j : foot X i j = foot X j i.
Proof.
  unfold foot. now rewrite (Nat.eqb_sym (j / X)), (Nat.eqb_sym (j mod X)), (Nat.eqb_sym j).
Qed.

Lemma foot_lin X r c idx :
  c < X -> foot X idx (r * X + c) = (idx / X =? r) || (idx mod X =? c).
Proof.
  intros Hc. unfold foot. rewrite lin_div, lin_mod by exact Hc.
  rewrite (Nat.eqb_sym r), (Nat.eqb_sym c).
  destruct (Nat.eqb_spec (r * X + c) idx) as [<-|Hne]; [|now rewrite orb_false_r].
  rewrite lin_div, lin_mod by exact Hc. now rewrite !Nat.eqb_refl.
Qed.

Lemma blank_good Y X gen k : good Y X (blank (Z.of_nat Y) (Z.of_nat X) gen k).
Proof.
  split; [reflexivity|]. split; [reflexivity|].
  exists (fun _ _ => false), (fun _ => false). split.
  - split; [simpl; lia|]. split; [simpl; lia|]. simpl. rewrite !Nat2Z.id.
    apply repM_replicate.
  - intros idx Hidx. unfold flat. symmetry. apply dot_zero. intros j _. apply andb_false_r.
Qed.

Lemma toggle_good Y X bx r c :
  good Y X bx -> (0 <= r < Z.of_nat Y)%Z -> (0 <= c < Z.of_nat X)%Z ->
  exists bx', toggle bx r c = Done bx' /\ good Y X bx' /\ same_shape bx bx'.
Proof.
  intros (Hy & Hx & G & sv & Hwf & Hcons) Hr Hc.
  destruct (toggle_spec bx G r c Hwf ltac:(lia) ltac:(lia)) as (bx' & Ht & Hsh & Hwf').
  exists bx'. split; [exact Ht|]. split; [|exact Hsh].
  destruct Hsh as (Sy & Sx & _ & _).
  split; [congruence|]. split; [congruence|].
  exists (fun i j => xorb (G i j) ((i =? Z.to_nat r) || (j =? Z.to_nat c))),
         (fun k => xorb (sv k) (true && idm (Z.to_nat r * X + Z.to_nat c) k)).
  split; [exact Hwf'|].
  intros idx Hidx. rewrite dot_xor_r. simpl.
  assert (Hlt : Z.to_nat r * X + Z.to_nat c < Y * X) by (apply lin_lt; lia).
  rewrite dot_idm by exact Hlt.
  rewrite foot_lin by lia. unfold flat at 1.
  change (G (idx / X) (idx mod X)) with (flat X G idx). now rewrite Hcons.
Qed.

Lemma toggles_good Y X ts : forall bx,
  good Y X bx ->
  Forall (in_range (Z.of_nat Y) (Z.of_nat X)) ts ->
  exists bx', toggles bx ts = Done bx' /\ good Y X bx'.
Proof.
  induction ts as [|(r, c) ts IH]; intros bx Hg Hts; simpl.
  - exists bx. auto.
  - inversion Hts as [|t ts' (Hr & Hc) Hrest]; subst. simpl in Hr, Hc.
    destruct (toggle_good Y X bx r c Hg Hr Hc) as (bx1 & Ht & Hg1 & _).
    rewrite (bind_done _ _ _ Ht). now apply IH.
Qed.

Lemma wrap64_range z : (0 <= wrap64 z < 18446744073709551616)%Z.
Proof. unfold wrap64. apply Z.mod_pos_bound. lia. Qed.

Lemma next_good Y X bx : good Y X bx -> good Y X (snd (next bx)).
Proof.
  intros (Hy & Hx & G & sv & (H1 & H2 & H3) & Hcons).
  split; [exact Hy|]. split; [exact Hx|]. exists G, sv. split; [|exact Hcons].
  split; [exact H1|]. split; [exact H2|exact H3].
Qed.

Lemma shuffle_loop_good Y X t : forall bx,
  0 < Y -> 0 < X -> good Y X bx ->
  exists bx', shuffle_loop t bx = Done bx' /\ good Y X bx'.
Proof.
  induction t as [|t IH]; intros bx HY HX Hg; cbn [shuffle_loop].
  - exists bx. auto.
  - destruct (next bx) as (a & bx1) eqn:E1.
    assert (Hg1 : good Y X bx1).
    { pose proof (next_good Y X bx Hg) as H. rewrite E1 in H. exact H. }
    destruct (next bx1) as (b & bx2) eqn:E2.
    assert (Hg2 : good Y X bx2).
    { pose proof (next_good Y X bx1 Hg1) as H. rewrite E2 in H. exact H. }
    assert (Ha : (0 <= a)%Z).
    { unfold next in E1. inversion E1. apply wrap64_range. }
    assert (Hb : (0 <= b)%Z).
    { unfold next in E2. inversion E2. apply wrap64_range. }
    destruct Hg2 as (Hy & Hx & Hrest).
    unfold urem. rewrite Hy, Hx.
    replace (Z.of_nat Y =? 0)%Z with false by (symmetry; apply Z.eqb_neq; lia).
    replace (Z.of_nat X =? 0)%Z with false by (symmetry; apply Z.eqb_neq; lia).
    simpl bind.
    destruct (toggle_good Y X bx2 (a mod Z.of_nat Y)%Z (b mod Z.of_nat X)%Z)
      as (bx3 & Ht & Hg3 & _).
    + split; [exact Hy|]. split; [exact Hx|exact Hrest].
    + apply Z.mod_pos_bound. lia.
    + apply Z.mod_pos_bound. lia.
    + rewrite (bind_done _ _ _ Ht). now apply IH.
Qed.

Lemma new_good Y X gen :
  0 < Y -> 0 < X ->
  exists bx, SecureBox_new (Z.of_nat Y) (Z.of_nat X) gen = Done bx /\ good Y X bx.
Proof.
  intros HY HX. unfold SecureBox_new, shuffle.
  destruct (next (blank (Z.of_nat Y) (Z.of_nat X) gen 0)) as (a & bx1) eqn:E1.
  assert (Hg : good Y X bx1).
  { pose proof (next_good Y X _ (blank_good Y X gen 0)) as H. rewrite E1 in H. exact H. }
  now apply shuffle_loop_good.
Qed.

(* ---------- the solver clears every good grid ---------- *)

Lemma solve_good Y X bx G sv :
  wf_box bx G -> ySize bx = Z.of_nat Y -> xSize bx = Z.of_nat X ->
  (forall idx, idx < Y * X -> flat X G idx = dot (Y * X) (foot X idx) sv) ->
  (Z.of_nat (Y * X) < 2147483648)%Z ->
  exists xr xv, solve bx (Z.of_nat Y) (Z.of_nat X) = Done xr /\
    repV (Y * X) xr xv /\ sat (Y * X) (foot X) (flat X G) xv.
Proof.
  intros (_ & _ & Hg) Hy Hx Hcons HN.
  rewrite Hy, Hx, !Nat2Z.id in Hg.
  unfold solve.
  destruct (build_spec bx G Y X Hg ltac:(lia)) as (A & b & Hb & HA & Hbv).
  rewrite (bind_done _ _ _ Hb).
  replace (wrap32 (Z.of_nat Y * Z.of_nat X)) with (Z.of_nat (Y * X))
    by (rewrite wrap32_small; lia).
  set (s0 := {| sM := foot X; sE := idm; sb := flat X G |}).
  destruct (gauss_spec (Y * X) (A, b) s0) as ((A' & b') & Hgs & HA' & Hb').
  { split; assumption. }
  rewrite (bind_done _ _ _ Hgs). simpl in HA', Hb'.
  destruct (back_substitute_spec (Y * X) A' b' _ _ HA' Hb' HN) as (xr & Hbs & Hxr).
  exists xr, (backsub (Y * X) (sM (aelim (Y * X) (Y * X) s0)) (sb (aelim (Y * X) (Y * X) s0)) (Y * X)).
  split; [exact Hbs|]. split; [exact Hxr|].
  apply (gauss_sym_correct (Y * X) (foot X) (flat X G) sv).
  - intros i j _ _. apply foot_sym.
  - exact Hcons.
Qed.

Lemma unlock_good Y X bx :
  good Y X bx -> (Z.of_nat (Y * X) < 2147483648)%Z ->
  exists xr bx',
    solve bx (Z.of_nat Y) (Z.of_nat X) = Done xr /\
    replay (wrap32 (Z.of_nat Y * Z.of_nat X)) (Z.of_nat X) xr bx = Done bx' /\
    all_false (box bx') /\
    isLocked bx' = Done false.
Proof.
  intros (Hy & Hx & G & sv & Hwf & Hcons) HN.
  destruct (solve_good Y X bx G sv Hwf Hy Hx Hcons HN) as (xr & xv & Hs & Hxr & Hsat).
  replace (wrap32 (Z.of_nat Y * Z.of_nat X)) with (Z.of_nat (Y * X))
    by (rewrite wrap32_small; lia).
  destruct (replay_spec bx G Y X xr xv Hwf Hy Hx Hxr) as (bx' & Hr & (Sy & Sx & _ & _) & Hwf').
  exists xr, bx'. split; [exact Hs|]. split; [exact Hr|].
  assert (Hclear : forall i j, i < Y -> j < X ->
            xorb (G i j) (dot (Y * X) (cover X i j) xv) = false).
  { intros i j Hi Hj.
    rewrite (dot_ext (Y * X) (cover X i j) (foot X (i * X + j)) xv xv);
      [|intros k Hk; now apply (cover_foot Y)|reflexivity].
    rewrite (Hsat (i * X + j) (lin_lt Y X i j Hi Hj)).
    unfold flat. rewrite lin_div, lin_mod by exact Hj. apply xorb_nilpotent. }
  split.
  - destruct Hwf' as (_ & _ & (Hlen & Hrows)).
    rewrite ?Sy, ?Sx, ?Hy, ?Hx, ?Nat2Z.id in Hlen, Hrows.
    intros row Hrow v Hv.
    apply list_elem_of_In in Hrow. apply list_elem_of_lookup in Hrow. destruct Hrow as (i & Hi).
    apply list_elem_of_In in Hv. apply list_elem_of_lookup in Hv. destruct Hv as (j & Hj).
    pose proof (lookup_lt_Some _ _ _ Hi) as Hil. rewrite Hlen in Hil.
    destruct (Hrows i Hil) as (r & Hr' & (Hrl & Hrv)).
    rewrite Hi in Hr'. inversion Hr'; subst r.
    pose proof (lookup_lt_Some _ _ _ Hj) as Hjl. rewrite Hrl in Hjl.
    rewrite (Hrv j Hjl) in Hj. inversion Hj.
    apply Hclear; [exact Hil|]. rewrite Sx, Hx, Nat2Z.id in Hjl. exact Hjl.
  - apply (isLocked_clear bx' _ Hwf'). intros i j Hi Hj.
    apply Hclear; rewrite ?Sy, ?Sx, ?Hy, ?Hx in *; lia.
Qed.

Lemma openBox_from_good Y X bx :
  good Y X bx -> (Z.of_nat (Y * X) < 2147483648)%Z ->
  openBox_from bx (Z.of_nat Y) (Z.of_nat X) = Done false.
Proof.
  intros Hg HN. destruct (unlock_good Y X bx Hg HN) as (xr & bx' & Hs & Hr & _ & Hl).
  unfold openBox_from, unlock. rewrite (bind_done _ _ _ Hs). rewrite (bind_done _ _ _ Hr).
  exact Hl.
Qed.

(* ===================================================================== *)
(** * Part VI: the class invariant and canonical representatives          *)
(* ===================================================================== *)

Lemma repV_nthb b : repV (length b) b (nthb b).
Proof.
  split; [reflexivity|]. intros i Hi. unfold nthb.
  destruct (lookup_lt_is_Some_2 b i Hi) as (v & Hv). now rewrite Hv.
Qed.

Lemma repM_ent R C g :
  length g = R -> Forall (fun r => length r = C) g -> repM R C g (ent g).
Proof.
  intros Hl Hrows. split; [exact Hl|]. intros i Hi.
  destruct (lookup_lt_is_Some_2 g i ltac:(lia)) as (r & Hr).
  exists r. split; [exact Hr|].
  rewrite Forall_forall in Hrows.
  assert (Hlen : length r = C).
  { apply Hrows. apply (list_elem_of_lookup_2 g i r Hr). }
  split; [exact Hlen|]. intros j Hj. unfold ent. rewrite Hr.
  destruct (lookup_lt_is_Some_2 r j ltac:(lia)) as (v & Hv). now rewrite Hv.
Qed.

Lemma repM_rows R C A M r row : repM R C A M -> A !! r = Some row -> length row = C.
Proof.
  intros (Hl & H) Hr. pose proof (lookup_lt_Some _ _ _ Hr) as Hlt. rewrite Hl in Hlt.
  destruct (H r Hlt) as (row' & Hr' & (Hlen & _)). congruence.
Qed.

Lemma repM_inj R C A A' M M' :
  repM R C A M -> repM R C A' M' ->
  (forall i j, i < R -> j < C -> M i j = M' i j) -> A = A'.
Proof.
  intros (Hl & H) (Hl' & H') He. apply list_eq. intros i.
  destruct (Nat.lt_ge_cases i R) as [Hi|Hi].
  - destruct (H i Hi) as (r & Hr & Hv). destruct (H' i Hi) as (r' & Hr' & Hv').
    rewrite Hr, Hr'. f_equal. apply (repV_inj C r r' (M i)); [exact Hv|].
    apply (repV_ext C r' (M' i)); [exact Hv'|]. intros j Hj. symmetry. now apply He.
  - rewrite !lookup_ge_None_2 by lia. reflexivity.
Qed.

Lemma well_formed_wf bx : well_formed bx -> wf_box bx (ent (box bx)).
Proof.
  intros (Hy & Hx & Hl & Hrows). split; [exact Hy|]. split; [exact Hx|].
  now apply repM_ent.
Qed.

Lemma wf_well_formed bx G : wf_box bx G -> well_formed bx.
Proof.
  intros (Hy & Hx & HG). split; [exact Hy|]. split; [exact Hx|].
  split; [apply HG|]. rewrite Forall_forall. intros r Hr.
  apply list_elem_of_lookup in Hr. destruct Hr as (i & Hi).
  apply (repM_rows _ _ _ _ _ _ HG Hi).
Qed.

Lemma blank_well_formed y x gen k :
  (0 <= y)%Z -> (0 <= x)%Z -> well_formed (blank y x gen k).
Proof.
  intros Hy Hx. split; [exact Hy|]. split; [exact Hx|]. simpl. split.
  - apply length_replicate.
  - rewrite Forall_forall. intros r Hr.
    apply elem_of_replicate in Hr. destruct Hr as (-> & _). apply length_replicate.
Qed.

(* ===================================================================== *)
(** * Part VII: the claims                                                *)
(* ===================================================================== *)

(** C9.  Idempotent pair: on a box that satisfies the class invariant,
    two successive calls of [toggle] at the same in-range position
    succeed and give back exactly the box one started from. *)
Theorem toggle_twice bx y x :
  well_formed bx -> (0 <= y < ySize bx)%Z -> (0 <= x < xSize bx)%Z ->
  exists bx1, toggle bx y x = Done bx1 /\ toggle bx1 y x = Done bx.
Proof.
  intros Hwf Hy Hx. pose proof (well_formed_wf bx Hwf) as HG.
  destruct (toggle_spec bx _ y x HG Hy Hx) as (bx1 & Ht1 & (Sy & Sx & Sr & Sd) & HG1).
  destruct (toggle_spec bx1 _ y x HG1 ltac:(lia) ltac:(lia))
    as (bx2 & Ht2 & (Sy2 & Sx2 & Sr2 & Sd2) & HG2).
  exists bx1. split; [exact Ht1|]. rewrite Ht2. f_equal.
  assert (Hbox : box bx2 = box bx).
  { destruct HG as (_ & _ & HM). destruct HG2 as (_ & _ & HM2).
    rewrite Sy2, Sx2, Sy, Sx in HM2.
    apply (repM_inj _ _ _ _ _ _ HM2 HM). intros i j _ _.
    now destruct (ent (box bx) i j), ((i =? Z.to_nat y) || (j =? Z.to_nat x)). }
  destruct bx, bx2. simpl in *. congruence.
Qed.

Lemma toggle_twice_witness :
  well_formed (blank 2 3 (fun _ => 0%Z) 0) /\
  (0 <= 1 < 2)%Z /\ (0 <= 2 < 3)%Z /\
  exists bx1, toggle (blank 2 3 (fun _ => 0%Z) 0) 1 2 = Done bx1 /\
              toggle bx1 1 2 = Done (blank 2 3 (fun _ => 0%Z) 0).
Proof.
  assert (Hwf : well_formed (blank 2 3 (fun _ => 0%Z) 0)) by (apply blank_well_formed; lia).
  split; [exact Hwf|]. split; [lia|]. split; [lia|].
  apply (toggle_twice (blank 2 3 (fun _ => 0%Z) 0) 1 2 Hwf); simpl; lia.
Defined.

(** ** The system that [openBox] builds *)

Lemma build_box bx y x :
  well_formed bx -> ySize bx = y -> xSize bx = x -> (y * x < 4294967296)%Z ->
  exists A b, build bx y x = Done (A, b) /\
    repM (Z.to_nat y * Z.to_nat x) (Z.to_nat y * Z.to_nat x) A (foot (Z.to_nat x)) /\
    repV (Z.to_nat y * Z.to_nat x) b (flat (Z.to_nat x) (ent (box bx))).
Proof.
  intros Hwf Hy Hx HN. pose proof Hwf as (Hy0 & Hx0 & _).
  destruct (well_formed_wf bx Hwf) as (_ & _ & HG).
  rewrite Hy, Hx in HG. rewrite Hy in Hy0. rewrite Hx in Hx0.
  assert (HN' : (Z.of_nat (Z.to_nat y * Z.to_nat x) < 4294967296)%Z) by lia.
  destruct (build_spec bx _ _ _ HG HN') as (A & b & Hb & HA & Hbv).
  rewrite !Z2Nat.id in Hb by lia. exists A, b. auto.
Qed.

Lemma lin_to_nat row col x :
  (0 <= row)%Z -> (0 <= col)%Z -> (0 <= x)%Z ->
  Z.to_nat (row * x + col) = Z.to_nat row * Z.to_nat x + Z.to_nat col.
Proof.
  intros Hr Hc Hx. rewrite Z2Nat.inj_add by nia. now rewrite Z2Nat.inj_mul by lia.
Qed.

Lemma eqb_to_nat a b :
  (0 <= a)%Z -> (0 <= b)%Z -> (Z.to_nat a =? Z.to_nat b) = (a =? b)%Z.
Proof.
  intros Ha Hb. destruct (Nat.eqb_spec (Z.to_nat a) (Z.to_nat b)) as [E|E];
    destruct (Z.eqb_spec a b) as [E'|E']; try reflexivity; lia.
Qed.

Lemma lin_range y x row col :
  (0 <= row < y)%Z -> (0 <= col < x)%Z -> (0 <= row * x + col < y * x)%Z.
Proof. intros Hr Hc. nia. Qed.

(** C5.  On a box that satisfies the class invariant and whose cell
    count is representable, the construction loop completes; at every
    linear index [i = row * x + col] the right-hand side holds the cell
    [(row, col)] of the grid, and [A[i][j]] is true exactly when [j] is
    in the row of [i], or in its column, or is [i].  The construction
    only reads the grid through [getState]: it returns [A] and [b], and
    the box it was given is the one replayed afterwards. *)
Theorem build_system bx y x :
  well_formed bx -> ySize bx = y -> xSize bx = x -> (y * x < 4294967296)%Z ->
  exists A b, build bx y x = Done (A, b) /\
    forall row col, (0 <= row < y)%Z -> (0 <= col < x)%Z ->
      (exists v, rd2 (getState bx) row col = Done v /\ rd b (row * x + col) = Done v) /\
      forall j, (0 <= j < y * x)%Z ->
        rd2 A (row * x + col) j =
        Done ((j / x =? row)%Z || (j mod x =? col)%Z || (j =? row * x + col)%Z).
Proof.
  intros Hwf Hy Hx HN.
  destruct (build_box bx y x Hwf Hy Hx HN) as (A & b & Hb & HA & Hbv).
  exists A, b. split; [exact Hb|]. intros row col Hr Hc.
  pose proof (lin_range y x row col Hr Hc) as Hi.
  destruct (well_formed_wf bx Hwf) as (_ & _ & HG). rewrite Hy, Hx in HG.
  assert (Hlin : Z.to_nat (row * x + col) = Z.to_nat row * Z.to_nat x + Z.to_nat col)
    by (apply lin_to_nat; lia).
  assert (HcX : Z.to_nat col < Z.to_nat x) by lia.
  split.
  - exists (ent (box bx) (Z.to_nat row) (Z.to_nat col)). split.
    + unfold getState. apply (rd2_repM _ _ _ _ row col HG); lia.
    + rewrite (rd_repV _ b _ (row * x + col) Hbv) by lia.
      unfold flat. rewrite Hlin, lin_div, lin_mod by exact HcX. reflexivity.
  - intros j Hj. rewrite (rd2_repM _ _ A _ (row * x + col) j HA) by lia.
    f_equal. unfold foot. rewrite Hlin, lin_div, lin_mod by exact HcX.
    rewrite <- Hlin.
    rewrite <- (Z2Nat.inj_div j x), <- (Z2Nat.inj_mod j x) by lia.
    rewrite !eqb_to_nat; try lia; try reflexivity.
    + apply Z.mod_pos_bound. lia.
    + apply Z.div_pos; lia.
Qed.

Lemma build_system_witness :
  well_formed (blank 2 2 (fun _ => 0%Z) 0) /\
  ySize (blank 2 2 (fun _ => 0%Z) 0) = 2%Z /\
  xSize (blank 2 2 (fun _ => 0%Z) 0) = 2%Z /\ (2 * 2 < 4294967296)%Z /\
  exists A b, build (blank 2 2 (fun _ => 0%Z) 0) 2 2 = Done (A, b) /\
    forall row col, (0 <= row < 2)%Z -> (0 <= col < 2)%Z ->
      (exists v, rd2 (getState (blank 2 2 (fun _ => 0%Z) 0)) row col = Done v /\
                 rd b (row * 2 + col) = Done v) /\
      forall j, (0 <= j < 2 * 2)%Z ->
        rd2 A (row * 2 + col) j =
        Done ((j / 2 =? row)%Z || (j mod 2 =? col)%Z || (j =? row * 2 + col)%Z).
Proof.
  assert (Hwf : well_formed (blank 2 2 (fun _ => 0%Z) 0)) by (apply blank_well_formed; lia).
  split; [exact Hwf|]. split; [reflexivity|]. split; [reflexivity|]. split; [lia|].
  apply (build_system (blank 2 2 (fun _ => 0%Z) 0) 2 2 Hwf); [reflexivity|reflexivity|lia].
Defined.

(** C10.  The matrix built by [openBox] is symmetric, and it is the same
    matrix whatever the state of the grid. *)
Theorem footprint_symmetric bx y x :
  well_formed bx -> ySize bx = y -> xSize bx = x -> (y * x < 4294967296)%Z ->
  exists A b, build bx y x = Done (A, b) /\
    (forall i j, (0 <= i < y * x)%Z -> (0 <= j < y * x)%Z ->
       exists v, rd2 A i j = Done v /\ rd2 A j i = Done v) /\
    (forall bx', well_formed bx' -> ySize bx' = y -> xSize bx' = x ->
       exists b', build bx' y x = Done (A, b')).
Proof.
  intros Hwf Hy Hx HN.
  destruct (build_box bx y x Hwf Hy Hx HN) as (A & b & Hb & HA & Hbv).
  pose proof Hwf as (Hy0 & Hx0 & _). rewrite Hy in Hy0. rewrite Hx in Hx0.
  exists A, b. split; [exact Hb|]. split.
  - intros i j Hi Hj. exists (foot (Z.to_nat x) (Z.to_nat i) (Z.to_nat j)). split.
    + apply (rd2_repM _ _ A _ i j HA); lia.
    + rewrite foot_sym. apply (rd2_repM _ _ A _ j i HA); lia.
  - intros bx' Hwf' Hy' Hx'.
    destruct (build_box bx' y x Hwf' Hy' Hx' HN) as (A' & b' & Hb' & HA' & _).
    exists b'. rewrite Hb'. do 2 f_equal.
    apply (repM_inj _ _ _ _ _ _ HA' HA). reflexivity.
Qed.

Lemma footprint_symmetric_witness :
  well_formed (blank 2 3 (fun _ => 0%Z) 0) /\
  ySize (blank 2 3 (fun _ => 0%Z) 0) = 2%Z /\
  xSize (blank 2 3 (fun _ => 0%Z) 0) = 3%Z /\ (2 * 3 < 4294967296)%Z /\
  exists A b, build (blank 2 3 (fun _ => 0%Z) 0) 2 3 = Done (A, b) /\
    (forall i j, (0 <= i < 2 * 3)%Z -> (0 <= j < 2 * 3)%Z ->
       exists v, rd2 A i j = Done v /\ rd2 A j i = Done v) /\
    (forall bx', well_formed bx' -> ySize bx' = 2%Z -> xSize bx' = 3%Z ->
       exists b', build bx' 2 3 = Done (A, b')).
Proof.
  assert (Hwf : well_formed (blank 2 3 (fun _ => 0%Z) 0)) by (apply blank_well_formed; lia).
  split; [exact Hwf|]. split; [reflexivity|]. split; [reflexivity|]. split; [lia|].
  apply (footprint_symmetric (blank 2 3 (fun _ => 0%Z) 0) 2 3 Hwf);
    [reflexivity|reflexivity|lia].
Defined.

(** ** Forward elimination *)

Lemma rep_sys_lists N A b :
  length A = N -> Forall (fun r => length r = N) A -> length b = N ->
  rep_sys N (A, b) {| sM := ent A; sE := idm; sb := nthb b |}.
Proof.
  intros HA Hrows Hb. split; simpl.
  - now apply repM_ent.
  - rewrite <- Hb. apply repV_nthb.
Qed.

Lemma swap_rows_lists (A : matrix) (b : list bool) c p rc rp vc vp :
  A !! c = Some rc -> A !! p = Some rp -> b !! c = Some vc -> b !! p = Some vp ->
  swap_rows (Z.of_nat c) (Z.of_nat p) (A, b) =
  Done (<[p := rc]> (<[c := rp]> A), <[p := vc]> (<[c := vp]> b)).
Proof.
  intros HAc HAp Hbc Hbp.
  pose proof (lookup_lt_Some _ _ _ HAc) as Lc. pose proof (lookup_lt_Some _ _ _ HAp) as Lp.
  pose proof (lookup_lt_Some _ _ _ Hbc) as Kc. pose proof (lookup_lt_Some _ _ _ Hbp) as Kp.
  unfold swap_rows, rd, wr. cbn [fst snd].
  replace (Z.of_nat c <? 0)%Z with false by (symmetry; apply Z.ltb_ge; lia).
  replace (Z.of_nat p <? 0)%Z with false by (symmetry; apply Z.ltb_ge; lia).
  rewrite !Nat2Z.id, HAc, HAp, Hbc, Hbp. cbn [bind].
  replace (0 <=? Z.of_nat c)%Z with true by (symmetry; apply Z.leb_le; lia).
  replace (Z.of_nat c <? Z.of_nat (length A))%Z with true by (symmetry; apply Z.ltb_lt; lia).
  cbn [andb bind]. rewrite length_insert.
  replace (0 <=? Z.of_nat p)%Z with true by (symmetry; apply Z.leb_le; lia).
  replace (Z.of_nat p <? Z.of_nat (length A))%Z with true by (symmetry; apply Z.ltb_lt; lia).
  cbn [andb bind].
  replace (Z.of_nat c <? Z.of_nat (length b))%Z with true by (symmetry; apply Z.ltb_lt; lia).
  cbn [andb bind]. rewrite length_insert.
  replace (Z.of_nat p <? Z.of_nat (length b))%Z with true by (symmetry; apply Z.ltb_lt; lia).
  reflexivity.
Qed.

Lemma swapped_lookup {T : Type} (l : list T) c p (vc vp : T) :
  l !! c = Some vc -> l !! p = Some vp ->
  <[p := vc]> (<[c := vp]> l) !! c = l !! p /\
  <[p := vc]> (<[c := vp]> l) !! p = l !! c /\
  forall r, r <> c -> r <> p -> <[p := vc]> (<[c := vp]> l) !! r = l !! r.
Proof.
  intros Hc Hp.
  pose proof (lookup_lt_Some _ _ _ Hc) as Lc. pose proof (lookup_lt_Some _ _ _ Hp) as Lp.
  repeat split.
  - destruct (Nat.eq_dec p c) as [->|Hne].
    + rewrite list_lookup_insert_eq by (rewrite length_insert; lia). congruence.
    + rewrite list_lookup_insert_ne by exact Hne.
      rewrite list_lookup_insert_eq by lia. congruence.
  - rewrite list_lookup_insert_eq by (rewrite length_insert; lia). congruence.
  - intros r Hrc Hrp. rewrite !list_lookup_insert_ne by congruence. reflexivity.
Qed.

(** C6.  In an iteration [c] of the column loop, on any square system:
    the search returns the smallest row index [p >= c] whose entry in
    column [c] is true, or [n] when there is none; when there is one, rows
    [c] and [p] of [A] change places and so do [b[c]] and [b[p]], every
    other row and entry staying where it is, and the iteration goes on
    from that swapped system; when there is none the iteration leaves
    the system as it is. *)
Theorem pivot_and_swap N A b c :
  length A = N -> Forall (fun r => length r = N) A -> length b = N -> c < N ->
  exists p,
    find_pivot (Z.to_nat (Z.of_nat N - Z.of_nat c)) A (Z.of_nat N) (Z.of_nat c) (Z.of_nat c)
      = Done (Z.of_nat p) /\
    c <= p <= N /\
    (forall r, c <= r < p -> rd2 A (Z.of_nat r) (Z.of_nat c) = Done false) /\
    (p < N ->
       rd2 A (Z.of_nat p) (Z.of_nat c) = Done true /\
       exists A' b',
         swap_rows (Z.of_nat c) (Z.of_nat p) (A, b) = Done (A', b') /\
         A' !! c = A !! p /\ A' !! p = A !! c /\
         b' !! c = b !! p /\ b' !! p = b !! c /\
         (forall r, r <> c -> r <> p -> A' !! r = A !! r /\ b' !! r = b !! r) /\
         gauss_column (Z.of_nat N) (Z.of_nat c) (A, b) =
         eliminate_below (Z.of_nat N) (Z.of_nat c) (A', b')) /\
    (p = N -> gauss_column (Z.of_nat N) (Z.of_nat c) (A, b) = Done (A, b)).
Proof.
  intros HA Hrows Hb Hc.
  pose proof (repM_ent N N A HA Hrows) as HM.
  pose proof (pivot_spec N (ent A) c ltac:(lia)) as Hps. simpl in Hps.
  set (p := pivot N (ent A) c) in *. destruct Hps as (Hrange & Htrue & Hfirst).
  assert (Hfind : find_pivot (Z.to_nat (Z.of_nat N - Z.of_nat c)) A (Z.of_nat N)
                    (Z.of_nat c) (Z.of_nat c) = Done (Z.of_nat p)).
  { replace (Z.to_nat (Z.of_nat N - Z.of_nat c)) with (N - c) by lia.
    apply (find_pivot_spec N A (ent A) c (N - c) c HM Hc eq_refl). lia. }
  exists p. split; [exact Hfind|]. split; [exact Hrange|]. split; [|split].
  - intros r Hr. rewrite (rd2_repM N N A _ _ _ HM) by lia.
    rewrite !Nat2Z.id. f_equal. now apply Hfirst.
  - intros Hp. split.
    + rewrite (rd2_repM N N A _ _ _ HM) by lia. rewrite !Nat2Z.id. f_equal. now apply Htrue.
    + destruct (lookup_lt_is_Some_2 A c ltac:(lia)) as (rc & HAc).
      destruct (lookup_lt_is_Some_2 A p ltac:(lia)) as (rp & HAp).
      destruct (lookup_lt_is_Some_2 b c ltac:(lia)) as (vc & Hbc).
      destruct (lookup_lt_is_Some_2 b p ltac:(lia)) as (vp & Hbp).
      pose proof (swap_rows_lists A b c p rc rp vc vp HAc HAp Hbc Hbp) as Hsw.
      destruct (swapped_lookup A c p rc rp HAc HAp) as (A1 & A2 & A3).
      destruct (swapped_lookup b c p vc vp Hbc Hbp) as (B1 & B2 & B3).
      eexists. eexists. split; [exact Hsw|].
      split; [exact A1|]. split; [exact A2|]. split; [exact B1|]. split; [exact B2|].
      split; [intros r Hrc Hrp; split; [now apply A3|now apply B3]|].
      unfold gauss_column. cbn [fst]. rewrite Hfind. cbn [bind].
      replace (Z.of_nat p =? Z.of_nat N)%Z with false by (symmetry; apply Z.eqb_neq; lia).
      rewrite Hsw. reflexivity.
  - intros Hp. unfold gauss_column. cbn [fst]. rewrite Hfind. cbn [bind].
    replace (Z.of_nat p =? Z.of_nat N)%Z with true by (symmetry; apply Z.eqb_eq; lia).
    reflexivity.
Qed.

Lemma pivot_and_swap_witness :
  length [[false; true]; [true; true]] = 2 /\
  Forall (fun r : list bool => length r = 2) [[false; true]; [true; true]] /\
  length [true; false] = 2 /\ 0 < 2 /\
  exists p,
    find_pivot (Z.to_nat (Z.of_nat 2 - Z.of_nat 0)) [[false; true]; [true; true]]
      (Z.of_nat 2) (Z.of_nat 0) (Z.of_nat 0) = Done (Z.of_nat p) /\
    0 <= p <= 2 /\
    (forall r, 0 <= r < p ->
       rd2 [[false; true]; [true; true]] (Z.of_nat r) (Z.of_nat 0) = Done false) /\
    (p < 2 ->
       rd2 [[false; true]; [true; true]] (Z.of_nat p) (Z.of_nat 0) = Done true /\
       exists A' b',
         swap_rows (Z.of_nat 0) (Z.of_nat p) ([[false; true]; [true; true]], [true; false])
           = Done (A', b') /\
         A' !! 0 = [[false; true]; [true; true]] !! p /\
         A' !! p = [[false; true]; [true; true]] !! 0 /\
         b' !! 0 = [true; false] !! p /\ b' !! p = [true; false] !! 0 /\
         (forall r, r <> 0 -> r <> p ->
            A' !! r = [[false; true]; [true; true]] !! r /\ b' !! r = [true; false] !! r) /\
         gauss_column (Z.of_nat 2) (Z.of_nat 0) ([[false; true]; [true; true]], [true; false]) =
         eliminate_below (Z.of_nat 2) (Z.of_nat 0) (A', b')) /\
    (p = 2 ->
       gauss_column (Z.of_nat 2) (Z.of_nat 0) ([[false; true]; [true; true]], [true; false])
       = Done ([[false; true]; [true; true]], [true; false])).
Proof.
  split; [reflexivity|]. split; [repeat constructor|]. split; [reflexivity|]. split; [lia|].
  apply (pivot_and_swap 2 [[false; true]; [true; true]] [true; false] 0);
    [reflexivity|repeat constructor|reflexivity|lia].
Defined.

(** C7.  Once the column loop has processed columns [0 .. c] of a square
    system, every row below row [c] is false in every column up to [c].
    (The claim allows an exception for columns that found no pivot; none
    is needed: such a column is false below the diagonal as well.) *)
Theorem below_pivot_cleared N A b c :
  length A = N -> Forall (fun r => length r = N) A -> length b = N -> c < N ->
  exists A' b',
    for_range 0 (Z.of_nat c + 1) (gauss_column (Z.of_nat N)) (A, b) = Done (A', b') /\
    forall r j, c < r < N -> j <= c -> rd2 A' (Z.of_nat r) (Z.of_nat j) = Done false.
Proof.
  intros HA Hrows Hb Hc.
  pose proof (rep_sys_lists N A b HA Hrows Hb) as Hrep.
  destruct (gauss_prefix_spec N (A, b) _ (S c) Hrep ltac:(lia)) as ((A' & b') & Hg & HA' & _).
  simpl in HA'.
  replace (Z.of_nat (S c)) with (Z.of_nat c + 1)%Z in Hg by lia.
  exists A', b'. split; [exact Hg|]. intros r j Hr Hj.
  rewrite (rd2_repM N N A' _ _ _ HA') by lia. rewrite !Nat2Z.id. f_equal.
  apply (aelim_upper N _ (S c) ltac:(lia)); lia.
Qed.

Lemma below_pivot_cleared_witness :
  length [[false; true]; [true; true]] = 2 /\
  Forall (fun r : list bool => length r = 2) [[false; true]; [true; true]] /\
  length [true; false] = 2 /\ 0 < 2 /\
  exists A' b',
    for_range 0 (Z.of_nat 0 + 1) (gauss_column (Z.of_nat 2))
      ([[false; true]; [true; true]], [true; false]) = Done (A', b') /\
    forall r j, 0 < r < 2 -> j <= 0 -> rd2 A' (Z.of_nat r) (Z.of_nat j) = Done false.
Proof.
  split; [reflexivity|]. split; [repeat constructor|]. split; [reflexivity|]. split; [lia|].
  apply (below_pivot_cleared 2 [[false; true]; [true; true]] [true; false] 0);
    [reflexivity|repeat constructor|reflexivity|lia].
Defined.

(** ** Linearity in the right-hand side *)

Lemma find_first_ext fuel p f g :
  (forall r, f r = g r) -> find_first fuel p f = find_first fuel p g.
Proof.
  intros H. revert p. induction fuel as [|k IH]; intros p; simpl; [reflexivity|].
  rewrite H. destruct (g p); [reflexivity|apply IH].
Qed.

Lemma pivot_ext n M M' c : (forall r j, M r j = M' r j) -> pivot n M c = pivot n M' c.
Proof. intros H. unfold pivot. apply find_first_ext. intros r. apply H. Qed.

Lemma astep_sM_ext n c s s' :
  (forall r j, sM s r j = sM s' r j) ->
  forall r j, sM (astep n c s) r j = sM (astep n c s') r j.
Proof.
  intros H r j. unfold astep. rewrite (pivot_ext n (sM s) (sM s') c H).
  destruct (pivot n (sM s') c =? n); [apply H|]. simpl.
  unfold hit. rewrite !H. reflexivity.
Qed.

Lemma astep_lin n c s1 s2 s3 :
  lin3 s1 s2 s3 -> lin3 (astep n c s1) (astep n c s2) (astep n c s3).
Proof.
  intros (H1 & H2 & H3). split; [now apply astep_sM_ext|]. split; [now apply astep_sM_ext|].
  intros r. unfold astep.
  rewrite (pivot_ext n (sM s1) (sM s3) c H1), (pivot_ext n (sM s2) (sM s3) c H2).
  destruct (pivot n (sM s3) c =? n); [apply H3|]. simpl.
  unfold hit. rewrite !H1, !H2, !H3.
  destruct ((c <? r) && sM s3 (swp c (pivot n (sM s3) c) r) c); [|reflexivity].
  destruct (sb s1 (swp c (pivot n (sM s3) c) r)), (sb s2 (swp c (pivot n (sM s3) c) r)),
    (sb s1 (pivot n (sM s3) c)), (sb s2 (pivot n (sM s3) c)); reflexivity.
Qed.

Lemma aelim_lin n k s1 s2 s3 :
  lin3 s1 s2 s3 -> lin3 (aelim n k s1) (aelim n k s2) (aelim n k s3).
Proof.
  intros H. induction k as [|k IH]; simpl; [exact H|]. now apply astep_lin.
Qed.

Lemma dot_add_r n u v w :
  dot n u (fun k => xorb (v k) (w k)) = xorb (dot n u v) (dot n u w).
Proof.
  induction n as [|n IH]; simpl; [reflexivity|]. rewrite IH.
  destruct (dot n u v), (dot n u w), (u n), (v n), (w n); reflexivity.
Qed.

Lemma backsub_lin n M1 M2 M3 b1 b2 b3 t :
  (forall r j, M1 r j = M3 r j) -> (forall r j, M2 r j = M3 r j) ->
  (forall r, b3 r = xorb (b1 r) (b2 r)) ->
  forall j, backsub n M3 b3 t j = xorb (backsub n M1 b1 t j) (backsub n M2 b2 t j).
Proof.
  intros H1 H2 H3. induction t as [|t IH]; intros j; simpl; [reflexivity|].
  destruct (j =? n - S t); [|apply IH].
  rewrite H3.
  rewrite (dot_ext n (M3 (n - S t)) (M3 (n - S t)) (backsub n M3 b3 t)
             (fun k => xorb (backsub n M1 b1 t k) (backsub n M2 b2 t k)));
    [|reflexivity|intros k _; apply IH].
  rewrite dot_add_r.
  rewrite (dot_ext n (M1 (n - S t)) (M3 (n - S t)) (backsub n M1 b1 t) (backsub n M1 b1 t));
    [|intros k _; apply H1|reflexivity].
  rewrite (dot_ext n (M2 (n - S t)) (M3 (n - S t)) (backsub n M2 b2 t) (backsub n M2 b2 t));
    [|intros k _; apply H2|reflexivity].
  destruct (b1 (n - S t)), (b2 (n - S t)),
    (dot n (M3 (n - S t)) (backsub n M1 b1 t)), (dot n (M3 (n - S t)) (backsub n M2 b2 t));
    reflexivity.
Qed.

Lemma solve_rep Y X bx G :
  wf_box bx G -> ySize bx = Z.of_nat Y -> xSize bx = Z.of_nat X ->
  (Z.of_nat (Y * X) < 2147483648)%Z ->
  exists xr, solve bx (Z.of_nat Y) (Z.of_nat X) = Done xr /\
             repV (Y * X) xr (solved Y X G).
Proof.
  intros (_ & _ & Hg) Hy Hx HN.
  rewrite Hy, Hx, !Nat2Z.id in Hg.
  unfold solve.
  destruct (build_spec bx G Y X Hg ltac:(lia)) as (A & b & Hb & HA & Hbv).
  rewrite (bind_done _ _ _ Hb).
  replace (wrap32 (Z.of_nat Y * Z.of_nat X)) with (Z.of_nat (Y * X))
    by (rewrite wrap32_small; lia).
  set (s0 := {| sM := foot X; sE := idm; sb := flat X G |}).
  destruct (gauss_spec (Y * X) (A, b) s0) as (st' & Hgs & HA' & Hb').
  { split; assumption. }
  rewrite (bind_done _ _ _ Hgs).
  destruct (back_substitute_spec (Y * X) (fst st') (snd st') _ _ HA' Hb' HN) as (xr & Hbs & Hxr).
  exists xr. split; [exact Hbs|exact Hxr].
Qed.

Lemma ent_zip g1 g2 R C :
  length g1 = R -> Forall (fun r => length r = C) g1 ->
  length g2 = R -> Forall (fun r => length r = C) g2 ->
  forall i j, ent (zip_with (zip_with xorb) g1 g2) i j = xorb (ent g1 i j) (ent g2 i j).
Proof.
  intros L1 F1 L2 F2 i j. unfold ent. rewrite lookup_zip_with.
  destruct (g1 !! i) as [r1|] eqn:E1; destruct (g2 !! i) as [r2|] eqn:E2; simpl.
  - rewrite lookup_zip_with.
    destruct (r1 !! j) as [v1|] eqn:V1; destruct (r2 !! j) as [v2|] eqn:V2; simpl;
      try reflexivity.
    + exfalso. rewrite Forall_forall in F1, F2.
      pose proof (F1 r1 (list_elem_of_lookup_2 _ _ _ E1)).
      pose proof (F2 r2 (list_elem_of_lookup_2 _ _ _ E2)).
      apply lookup_lt_Some in V1. apply lookup_ge_None in V2. lia.
    + exfalso. rewrite Forall_forall in F1, F2.
      pose proof (F1 r1 (list_elem_of_lookup_2 _ _ _ E1)).
      pose proof (F2 r2 (list_elem_of_lookup_2 _ _ _ E2)).
      apply lookup_lt_Some in V2. apply lookup_ge_None in V1. lia.
  - exfalso. apply lookup_lt_Some in E1. apply lookup_ge_None in E2. lia.
  - exfalso. apply lookup_lt_Some in E2. apply lookup_ge_None in E1. lia.
  - reflexivity.
Qed.

(** C8.  For fixed dimensions the solver is linear in the observed grid:
    when the third grid is the cell-wise XOR of the first two, the
    solution computed for it is the XOR of the two solutions. *)
Theorem solve_linear bx1 bx2 bx3 y x :
  well_formed bx1 -> well_formed bx2 -> well_formed bx3 ->
  ySize bx1 = y -> xSize bx1 = x -> ySize bx2 = y -> xSize bx2 = x ->
  ySize bx3 = y -> xSize bx3 = x ->
  (y * x < 2147483648)%Z ->
  box bx3 = zip_with (zip_with xorb) (box bx1) (box bx2) ->
  exists x1 x2,
    solve bx1 y x = Done x1 /\ solve bx2 y x = Done x2 /\
    solve bx3 y x = Done (zip_with xorb x1 x2).
Proof.
  intros W1 W2 W3 Y1 X1 Y2 X2 Y3 X3 HN Hbox.
  pose proof W1 as (Hy0 & Hx0 & L1 & F1). rewrite Y1 in Hy0. rewrite X1 in Hx0.
  pose proof W2 as (_ & _ & L2 & F2). rewrite Y1 in L1. rewrite X1 in F1.
  rewrite Y2 in L2. rewrite X2 in F2.
  set (Y := Z.to_nat y) in *. set (X := Z.to_nat x) in *.
  assert (HN' : (Z.of_nat (Y * X) < 2147483648)%Z) by lia.
  destruct (solve_rep Y X bx1 _ (well_formed_wf bx1 W1)) as (x1 & S1 & R1); try lia.
  destruct (solve_rep Y X bx2 _ (well_formed_wf bx2 W2)) as (x2 & S2 & R2); try lia.
  destruct (solve_rep Y X bx3 _ (well_formed_wf bx3 W3)) as (x3 & S3 & R3); try lia.
  replace (Z.of_nat Y) with y in S1, S2, S3 by lia.
  replace (Z.of_nat X) with x in S1, S2, S3 by lia.
  exists x1, x2. split; [exact S1|]. split; [exact S2|]. rewrite S3. f_equal.
  apply (repV_inj (Y * X) _ _ (solved Y X (ent (box bx3))) R3).
  destruct R1 as (Len1 & V1). destruct R2 as (Len2 & V2).
  split.
  - rewrite length_zip_with. lia.
  - intros i Hi. rewrite lookup_zip_with, (V1 i Hi), (V2 i Hi). simpl. f_equal.
    unfold solved. symmetry. apply backsub_lin.
    + apply (aelim_lin (Y * X) (Y * X)
               {| sM := foot X; sE := idm; sb := flat X (ent (box bx1)) |}
               {| sM := foot X; sE := idm; sb := flat X (ent (box bx2)) |}
               {| sM := foot X; sE := idm; sb := flat X (ent (box bx3)) |}).
      split; [reflexivity|]. split; [reflexivity|]. intros r. simpl. unfold flat.
      rewrite Hbox. apply (ent_zip _ _ Y X); assumption.
    + apply (aelim_lin (Y * X) (Y * X)
               {| sM := foot X; sE := idm; sb := flat X (ent (box bx1)) |}
               {| sM := foot X; sE := idm; sb := flat X (ent (box bx2)) |}
               {| sM := foot X; sE := idm; sb := flat X (ent (box bx3)) |}).
      split; [reflexivity|]. split; [reflexivity|]. intros r. simpl. unfold flat.
      rewrite Hbox. apply (ent_zip _ _ Y X); assumption.
    + apply (aelim_lin (Y * X) (Y * X)
               {| sM := foot X; sE := idm; sb := flat X (ent (box bx1)) |}
               {| sM := foot X; sE := idm; sb := flat X (ent (box bx2)) |}
               {| sM := foot X; sE := idm; sb := flat X (ent (box bx3)) |}).
      split; [reflexivity|]. split; [reflexivity|]. intros r. simpl. unfold flat.
      rewrite Hbox. apply (ent_zip _ _ Y X); assumption.
Qed.

Lemma solve_linear_witness :
  well_formed (mkBox [[true; false]; [false; false]] 2 2 (fun _ => 0%Z) 0) /\
  well_formed (mkBox [[false; true]; [true; false]] 2 2 (fun _ => 0%Z) 0) /\
  well_formed (mkBox [[true; true]; [true; false]] 2 2 (fun _ => 0%Z) 0) /\
  (2 * 2 < 2147483648)%Z /\
  exists x1 x2,
    solve (mkBox [[true; false]; [false; false]] 2 2 (fun _ => 0%Z) 0) 2 2 = Done x1 /\
    solve (mkBox [[false; true]; [true; false]] 2 2 (fun _ => 0%Z) 0) 2 2 = Done x2 /\
    solve (mkBox [[true; true]; [true; false]] 2 2 (fun _ => 0%Z) 0) 2 2
      = Done (zip_with xorb x1 x2).
Proof.
  assert (W1 : well_formed (mkBox [[true; false]; [false; false]] 2 2 (fun _ => 0%Z) 0))
    by (repeat split; simpl; try lia; repeat constructor).
  assert (W2 : well_formed (mkBox [[false; true]; [true; false]] 2 2 (fun _ => 0%Z) 0))
    by (repeat split; simpl; try lia; repeat constructor).
  assert (W3 : well_formed (mkBox [[true; true]; [true; false]] 2 2 (fun _ => 0%Z) 0))
    by (repeat split; simpl; try lia; repeat constructor).
  split; [exact W1|]. split; [exact W2|]. split; [exact W3|]. split; [lia|].
  apply (solve_linear _ _ _ 2 2 W1 W2 W3); first [reflexivity|lia].
Defined.

(** ** Dimensions whose product does not fit *)

Lemma for_range_first {S : Type} lo hi body (s : S) :
  (lo < hi)%Z ->
  for_range lo hi body s = bind (body lo s) (for_range (lo + 1) hi body).
Proof.
  intros Hlt. unfold for_range.
  replace (Z.to_nat (hi - lo)) with (Datatypes.S (Z.to_nat (hi - (lo + 1)))) by lia.
  reflexivity.
Qed.

Lemma solve_overflow bx y x v :
  (1 <= y)%Z -> (1 <= x)%Z -> wrap32 (y * x) = 0%Z ->
  rd2 (box bx) 0 0 = Done v ->
  solve bx y x = Fault OutOfRange.
Proof.
  intros Hy Hx Hn Hv. unfold solve, build. rewrite Hn.
  change (Z.to_nat 0) with 0. cbn [replicate].
  rewrite (for_range_fault 0 y _ _ OutOfRange); [reflexivity|lia|].
  apply for_range_fault; [lia|].
  unfold build_cell, getState. cbn [fst snd].
  rewrite Z.mul_0_l, Z.add_0_l. change (wrap32 0) with 0%Z.
  rewrite Hv. reflexivity.
Qed.

Lemma blank_cell y x gen k :
  (1 <= y)%Z -> (1 <= x)%Z -> rd2 (box (blank y x gen k)) 0 0 = Done false.
Proof.
  intros Hy Hx. unfold blank, rd2, rd. cbn [box].
  change (0 <? 0)%Z with false. change (Z.to_nat 0) with 0. cbv iota.
  rewrite (lookup_replicate_2 (Z.to_nat y) _ 0) by lia. cbn [bind].
  change (0 <? 0)%Z with false. cbv iota.
  rewrite (lookup_replicate_2 (Z.to_nat x) _ 0) by lia. reflexivity.
Qed.

Lemma new_no_shuffle y x gen :
  (wrap64 (gen 0%nat) mod 1000 = 0)%Z -> SecureBox_new y x gen = Done (blank y x gen 1).
Proof.
  intros H. unfold SecureBox_new, shuffle, next, blank. cbn [rng drawn box ySize xSize].
  rewrite H. reflexivity.
Qed.

Lemma openBox_from_fault bx y x f :
  solve bx y x = Fault f -> openBox_from bx y x = Fault f.
Proof. intros H. unfold openBox_from, unlock. now rewrite H. Qed.

(** ** The solver opens every box it can index *)

(** C1 (as amended).  For dimensions [y, x >= 1] whose product is below
    [2^31], and every state reached from the all-false grid by a finite
    sequence of in-range toggles: the three phases compute a toggle set,
    replaying it leaves every cell false, and [openBox] returns false. *)
Theorem solver_round_trip y x ts gen k :
  (1 <= y)%Z -> (1 <= x)%Z -> (y * x < 2147483648)%Z ->
  Forall (in_range y x) ts ->
  exists bx xr bx',
    toggles (blank y x gen k) ts = Done bx /\
    solve bx y x = Done xr /\
    replay (wrap32 (y * x)) x xr bx = Done bx' /\
    all_false (box bx') /\
    openBox_from bx y x = Done false.
Proof.
  intros Hy Hx Hn Hts.
  assert (HN : (Z.of_nat (Z.to_nat y * Z.to_nat x) < 2147483648)%Z) by lia.
  pose proof (blank_good (Z.to_nat y) (Z.to_nat x) gen k) as Hb.
  rewrite !Z2Nat.id in Hb by lia.
  destruct (toggles_good (Z.to_nat y) (Z.to_nat x) ts _ Hb) as (bx & Ht & Hg).
  { rewrite !Z2Nat.id by lia. exact Hts. }
  destruct (unlock_good _ _ bx Hg HN) as (xr & bx' & Hs & Hr & Hclear & Hl).
  pose proof (openBox_from_good _ _ bx Hg HN) as Ho.
  rewrite !Z2Nat.id in Hs, Hr, Ho by lia.
  exists bx, xr, bx'. auto.
Qed.

Lemma solver_round_trip_witness :
  (1 <= 2)%Z /\ (1 <= 3)%Z /\ (2 * 3 < 2147483648)%Z /\
  Forall (in_range 2 3) [(0, 1); (1, 2); (0, 1); (1, 0)]%Z /\
  exists bx xr bx',
    toggles (blank 2 3 (fun _ => 0%Z) 0) [(0, 1); (1, 2); (0, 1); (1, 0)]%Z = Done bx /\
    solve bx 2 3 = Done xr /\
    replay (wrap32 (2 * 3)) 3 xr bx = Done bx' /\
    all_false (box bx') /\
    openBox_from bx 2 3 = Done false.
Proof.
  assert (Hts : Forall (in_range 2 3) [(0, 1); (1, 2); (0, 1); (1, 0)]%Z)
    by (repeat constructor; simpl; lia).
  split; [lia|]. split; [lia|]. split; [lia|]. split; [exact Hts|].
  apply (solver_round_trip 2 3 _ (fun _ => 0%Z) 0); [lia|lia|lia|exact Hts].
Defined.

(** C1 as stated fails: [65536 * 65536] wraps to [0] in [uint32_t], so
    for the all-false [65536 x 65536] grid (reached by the empty toggle
    sequence) [A] and [b] are empty and the first statement of the
    construction loop, [b[0] = ...], writes out of range. *)
Lemma round_trip_overflow :
  toggles (blank 65536 65536 (fun _ => 0%Z) 0) [] = Done (blank 65536 65536 (fun _ => 0%Z) 0) /\
  solve (blank 65536 65536 (fun _ => 0%Z) 0) 65536 65536 = Fault OutOfRange /\
  openBox_from (blank 65536 65536 (fun _ => 0%Z) 0) 65536 65536 = Fault OutOfRange.
Proof.
  assert (Hs : solve (blank 65536 65536 (fun _ => 0%Z) 0) 65536 65536 = Fault OutOfRange).
  { apply (solve_overflow _ 65536 65536 false); [lia|lia|reflexivity|].
    apply blank_cell; lia. }
  split; [reflexivity|]. split; [exact Hs|]. now apply openBox_from_fault.
Qed.

(** C2 (as amended).  For [y, x >= 1] with [y * x < 2^31], whatever the
    generator produces, the constructor's shuffle is a finite sequence
    of in-range toggles and [openBox] returns false. *)
Theorem openBox_opens y x gen :
  (1 <= y)%Z -> (1 <= x)%Z -> (y * x < 2147483648)%Z ->
  openBox y x gen = Done false.
Proof.
  intros Hy Hx Hn.
  assert (HN : (Z.of_nat (Z.to_nat y * Z.to_nat x) < 2147483648)%Z) by lia.
  destruct (new_good (Z.to_nat y) (Z.to_nat x) gen ltac:(lia) ltac:(lia)) as (bx & Hb & Hg).
  rewrite !Z2Nat.id in Hb by lia.
  unfold openBox. rewrite (bind_done _ _ _ Hb).
  pose proof (openBox_from_good _ _ bx Hg HN) as H. rewrite !Z2Nat.id in H by lia. exact H.
Qed.

Lemma openBox_opens_witness :
  (1 <= 3)%Z /\ (1 <= 3)%Z /\ (3 * 3 < 2147483648)%Z /\
  openBox 3 3 (fun k => Z.of_nat k * 7919 + 1234567)%Z = Done false.
Proof.
  split; [lia|]. split; [lia|]. split; [lia|].
  apply (openBox_opens 3 3); lia.
Defined.

(** C2 as stated fails at [y = x = 65536]: the generator below draws a
    shuffle count of zero, the box is built, and the solver then writes
    [b[0]] into an empty vector. *)
Lemma openBox_overflow : openBox 65536 65536 (fun _ => 0%Z) = Fault OutOfRange.
Proof.
  unfold openBox. rewrite (new_no_shuffle 65536 65536 (fun _ => 0%Z)) by reflexivity.
  cbn [bind]. apply openBox_from_fault.
  apply (solve_overflow _ 65536 65536 false); [lia|lia|reflexivity|].
  apply blank_cell; lia.
Qed.

(** ** Degenerate dimensions *)

(** C3.  The code at the failing input: with a dimension equal to zero
    the constructor's shuffle takes [rng() % 0] as soon as it draws a
    nonzero toggle count, so [openBox] divides by zero instead of
    returning false. *)
Theorem shuffle_zero_dimension y x gen :
  (y = 0 \/ x = 0)%Z -> (wrap64 (gen 0%nat) mod 1000 <> 0)%Z ->
  openBox y x gen = Fault DivByZero.
Proof.
  intros Hz Ht. unfold openBox, SecureBox_new, shuffle, next, blank.
  cbn [rng drawn box ySize xSize].
  pose proof (Z.mod_pos_bound (wrap64 (gen 0%nat)) 1000 ltac:(lia)) as Hb.
  destruct (Z.to_nat (wrap64 (gen 0%nat) mod 1000)) as [|t] eqn:E; [lia|].
  cbn [shuffle_loop next rng drawn box ySize xSize]. unfold urem.
  destruct (Z.eqb_spec y 0) as [Hy|Hy]; [reflexivity|].
  destruct Hz as [Hz|Hz]; [contradiction|]. subst x. reflexivity.
Qed.

Lemma shuffle_zero_dimension_witness :
  (0 = 0 \/ 1 = 0)%Z /\ (wrap64 ((fun _ : nat => 1%Z) 0%nat) mod 1000 <> 0)%Z /\
  openBox 0 1 (fun _ => 1%Z) = Fault DivByZero.
Proof.
  assert (H : (wrap64 ((fun _ : nat => 1%Z) 0%nat) mod 1000 <> 0)%Z) by (intros E; discriminate E).
  split; [left; reflexivity|]. split; [exact H|].
  apply (shuffle_zero_dimension 0 1 (fun _ => 1%Z)); [left; reflexivity|exact H].
Defined.

(** What does hold for degenerate dimensions: when the shuffle draws a
    toggle count of zero, the system is empty and the box is reported
    open. *)
Lemma scan_none fuel lo test : (forall i, test i = Done false) -> scan fuel lo test = Done false.
Proof.
  intros H. revert lo. induction fuel as [|k IH]; intros lo; simpl; [reflexivity|].
  rewrite H. simpl. apply IH.
Qed.

Lemma openBox_degenerate y x gen :
  (0 <= y)%Z -> (0 <= x)%Z -> (y = 0 \/ x = 0)%Z ->
  (wrap64 (gen 0%nat) mod 1000 = 0)%Z ->
  build (blank y x gen 1) y x = Done ([], []) /\
  solve (blank y x gen 1) y x = Done [] /\
  openBox y x gen = Done false.
Proof.
  intros Hy Hx Hz Ht.
  assert (Hn : wrap32 (y * x) = 0%Z) by (destruct Hz; subst; rewrite ?Z.mul_0_l, ?Z.mul_0_r; reflexivity).
  assert (Hb : build (blank y x gen 1) y x = Done ([], [])).
  { unfold build. rewrite Hn. change (Z.to_nat 0) with 0. cbn [replicate].
    destruct Hz as [-> | ->].
    - reflexivity.
    - apply for_range_nop. intros i s. reflexivity. }
  assert (Hs : solve (blank y x gen 1) y x = Done []).
  { unfold solve. rewrite Hb, Hn. reflexivity. }
  split; [exact Hb|]. split; [exact Hs|].
  unfold openBox. rewrite (new_no_shuffle y x gen Ht). cbn [bind].
  unfold openBox_from, unlock. rewrite Hs, Hn. cbn [bind]. unfold replay.
  change (for_range 0 0 ?f ?s) with (Done s). cbn [bind].
  unfold isLocked, blank. cbn [box ySize xSize].
  destruct Hz as [-> | ->].
  - apply scan_none. intros i. reflexivity.
  - reflexivity.
Qed.

(** ** The command line *)






(* ===================================================================== *)
(** * Part VIII: further properties of the code                           *)
(* ===================================================================== *)

(** ** toggle, toggles and isLocked *)

Lemma same_box bx bx' G G' :
  wf_box bx G -> wf_box bx' G' -> same_shape bx bx' ->
  (forall i j, i < Z.to_nat (ySize bx) -> j < Z.to_nat (xSize bx) -> G i j = G' i j) ->
  bx = bx'.
Proof.
  intros (_ & _ & HM) (_ & _ & HM') (Sy & Sx & Sr & Sd) HG.
  rewrite Sy, Sx in HM'.
  pose proof (repM_inj _ _ _ _ _ _ HM HM' HG) as Hbox.
  destruct bx, bx'. simpl in *. congruence.
Qed.

(** X1.  [toggle] at an in-range position of a well-formed box succeeds;
    it negates every cell of row [y] and every cell of column [x], the
    cell [(y, x)] included (it is flipped three times), and leaves all
    other cells, the dimensions and the generator as they were. *)
Theorem toggle_effect bx y x :
  well_formed bx -> (0 <= y < ySize bx)%Z -> (0 <= x < xSize bx)%Z ->
  exists bx', toggle bx y x = Done bx' /\
    ySize bx' = ySize bx /\ xSize bx' = xSize bx /\
    rng bx' = rng bx /\ drawn bx' = drawn bx /\
    well_formed bx' /\
    forall i j, (0 <= i < ySize bx)%Z -> (0 <= j < xSize bx)%Z ->
      exists v, rd2 (box bx) i j = Done v /\
        rd2 (box bx') i j = Done (if (i =? y)%Z || (j =? x)%Z then negb v else v).
Proof.
  intros Hwf Hy Hx. pose proof (well_formed_wf bx Hwf) as HG.
  destruct (toggle_spec bx _ y x HG Hy Hx) as (bx' & Ht & (Sy & Sx & Sr & Sd) & HG').
  exists bx'. repeat (split; [assumption|]).
  split; [exact (wf_well_formed _ _ HG')|].
  intros i j Hi Hj. destruct HG as (_ & _ & HM). destruct HG' as (_ & _ & HM').
  rewrite Sy, Sx in HM'.
  exists (ent (box bx) (Z.to_nat i) (Z.to_nat j)).
  rewrite (rd2_repM _ _ _ _ i j HM) by lia.
  rewrite (rd2_repM _ _ _ _ i j HM') by lia.
  split; [reflexivity|]. f_equal.
  rewrite !eqb_to_nat by lia.
  destruct ((i =? y)%Z || (j =? x)%Z); [apply xorb_true_r|apply xorb_false_r].
Qed.

Lemma toggle_effect_witness :
  well_formed (blank 2 3 (fun _ => 0%Z) 0) /\
  (0 <= 1 < ySize (blank 2 3 (fun _ => 0%Z) 0))%Z /\
  (0 <= 2 < xSize (blank 2 3 (fun _ => 0%Z) 0))%Z /\
  exists bx', toggle (blank 2 3 (fun _ => 0%Z) 0) 1 2 = Done bx' /\
    ySize bx' = ySize (blank 2 3 (fun _ => 0%Z) 0) /\
    xSize bx' = xSize (blank 2 3 (fun _ => 0%Z) 0) /\
    rng bx' = rng (blank 2 3 (fun _ => 0%Z) 0) /\
    drawn bx' = drawn (blank 2 3 (fun _ => 0%Z) 0) /\
    well_formed bx' /\
    forall i j, (0 <= i < ySize (blank 2 3 (fun _ => 0%Z) 0))%Z ->
                (0 <= j < xSize (blank 2 3 (fun _ => 0%Z) 0))%Z ->
      exists v, rd2 (box (blank 2 3 (fun _ => 0%Z) 0)) i j = Done v /\
        rd2 (box bx') i j = Done (if (i =? 1)%Z || (j =? 2)%Z then negb v else v).
Proof.
  assert (Hwf : well_formed (blank 2 3 (fun _ => 0%Z) 0))
    by (apply blank_well_formed; lia).
  split; [exact Hwf|]. split; [simpl; lia|]. split; [simpl; lia|].
  apply (toggle_effect _ 1 2 Hwf); simpl; lia.
Defined.

(** X2.  [toggle] checks no index: at a row [y >= ySize] or a column
    [x >= xSize] of a well-formed box its first statement reads outside
    the vectors. *)
Theorem toggle_out_of_range bx y x :
  well_formed bx -> (0 <= y)%Z -> (0 <= x)%Z ->
  (ySize bx <= y \/ xSize bx <= x)%Z ->
  toggle bx y x = Fault OutOfRange.
Proof.
  intros (Hy0 & Hx0 & Hlen & Hrows) Hy Hx Hout.
  unfold toggle, flip, rd2, rd.
  replace (y <? 0)%Z with false by (symmetry; apply Z.ltb_ge; lia).
  destruct (box bx !! Z.to_nat y) as [row|] eqn:Hrow; [|reflexivity].
  cbn [bind].
  replace (x <? 0)%Z with false by (symmetry; apply Z.ltb_ge; lia).
  assert (Hy' : Z.to_nat y < length (box bx)) by (apply lookup_lt_is_Some; eauto).
  assert (Hl : length row = Z.to_nat (xSize bx)).
  { rewrite List.Forall_forall in Hrows. apply Hrows.
    apply list_elem_of_In. eapply list_elem_of_lookup_2. exact Hrow. }
  rewrite (lookup_ge_None_2 row (Z.to_nat x)) by lia. reflexivity.
Qed.

Lemma toggle_out_of_range_witness :
  well_formed (blank 2 3 (fun _ => 0%Z) 0) /\ (0 <= 1)%Z /\ (0 <= 3)%Z /\
  (ySize (blank 2 3 (fun _ => 0%Z) 0) <= 1 \/ xSize (blank 2 3 (fun _ => 0%Z) 0) <= 3)%Z /\
  toggle (blank 2 3 (fun _ => 0%Z) 0) 1 3 = Fault OutOfRange.
Proof.
  assert (Hwf : well_formed (blank 2 3 (fun _ => 0%Z) 0))
    by (apply blank_well_formed; lia).
  assert (Ho : (ySize (blank 2 3 (fun _ => 0%Z) 0) <= 1
                \/ xSize (blank 2 3 (fun _ => 0%Z) 0) <= 3)%Z) by (right; simpl; lia).
  split; [exact Hwf|]. split; [lia|]. split; [lia|]. split; [exact Ho|].
  apply (toggle_out_of_range _ 1 3 Hwf); [lia|lia|exact Ho].
Defined.

Lemma toggle_commute bx G r1 c1 r2 c2 :
  wf_box bx G ->
  (0 <= r1 < ySize bx)%Z -> (0 <= c1 < xSize bx)%Z ->
  (0 <= r2 < ySize bx)%Z -> (0 <= c2 < xSize bx)%Z ->
  exists bx', (b1 <- toggle bx r1 c1; toggle b1 r2 c2) = Done bx' /\
              (b2 <- toggle bx r2 c2; toggle b2 r1 c1) = Done bx'.
Proof.
  intros HG R1 C1 R2 C2.
  destruct (toggle_spec bx _ r1 c1 HG R1 C1) as (b1 & T1 & S1 & G1).
  destruct (toggle_spec bx _ r2 c2 HG R2 C2) as (b2 & T2 & S2 & G2).
  pose proof S1 as (Sy1 & Sx1 & Sr1 & Sd1). pose proof S2 as (Sy2 & Sx2 & Sr2 & Sd2).
  destruct (toggle_spec b1 _ r2 c2 G1 ltac:(lia) ltac:(lia)) as (b12 & T12 & S12 & G12).
  destruct (toggle_spec b2 _ r1 c1 G2 ltac:(lia) ltac:(lia)) as (b21 & T21 & S21 & G21).
  exists b12. rewrite T1, T2. cbn [bind]. split; [exact T12|].
  rewrite T21. f_equal. symmetry.
  apply (same_box _ _ _ _ G12 G21).
  - destruct S12 as (? & ? & ? & ?), S21 as (? & ? & ? & ?). repeat split; congruence.
  - intros i j _ _. rewrite !xorb_assoc. f_equal. apply xorb_comm.
Qed.

Lemma toggles_wf ts : forall bx G,
  wf_box bx G -> Forall (in_range (ySize bx) (xSize bx)) ts ->
  exists bx' G', toggles bx ts = Done bx' /\ same_shape bx bx' /\ wf_box bx' G'.
Proof.
  induction ts as [|t ts IH]; intros bx G HG Hts.
  - exists bx, G. split; [reflexivity|]. split; [repeat split|exact HG].
  - inversion Hts as [|? ? (Hr & Hc) Hrest]; subst.
    destruct (toggle_spec bx _ _ _ HG Hr Hc) as (b1 & T1 & S1 & G1).
    pose proof S1 as (Sy & Sx & Sr & Sd).
    destruct (IH b1 _ G1) as (bx' & G' & Ht & Ssh & HG').
    { rewrite Sy, Sx. exact Hrest. }
    exists bx', G'. cbn [toggles]. rewrite T1. cbn [bind].
    split; [exact Ht|]. split; [|exact HG'].
    destruct Ssh as (? & ? & ? & ?). repeat split; congruence.
Qed.

Lemma toggles_perm_wf ts ts' :
  Permutation ts ts' ->
  forall bx G, wf_box bx G -> Forall (in_range (ySize bx) (xSize bx)) ts ->
  exists bx', toggles bx ts = Done bx' /\ toggles bx ts' = Done bx'.
Proof.
  intros Hp.
  induction Hp as [|t l l' Hp IH|t u l|l l' l'' H1 IH1 H2 IH2]; intros bx G HG Hts.
  - exists bx. split; reflexivity.
  - inversion Hts as [|? ? (Hr & Hc) Hrest]; subst.
    destruct (toggle_spec bx _ _ _ HG Hr Hc) as (b1 & T1 & (Sy & Sx & _ & _) & G1).
    destruct (IH b1 _ G1) as (bx' & Ha & Hb).
    { rewrite Sy, Sx. exact Hrest. }
    exists bx'. cbn [toggles]. rewrite T1. cbn [bind]. split; assumption.
  - inversion Hts as [|? ? (Hr1 & Hc1) Hrest]; subst.
    inversion Hrest as [|? ? (Hr2 & Hc2) Hl]; subst.
    destruct (toggle_commute bx G _ _ _ _ HG Hr1 Hc1 Hr2 Hc2) as (b2 & Ha & Hb).
    destruct (toggle_spec bx _ _ _ HG Hr1 Hc1) as (b1 & T1 & (Sy & Sx & _ & _) & G1).
    destruct (toggle_spec b1 _ (fst t) (snd t) G1 ltac:(lia) ltac:(lia))
      as (b12 & T12 & (Sy' & Sx' & _ & _) & G12).
    rewrite T1 in Ha. cbn [bind] in Ha. rewrite T12 in Ha. injection Ha as <-.
    destruct (toggles_wf l b12 _ G12) as (bx' & G' & Ht & _ & _).
    { rewrite Sy', Sx', Sy, Sx. exact Hl. }
    exists bx'. cbn [toggles]. split.
    + rewrite T1. cbn [bind]. rewrite T12. cbn [bind]. exact Ht.
    + destruct (toggle bx (fst t) (snd t)) as [b2'|f]; [|discriminate Hb].
      cbn [bind] in *. rewrite Hb. cbn [bind]. exact Ht.
  - destruct (IH1 bx G HG Hts) as (b1 & Ha & Hb).
    destruct (IH2 bx G HG) as (b2 & Hc & Hd).
    { eapply Permutation_Forall; eassumption. }
    exists b1. split; [exact Ha|]. congruence.
Qed.

(** X3.  The order of toggles does not matter: a sequence of in-range
    toggles and any permutation of it lead a well-formed box to the same
    box. *)
Theorem toggles_permutation bx ts ts' :
  well_formed bx -> Forall (in_range (ySize bx) (xSize bx)) ts ->
  Permutation ts ts' ->
  exists bx', toggles bx ts = Done bx' /\ toggles bx ts' = Done bx'.
Proof.
  intros Hwf Hts Hp.
  exact (toggles_perm_wf ts ts' Hp bx _ (well_formed_wf bx Hwf) Hts).
Qed.

Lemma toggles_permutation_witness :
  well_formed (blank 2 3 (fun _ => 0%Z) 0) /\
  Forall (in_range (ySize (blank 2 3 (fun _ => 0%Z) 0)) (xSize (blank 2 3 (fun _ => 0%Z) 0)))
    [(0, 1); (1, 2); (1, 0)]%Z /\
  Permutation [(0, 1); (1, 2); (1, 0)]%Z [(1, 0); (0, 1); (1, 2)]%Z /\
  exists bx', toggles (blank 2 3 (fun _ => 0%Z) 0) [(0, 1); (1, 2); (1, 0)]%Z = Done bx' /\
              toggles (blank 2 3 (fun _ => 0%Z) 0) [(1, 0); (0, 1); (1, 2)]%Z = Done bx'.
Proof.
  assert (Hwf : well_formed (blank 2 3 (fun _ => 0%Z) 0))
    by (apply blank_well_formed; lia).
  assert (Hts : Forall (in_range (ySize (blank 2 3 (fun _ => 0%Z) 0))
                                 (xSize (blank 2 3 (fun _ => 0%Z) 0)))
                  [(0, 1); (1, 2); (1, 0)]%Z)
    by (repeat constructor; simpl; lia).
  assert (Hp : Permutation [(0, 1); (1, 2); (1, 0)]%Z [(1, 0); (0, 1); (1, 2)]%Z).
  { apply Permutation_sym. apply (Permutation_cons_app [(0, 1); (1, 2)]%Z []).
    rewrite app_nil_r. apply Permutation_refl. }
  split; [exact Hwf|]. split; [exact Hts|]. split; [exact Hp|].
  apply (toggles_permutation _ _ _ Hwf Hts Hp).
Defined.

Lemma scan_existsb fuel : forall s test (f : nat -> bool),
  (forall k, s <= k < s + fuel -> test (Z.of_nat k) = Done (f k)) ->
  scan fuel (Z.of_nat s) test = Done (existsb f (seq s fuel)).
Proof.
  induction fuel as [|n IH]; intros s test f H; [reflexivity|].
  cbn [scan seq existsb]. rewrite (H s) by lia. cbn [bind].
  destruct (f s); [reflexivity|]. cbn [orb].
  replace (Z.of_nat s + 1)%Z with (Z.of_nat (S s)) by lia.
  apply IH. intros k Hk. apply H. lia.
Qed.

Lemma existsb_seq_false f s n :
  existsb f (seq s n) = false <-> forall k, s <= k < s + n -> f k = false.
Proof.
  split.
  - intros H k Hk. apply not_true_is_false. intros Hf.
    assert (He : existsb f (seq s n) = true).
    { apply existsb_exists. exists k. split; [apply in_seq; lia|exact Hf]. }
    congruence.
  - intros H. apply not_true_is_false. intros He.
    apply existsb_exists in He. destruct He as (k & Hin & Hf).
    apply in_seq in Hin. rewrite H in Hf by lia. discriminate.
Qed.

Lemma isLocked_any bx G :
  wf_box bx G ->
  isLocked bx =
  Done (existsb (fun j => existsb (fun i => G i j) (seq 0 (Z.to_nat (ySize bx))))
                (seq 0 (Z.to_nat (xSize bx)))).
Proof.
  intros (Hy & Hx & HM). unfold isLocked.
  apply (scan_existsb _ 0). intros j Hj.
  apply (scan_existsb _ 0). intros i Hi.
  rewrite (rd2_repM _ _ _ _ _ _ HM) by lia. now rewrite !Nat2Z.id.
Qed.

(** X4.  On a well-formed box [isLocked] reads only cells that exist, and
    it returns false exactly when every cell of the box is false. *)
Theorem isLocked_spec bx :
  well_formed bx ->
  exists b, isLocked bx = Done b /\ (b = false <-> all_false (box bx)).
Proof.
  intros Hwf. pose proof (well_formed_wf bx Hwf) as HG.
  rewrite (isLocked_any bx _ HG). eexists. split; [reflexivity|].
  destruct Hwf as (Hy & Hx & Hlen & Hrows).
  rewrite existsb_seq_false. split.
  - intros H row Hrow v Hv.
    apply list_elem_of_In, list_elem_of_lookup in Hrow. destruct Hrow as (i & Hi).
    apply list_elem_of_In, list_elem_of_lookup in Hv. destruct Hv as (j & Hj).
    assert (Hil : i < length (box bx)) by (apply lookup_lt_is_Some; eauto).
    assert (Hjl : j < length row) by (apply lookup_lt_is_Some; eauto).
    assert (Hl : length row = Z.to_nat (xSize bx)).
    { rewrite List.Forall_forall in Hrows. apply Hrows.
      apply list_elem_of_In. eapply list_elem_of_lookup_2. exact Hi. }
    specialize (H j ltac:(lia)). rewrite existsb_seq_false in H.
    specialize (H i ltac:(lia)). unfold ent in H. now rewrite Hi, Hj in H.
  - intros H j Hj. apply existsb_seq_false. intros i Hi.
    unfold ent. destruct (box bx !! i) as [row|] eqn:Hrow; [|reflexivity].
    destruct (row !! j) as [v|] eqn:Hv; [|reflexivity].
    apply (H row).
    + apply list_elem_of_In. eapply list_elem_of_lookup_2. exact Hrow.
    + apply list_elem_of_In. eapply list_elem_of_lookup_2. exact Hv.
Qed.

Lemma isLocked_spec_witness :
  well_formed (mkBox [[false; false]; [false; true]] 2 2 (fun _ => 0%Z) 0) /\
  exists b, isLocked (mkBox [[false; false]; [false; true]] 2 2 (fun _ => 0%Z) 0) = Done b /\
    (b = false <-> all_false (box (mkBox [[false; false]; [false; true]] 2 2 (fun _ => 0%Z) 0))).
Proof.
  assert (W : well_formed (mkBox [[false; false]; [false; true]] 2 2 (fun _ => 0%Z) 0))
    by (repeat split; simpl; try lia; repeat constructor).
  split; [exact W|]. apply (isLocked_spec _ W).
Defined.

(** ** The constructor *)

Lemma toggle_shape bx y x b : toggle bx y x = Done b -> b = with_box bx (box b).
Proof.
  unfold toggle. destruct (flip (box bx) y x) as [g0|]; [|discriminate]. cbn [bind].
  destruct (for_range 0 (xSize bx) _ g0) as [g1|]; [|discriminate]. cbn [bind].
  destruct (for_range 0 (ySize bx) _ g1) as [g2|]; [|discriminate]. cbn [bind].
  intros [= <-]. reflexivity.
Qed.

Lemma toggle_indep bx bx' y x b :
  box bx = box bx' -> ySize bx = ySize bx' -> xSize bx = xSize bx' ->
  toggle bx y x = Done b -> toggle bx' y x = Done (with_box bx' (box b)).
Proof.
  intros Hb Hy Hx. unfold toggle. rewrite <- Hb, <- Hy, <- Hx.
  destruct (flip (box bx) y x) as [g0|]; [|discriminate]. cbn [bind].
  destruct (for_range 0 (xSize bx) _ g0) as [g1|]; [|discriminate]. cbn [bind].
  destruct (for_range 0 (ySize bx) _ g1) as [g2|]; [|discriminate]. cbn [bind].
  intros [= <-]. reflexivity.
Qed.

Lemma toggles_indep ts : forall bx bx' b,
  box bx = box bx' -> ySize bx = ySize bx' -> xSize bx = xSize bx' ->
  toggles bx ts = Done b -> toggles bx' ts = Done (with_box bx' (box b)).
Proof.
  induction ts as [|t ts IH]; intros bx bx' b Hb Hy Hx; cbn [toggles].
  - intros [= <-]. rewrite Hb. now destruct bx'.
  - destruct (toggle bx (fst t) (snd t)) as [b1|] eqn:T1; [|discriminate]. cbn [bind].
    intros Ht. rewrite (toggle_indep bx bx' _ _ b1 Hb Hy Hx T1). cbn [bind].
    pose proof (toggle_shape _ _ _ _ T1) as Hs.
    rewrite (IH b1 (with_box bx' (box b1)) b); try assumption; try reflexivity.
    + rewrite Hs. simpl. exact Hy.
    + rewrite Hs. simpl. exact Hx.
Qed.

Lemma draws_in_range ord t : forall gen k y x,
  (0 < y)%Z -> (0 < x)%Z -> Forall (in_range y x) (draws ord t gen k y x).
Proof.
  induction t as [|t IH]; intros gen k y x Hy Hx; cbn [draws]; constructor.
  - destruct (ord k); split; cbn [fst snd]; apply Z.mod_pos_bound; lia.
  - now apply IH.
Qed.

Lemma draws_length ord t : forall gen k y x, length (draws ord t gen k y x) = t.
Proof.
  induction t as [|t IH]; intros gen k y x; cbn [draws length]; [reflexivity|].
  now rewrite IH.
Qed.

Lemma shuffle_round bx G r c :
  wf_box bx G -> (0 <= r < ySize bx)%Z -> (0 <= c < xSize bx)%Z ->
  exists b1 bx3 G3,
    toggle bx r c = Done b1 /\
    toggle (mkBox (box bx) (ySize bx) (xSize bx) (rng bx) (S (S (drawn bx)))) r c
      = Done bx3 /\
    box bx3 = box b1 /\ ySize bx3 = ySize bx /\ xSize bx3 = xSize bx /\
    rng bx3 = rng bx /\ drawn bx3 = S (S (drawn bx)) /\ wf_box bx3 G3.
Proof.
  intros HG Hr Hc.
  set (bx2 := mkBox (box bx) (ySize bx) (xSize bx) (rng bx) (S (S (drawn bx)))).
  assert (HG2 : wf_box bx2 G) by exact HG.
  destruct (toggle_spec bx2 G r c HG2 Hr Hc) as (bx3 & T3 & (Sy & Sx & Sr & Sd) & G3).
  cbn [ySize xSize rng drawn bx2] in Sy, Sx, Sr, Sd.
  pose proof (toggle_indep bx2 bx r c bx3 eq_refl eq_refl eq_refl T3) as T1.
  eexists (with_box bx (box bx3)), bx3, _.
  split; [exact T1|]. split; [exact T3|]. split; [reflexivity|].
  repeat (split; [assumption|]). exact G3.
Qed.

Lemma shuffle_loop_toggles ord t : forall bx G,
  wf_box bx G -> (0 < ySize bx)%Z -> (0 < xSize bx)%Z ->
  exists b0 b' G',
    toggles bx (draws ord t (rng bx) (drawn bx) (ySize bx) (xSize bx)) = Done b0 /\
    shuffle_loop_any ord t bx = Done b' /\
    box b' = box b0 /\ ySize b' = ySize bx /\ xSize b' = xSize bx /\
    rng b' = rng bx /\ drawn b' = drawn bx + 2 * t /\ wf_box b' G'.
Proof.
  induction t as [|t IH]; intros bx G HG Hy Hx.
  - exists bx, bx, G. cbn [draws toggles shuffle_loop_any].
    repeat split; try reflexivity; try lia; apply HG.
  - cbn [draws toggles shuffle_loop_any]. unfold next. cbn [rng drawn box ySize xSize].
    unfold urem.
    replace (ySize bx =? 0)%Z with false by (symmetry; apply Z.eqb_neq; lia).
    replace (xSize bx =? 0)%Z with false by (symmetry; apply Z.eqb_neq; lia).
    set (a := wrap64 (rng bx (drawn bx))).
    set (b := wrap64 (rng bx (S (drawn bx)))).
    assert (Hrc : exists r c,
              (0 <= r < ySize bx)%Z /\ (0 <= c < xSize bx)%Z /\
              (if ord (drawn bx) then (b mod ySize bx, a mod xSize bx)%Z
               else (a mod ySize bx, b mod xSize bx)%Z) = (r, c)).
    { destruct (ord (drawn bx)); eexists; eexists;
        (split; [|split; [|reflexivity]]); apply Z.mod_pos_bound; lia. }
    destruct Hrc as (r & c & Hr & Hc & Epos).
    destruct (shuffle_round bx G r c HG Hr Hc)
      as (b1 & bx3 & G3 & T1 & T3 & B3 & Sy & Sx & Sr & Sd & HG3).
    destruct (IH bx3 _ HG3 ltac:(lia) ltac:(lia))
      as (b0 & b' & G' & Ht & Hs & Hbox & Hy' & Hx' & Hr' & Hd' & HG').
    rewrite Sy, Sx, Sr, Sd in Ht.
    pose proof (toggle_shape _ _ _ _ T1) as Sh1.
    assert (Ht' : toggles b1 (draws ord t (rng bx) (S (S (drawn bx))) (ySize bx) (xSize bx))
                  = Done (with_box b1 (box b0))).
    { apply (toggles_indep _ bx3 b1 b0 B3); [|
        |exact Ht]; rewrite Sh1; simpl; congruence. }
    exists (with_box b1 (box b0)), b', G'.
    rewrite Epos. cbn [fst snd]. rewrite T1. cbn [bind].
    split; [exact Ht'|].
    assert (Hloop : (if ord (drawn bx)
                     then x <- Done (a mod xSize bx)%Z; y <- Done (b mod ySize bx)%Z;
                          bx3 <- toggle (mkBox (box bx) (ySize bx) (xSize bx) (rng bx)
                                           (S (S (drawn bx)))) y x;
                          shuffle_loop_any ord t bx3
                     else y <- Done (a mod ySize bx)%Z; x <- Done (b mod xSize bx)%Z;
                          bx3 <- toggle (mkBox (box bx) (ySize bx) (xSize bx) (rng bx)
                                           (S (S (drawn bx)))) y x;
                          shuffle_loop_any ord t bx3) = Done b').
    { destruct (ord (drawn bx)); injection Epos as <- <-; cbn [bind];
        rewrite T3; cbn [bind]; exact Hs. }
    split; [exact Hloop|].
    split; [exact Hbox|]. split; [congruence|]. split; [congruence|].
    split; [congruence|]. split; [lia|exact HG'].
Qed.

Lemma shuffle_loop_row_first t : forall bx,
  shuffle_loop_any (fun _ => false) t bx = shuffle_loop t bx.
Proof.
  induction t as [|t IH]; intros bx; [reflexivity|].
  cbn [shuffle_loop_any shuffle_loop]. unfold next.
  destruct (urem _ (ySize _)) as [y|f]; [|reflexivity]. cbn [bind].
  destruct (urem _ (xSize _)) as [x|f]; [|reflexivity]. cbn [bind].
  destruct (toggle _ y x) as [bx3|f]; [|reflexivity]. cbn [bind]. apply IH.
Qed.

Lemma SecureBox_new_row_first y x gen :
  SecureBox_new_any (fun _ => false) y x gen = SecureBox_new y x gen.
Proof.
  unfold SecureBox_new_any, SecureBox_new, shuffle_any, shuffle, next.
  apply shuffle_loop_row_first.
Qed.

(** X5.  For [y, x >= 1] the constructor never divides by zero and never
    indexes out of range, in whichever order [ord] each round of the
    shuffle evaluates its two draws.  With [t] the first output of the
    generator modulo [1000], it consumes [1 + 2 * t] outputs and leaves a
    box of [y] rows of [x] cells whose grid is the all-false grid after
    [t] in-range toggles, one for each round: the round's two outputs
    reduced modulo [y] and modulo [x], the row from the output drawn
    for the row argument and the column from the other one
    ([draws ord t gen 1 y x]). *)
Theorem SecureBox_new_spec ord y x gen :
  (1 <= y)%Z -> (1 <= x)%Z ->
  exists bx bx0,
    SecureBox_new_any ord y x gen = Done bx /\
    well_formed bx /\ ySize bx = y /\ xSize bx = x /\
    rng bx = gen /\ drawn bx = 1 + 2 * Z.to_nat (wrap64 (gen 0%nat) mod 1000) /\
    length (draws ord (Z.to_nat (wrap64 (gen 0%nat) mod 1000)) gen 1 y x)
      = Z.to_nat (wrap64 (gen 0%nat) mod 1000) /\
    Forall (in_range y x) (draws ord (Z.to_nat (wrap64 (gen 0%nat) mod 1000)) gen 1 y x) /\
    toggles (blank y x gen 0)
      (draws ord (Z.to_nat (wrap64 (gen 0%nat) mod 1000)) gen 1 y x) = Done bx0 /\
    box bx = box bx0.
Proof.
  intros Hy Hx. unfold SecureBox_new_any, shuffle_any, next.
  cbn [rng drawn box ySize xSize blank].
  set (t := Z.to_nat (wrap64 (gen 0%nat) mod 1000)).
  set (bx1 := mkBox (replicate (Z.to_nat y) (replicate (Z.to_nat x) false)) y x gen 1).
  assert (W1 : well_formed bx1) by (apply (blank_well_formed y x gen 1); lia).
  destruct (shuffle_loop_toggles ord t bx1 _ (well_formed_wf _ W1)
              ltac:(simpl; lia) ltac:(simpl; lia))
    as (b0 & b' & G' & Ht & Hs & Hbox & Hy' & Hx' & Hr' & Hd' & HG').
  cbn [rng drawn ySize xSize bx1] in Ht, Hy', Hx', Hr', Hd'.
  pose proof (toggles_indep _ bx1 (blank y x gen 0) b0 eq_refl eq_refl eq_refl Ht) as Ht0.
  exists b', (with_box (blank y x gen 0) (box b0)).
  split; [exact Hs|]. split; [exact (wf_well_formed _ _ HG')|].
  split; [exact Hy'|]. split; [exact Hx'|]. split; [exact Hr'|]. split; [lia|].
  split; [apply draws_length|].
  split; [apply draws_in_range; lia|]. split; [exact Ht0|exact Hbox].
Qed.

Lemma SecureBox_new_spec_witness :
  (1 <= 2)%Z /\ (1 <= 3)%Z /\
  exists bx bx0,
    SecureBox_new_any (fun _ => true) 2 3 (fun k => Z.of_nat k + 2002)%Z = Done bx /\
    well_formed bx /\ ySize bx = 2%Z /\ xSize bx = 3%Z /\
    rng bx = (fun k => Z.of_nat k + 2002)%Z /\
    drawn bx = 1 + 2 * Z.to_nat (wrap64 ((fun k => Z.of_nat k + 2002)%Z 0%nat) mod 1000) /\
    length (draws (fun _ => true)
              (Z.to_nat (wrap64 ((fun k => Z.of_nat k + 2002)%Z 0%nat) mod 1000))
              (fun k => Z.of_nat k + 2002)%Z 1 2 3)
      = Z.to_nat (wrap64 ((fun k => Z.of_nat k + 2002)%Z 0%nat) mod 1000) /\
    Forall (in_range 2 3)
      (draws (fun _ => true)
             (Z.to_nat (wrap64 ((fun k => Z.of_nat k + 2002)%Z 0%nat) mod 1000))
             (fun k => Z.of_nat k + 2002)%Z 1 2 3) /\
    toggles (blank 2 3 (fun k => Z.of_nat k + 2002)%Z 0)
      (draws (fun _ => true)
             (Z.to_nat (wrap64 ((fun k => Z.of_nat k + 2002)%Z 0%nat) mod 1000))
             (fun k => Z.of_nat k + 2002)%Z 1 2 3) = Done bx0 /\
    box bx = box bx0.
Proof.
  split; [lia|]. split; [lia|].
  apply (SecureBox_new_spec (fun _ => true) 2 3 (fun k => Z.of_nat k + 2002)%Z); lia.
Defined.

(** ** The solver as linear algebra on the vectors of the program *)

Lemma dot_shift n u v :
  dot (S n) u v = xorb (u 0 && v 0) (dot n (fun i => u (S i)) (fun i => v (S i))).
Proof.
  induction n as [|n IH].
  - simpl. now destruct (u 0 && v 0).
  - change (dot (S (S n)) u v) with (xorb (dot (S n) u v) (u (S n) && v (S n))).
    rewrite IH. cbn [dot]. now rewrite xorb_assoc.
Qed.

Lemma repV_tail N a u f : repV (S N) (a :: u) f -> f 0 = a /\ repV N u (fun i => f (S i)).
Proof.
  intros (Hl & H). split.
  - specialize (H 0 ltac:(lia)). simpl in H. congruence.
  - split; [simpl in Hl; lia|]. intros i Hi. exact (H (S i) ltac:(lia)).
Qed.

Lemma dotl_dot u : forall N v f g, repV N u f -> repV N v g -> dotl u v = dot N f g.
Proof.
  induction u as [|a u IH]; intros N v f g Hu Hv.
  - destruct Hu as (Hl & _). simpl in Hl. subst N. reflexivity.
  - destruct N as [|N]; [destruct Hu as (Hl & _); discriminate Hl|].
    destruct v as [|c v]; [destruct Hv as (Hl & _); discriminate Hl|].
    destruct (repV_tail _ _ _ _ Hu) as (Ha & Hu').
    destruct (repV_tail _ _ _ _ Hv) as (Hc & Hv').
    rewrite dot_shift, Ha, Hc. cbn [dotl]. f_equal. now apply IH.
Qed.

Lemma satl_sat N A b x M bv xv :
  repM N N A M -> repV N b bv -> repV N x xv ->
  (satl A b x <-> sat N M bv xv).
Proof.
  intros (HlA & HA) (Hlb & Hb) Hx. split.
  - intros H r Hr. destruct (HA r Hr) as (row & Hrow & Hrep).
    specialize (H r row Hrow). rewrite (Hb r Hr) in H.
    rewrite (dotl_dot row N x _ _ Hrep Hx) in H. congruence.
  - intros H i row Hrow.
    assert (Hi : i < N) by (rewrite <- HlA; apply lookup_lt_is_Some; eauto).
    destruct (HA i Hi) as (row' & Hrow' & Hrep).
    assert (row' = row) by congruence. subst row'.
    rewrite (Hb i Hi), (dotl_dot row N x _ _ Hrep Hx). f_equal. symmetry. now apply H.
Qed.

Lemma sat_step_fwd n c s x :
  c < n -> upper n c (sM s) ->
  sat n (sM s) (sb s) x -> sat n (sM (astep n c s)) (sb (astep n c s)) x.
Proof.
  intros Hc Hup Hs.
  pose proof (pivot_spec n (sM s) c ltac:(lia)) as Hps. simpl in Hps.
  destruct (Nat.eq_dec (pivot n (sM s) c) n) as [e|ne].
  - now rewrite astep_free by assumption.
  - assert (Hp : pivot n (sM s) c < n) by lia.
    pose proof (piv_ge n c s Hc Hp) as Hge.
    intros r Hr.
    rewrite astep_b, dotM_step by assumption.
    rewrite !Hs by (try assumption; apply swp_lt; lia). reflexivity.
Qed.

Lemma aelim_sat_fwd n s k x :
  k <= n -> sat n (sM s) (sb s) x -> sat n (sM (aelim n k s)) (sb (aelim n k s)) x.
Proof.
  intros Hk H. induction k as [|k IH]; simpl; [exact H|].
  apply sat_step_fwd; [lia|apply aelim_upper; lia|apply IH; lia].
Qed.

Lemma rep_rows N A M : repM N N A M -> Forall (fun r => length r = N) A.
Proof.
  intros HM. apply List.Forall_forall. intros row Hin.
  apply list_elem_of_In, list_elem_of_lookup in Hin. destruct Hin as (i & Hi).
  exact (repM_rows _ _ _ _ _ _ HM Hi).
Qed.

(** X7.  On every square system, symmetric or not, the forward
    elimination completes without reading or writing out of range, keeps
    the dimensions, and neither loses nor adds a solution: a vector
    satisfies the system given exactly when it satisfies the system
    left by the elimination. *)
Theorem gauss_keeps_solutions N A b :
  length A = N -> Forall (fun r => length r = N) A -> length b = N ->
  exists A' b',
    gauss (Z.of_nat N) (A, b) = Done (A', b') /\
    length A' = N /\ Forall (fun r => length r = N) A' /\ length b' = N /\
    forall xs, length xs = N -> (satl A b xs <-> satl A' b' xs).
Proof.
  intros HA Hrows Hb.
  pose proof (rep_sys_lists N A b HA Hrows Hb) as Hrep.
  destruct (gauss_spec N (A, b) _ Hrep) as ((A' & b') & Hg & HA' & Hb').
  simpl in HA', Hb'. destruct Hrep as (HM & Hv). simpl in HM, Hv.
  exists A', b'. split; [exact Hg|]. split; [apply HA'|].
  split; [exact (rep_rows _ _ _ HA')|]. split; [apply Hb'|].
  intros xs Hxs.
  assert (Hx : repV N xs (nthb xs)) by (rewrite <- Hxs; apply repV_nthb).
  rewrite (satl_sat N A b xs _ _ _ HM Hv Hx).
  rewrite (satl_sat N A' b' xs _ _ _ HA' Hb' Hx).
  split.
  - intros H. now apply (aelim_sat_fwd N _ N).
  - intros H. now apply (aelim_sat N _ N) in H.
Qed.

Lemma gauss_keeps_solutions_witness :
  length [[false; true]; [true; true]] = 2 /\
  Forall (fun r : list bool => length r = 2) [[false; true]; [true; true]] /\
  length [true; false] = 2 /\
  exists A' b',
    gauss (Z.of_nat 2) ([[false; true]; [true; true]], [true; false]) = Done (A', b') /\
    length A' = 2 /\ Forall (fun r : list bool => length r = 2) A' /\ length b' = 2 /\
    forall xs, length xs = 2 ->
      (satl [[false; true]; [true; true]] [true; false] xs <-> satl A' b' xs).
Proof.
  split; [reflexivity|]. split; [repeat constructor|]. split; [reflexivity|].
  apply (gauss_keeps_solutions 2 [[false; true]; [true; true]] [true; false]);
    [reflexivity|repeat constructor|reflexivity].
Defined.

(** X8.  The matrix the forward elimination hands to the back
    substitution is upper triangular: every entry below the diagonal is
    false. *)
Theorem gauss_upper_triangular N A b :
  length A = N -> Forall (fun r => length r = N) A -> length b = N ->
  exists A' b',
    gauss (Z.of_nat N) (A, b) = Done (A', b') /\
    forall r j, j < r < N -> rd2 A' (Z.of_nat r) (Z.of_nat j) = Done false.
Proof.
  intros HA Hrows Hb.
  pose proof (rep_sys_lists N A b HA Hrows Hb) as Hrep.
  destruct (gauss_spec N (A, b) _ Hrep) as ((A' & b') & Hg & HA' & _).
  simpl in HA'. exists A', b'. split; [exact Hg|]. intros r j Hrj.
  rewrite (rd2_repM N N A' _ _ _ HA') by lia. rewrite !Nat2Z.id. f_equal.
  apply (aelim_upper N _ N ltac:(lia)); lia.
Qed.

Lemma gauss_upper_triangular_witness :
  length [[false; true]; [true; true]] = 2 /\
  Forall (fun r : list bool => length r = 2) [[false; true]; [true; true]] /\
  length [true; false] = 2 /\
  exists A' b',
    gauss (Z.of_nat 2) ([[false; true]; [true; true]], [true; false]) = Done (A', b') /\
    forall r j, j < r < 2 -> rd2 A' (Z.of_nat r) (Z.of_nat j) = Done false.
Proof.
  split; [reflexivity|]. split; [repeat constructor|]. split; [reflexivity|].
  apply (gauss_upper_triangular 2 [[false; true]; [true; true]] [true; false]);
    [reflexivity|repeat constructor|reflexivity].
Defined.

(** X9.  On an upper triangular system with fewer than [2^31] rows the
    back substitution completes, and the vector it returns satisfies
    every equation whose row has a true diagonal entry. *)
Theorem back_substitute_solves N A b :
  length A = N -> Forall (fun r => length r = N) A -> length b = N ->
  (Z.of_nat N < 2147483648)%Z ->
  (forall r j, j < r < N -> rd2 A (Z.of_nat r) (Z.of_nat j) = Done false) ->
  exists xr,
    back_substitute (Z.of_nat N) A b = Done xr /\ length xr = N /\
    forall r row, A !! r = Some row -> row !! r = Some true ->
                  b !! r = Some (dotl row xr).
Proof.
  intros HA Hrows Hb HN Hup.
  pose proof (repM_ent N N A HA Hrows) as HM.
  assert (Hv : repV N b (nthb b)) by (rewrite <- Hb; apply repV_nthb).
  destruct (back_substitute_spec N A b _ _ HM Hv HN) as (xr & Hbs & Hxr).
  exists xr. split; [exact Hbs|]. split; [apply Hxr|].
  assert (HU : upper N N (ent A)).
  { intros k r Hk Hkr Hr. specialize (Hup r k ltac:(lia)).
    rewrite (rd2_repM N N A _ _ _ HM) in Hup by lia.
    rewrite !Nat2Z.id in Hup. congruence. }
  intros r row Hrow Hdiag.
  assert (Hr : r < N) by (rewrite <- HA; apply lookup_lt_is_Some; eauto).
  destruct HM as (_ & HM). destruct (HM r Hr) as (row' & Hrow' & Hrep).
  assert (row' = row) by congruence. subst row'.
  rewrite (dotl_dot row N xr _ _ Hrep Hxr).
  destruct Hv as (_ & Hv). rewrite (Hv r Hr). f_equal.
  pose proof (backsub_eq N (ent A) (nthb b) r Hr HU) as He.
  assert (Hd : ent A r r = true) by (unfold ent; now rewrite Hrow, Hdiag).
  rewrite Hd in He.
  destruct (backsub N (ent A) (nthb b) N r), (nthb b r),
           (dot N (ent A r) (backsub N (ent A) (nthb b) N)); simpl in He; congruence.
Qed.

Lemma back_substitute_solves_witness :
  length [[true; true]; [false; true]] = 2 /\
  Forall (fun r : list bool => length r = 2) [[true; true]; [false; true]] /\
  length [false; true] = 2 /\ (Z.of_nat 2 < 2147483648)%Z /\
  (forall r j, j < r < 2 ->
     rd2 [[true; true]; [false; true]] (Z.of_nat r) (Z.of_nat j) = Done false) /\
  exists xr,
    back_substitute (Z.of_nat 2) [[true; true]; [false; true]] [false; true] = Done xr /\
    length xr = 2 /\
    forall r row, [[true; true]; [false; true]] !! r = Some row -> row !! r = Some true ->
                  [false; true] !! r = Some (dotl row xr).
Proof.
  assert (Hup : forall r j, j < r < 2 ->
            rd2 [[true; true]; [false; true]] (Z.of_nat r) (Z.of_nat j) = Done false).
  { intros r j H. assert (r = 1) by lia. assert (j = 0) by lia. subst. reflexivity. }
  split; [reflexivity|]. split; [repeat constructor|]. split; [reflexivity|].
  split; [lia|]. split; [exact Hup|].
  apply (back_substitute_solves 2 [[true; true]; [false; true]] [false; true]);
    [reflexivity|repeat constructor|reflexivity|lia|exact Hup].
Defined.

(** X10.  For a grid reached from the all-false grid by in-range toggles
    ([y, x >= 1], [y * x < 2^31]) the vector [xResult] satisfies the
    system as it was built: for every row [i], the sum of [A[i][j] &
    xResult[j]] over GF(2) is [b[i]]. *)
Theorem solve_satisfies y x ts gen k :
  (1 <= y)%Z -> (1 <= x)%Z -> (y * x < 2147483648)%Z ->
  Forall (in_range y x) ts ->
  exists bx A b xr,
    toggles (blank y x gen k) ts = Done bx /\
    build bx y x = Done (A, b) /\
    solve bx y x = Done xr /\
    length xr = Z.to_nat (y * x) /\
    satl A b xr.
Proof.
  intros Hy Hx Hn Hts.
  set (Y := Z.to_nat y). set (X := Z.to_nat x).
  assert (Ey : y = Z.of_nat Y) by (unfold Y; lia).
  assert (Ex : x = Z.of_nat X) by (unfold X; lia).
  assert (HN : (Z.of_nat (Y * X) < 2147483648)%Z) by lia.
  pose proof (blank_good Y X gen k) as Hb0. rewrite <- Ey, <- Ex in Hb0.
  destruct (toggles_good Y X ts _ Hb0) as (bx & Ht & Hg).
  { rewrite <- Ey, <- Ex. exact Hts. }
  destruct Hg as (Sy & Sx & G & sv & Hwf & Hcons).
  destruct (solve_good Y X bx G sv Hwf Sy Sx Hcons HN) as (xr & xv & Hs & Hxr & Hsat).
  pose proof Hwf as (_ & _ & HM). rewrite Sy, Sx, !Nat2Z.id in HM.
  destruct (build_spec bx G Y X HM ltac:(lia)) as (A & b & Hb & HA & Hbv).
  rewrite <- Ey, <- Ex in Hs, Hb.
  exists bx, A, b, xr. split; [exact Ht|]. split; [exact Hb|]. split; [exact Hs|].
  split.
  - destruct Hxr as (Hl & _). rewrite Hl. unfold Y, X. rewrite Z2Nat.inj_mul; lia.
  - apply (satl_sat (Y * X) A b xr _ _ _ HA Hbv Hxr). exact Hsat.
Qed.

Lemma solve_satisfies_witness :
  (1 <= 2)%Z /\ (1 <= 3)%Z /\ (2 * 3 < 2147483648)%Z /\
  Forall (in_range 2 3) [(0, 1); (1, 2); (1, 0)]%Z /\
  exists bx A b xr,
    toggles (blank 2 3 (fun _ => 0%Z) 0) [(0, 1); (1, 2); (1, 0)]%Z = Done bx /\
    build bx 2 3 = Done (A, b) /\
    solve bx 2 3 = Done xr /\
    length xr = Z.to_nat (2 * 3) /\
    satl A b xr.
Proof.
  assert (Hts : Forall (in_range 2 3) [(0, 1); (1, 2); (1, 0)]%Z)
    by (repeat constructor; simpl; lia).
  split; [lia|]. split; [lia|]. split; [lia|]. split; [exact Hts|].
  apply (solve_satisfies 2 3 _ (fun _ => 0%Z) 0); [lia|lia|lia|exact Hts].
Defined.

(** ** The replay loop, and what openBox decides *)

Lemma rd_middle {A : Type} (l1 l2 : list A) (v : A) :
  rd (l1 ++ v :: l2) (Z.of_nat (length l1)) = Done v.
Proof.
  unfold rd. replace (Z.of_nat (length l1) <? 0)%Z with false
    by (symmetry; apply Z.ltb_ge; lia).
  rewrite Nat2Z.id, list_lookup_middle by reflexivity. reflexivity.
Qed.

Lemma replay_loop (x : Z) (xr l2 : list bool) : forall (l1 : list bool) (bx : SecureBox),
  x <> 0%Z -> xr = l1 ++ l2 ->
  for_loop (length l2) (Z.of_nat (length l1))
    (fun i bx => v <- rd xr i;
                 if v then r <- udiv i x; c <- urem i x; toggle bx r c else Done bx) bx
  = toggles bx (chosen (Z.of_nat (length l1)) x l2).
Proof.
  set (body := fun (i : Z) (bx : SecureBox) =>
                 v <- rd xr i;
                 if v then r <- udiv i x; c <- urem i x; toggle bx r c else Done bx).
  induction l2 as [|v l2 IH]; intros l1 bx Hx E; [reflexivity|].
  assert (Hstep : body (Z.of_nat (length l1)) bx =
                  if v then toggle bx (Z.of_nat (length l1) / x) (Z.of_nat (length l1) mod x)
                  else Done bx).
  { unfold body. rewrite E, rd_middle. cbn [bind]. destruct v; [|reflexivity].
    unfold udiv, urem. replace (x =? 0)%Z with false by (symmetry; apply Z.eqb_neq; lia).
    reflexivity. }
  assert (E' : xr = (l1 ++ [v]) ++ l2) by (rewrite <- app_assoc; exact E).
  assert (L : (Z.of_nat (length l1) + 1)%Z = Z.of_nat (length (l1 ++ [v])))
    by (rewrite length_app; simpl; lia).
  cbn [length for_loop chosen]. rewrite Hstep, L.
  destruct v.
  - cbn [toggles fst snd].
    destruct (toggle bx _ _) as [b'|f]; [|reflexivity]. cbn [bind].
    now apply IH.
  - cbn [bind]. now apply IH.
Qed.

(** X6.  The replay loop of [openBox] over a solution vector is the
    sequence of toggles at the positions [(i / x, i % x)] of the true
    entries [i], in increasing order of [i], one call for each. *)
Theorem replay_toggles bx x xr :
  x <> 0%Z ->
  replay (Z.of_nat (length xr)) x xr bx = toggles bx (chosen 0 x xr).
Proof.
  intros Hx. unfold replay, for_range.
  replace (Z.to_nat (Z.of_nat (length xr) - 0)) with (length xr) by lia.
  exact (replay_loop x xr xr [] bx Hx eq_refl).
Qed.

Lemma replay_toggles_witness :
  3%Z <> 0%Z /\
  replay (Z.of_nat (length [true; false; false; true; true; false])) 3
         [true; false; false; true; true; false] (blank 2 3 (fun _ => 0%Z) 0)
  = toggles (blank 2 3 (fun _ => 0%Z) 0)
      (chosen 0 3 [true; false; false; true; true; false]).
Proof.
  assert (H : 3%Z <> 0%Z) by lia.
  split; [exact H|]. apply (replay_toggles _ 3 _ H).
Defined.

Lemma chosen_in_range y x xr : forall i,
  (0 < x)%Z -> (0 <= i)%Z -> (i + Z.of_nat (length xr) <= y * x)%Z ->
  Forall (in_range y x) (chosen i x xr).
Proof.
  induction xr as [|v xr IH]; intros i Hx Hi Hle; cbn [chosen]; [constructor|].
  cbn [length] in Hle.
  assert (Hrest : Forall (in_range y x) (chosen (i + 1) x xr)) by (apply IH; lia).
  destruct v; [|exact Hrest]. constructor; [|exact Hrest].
  split; cbn [fst snd].
  - split; [apply Z.div_pos; lia|]. apply Z.div_lt_upper_bound; lia.
  - apply Z.mod_pos_bound. lia.
Qed.

Lemma repM_agree R C A M M' i j :
  repM R C A M -> repM R C A M' -> i < R -> j < C -> M i j = M' i j.
Proof.
  intros (_ & H) (_ & H') Hi Hj.
  destruct (H i Hi) as (r & Hr & (_ & Hv)). destruct (H' i Hi) as (r' & Hr' & (_ & Hv')).
  assert (r' = r) by congruence. subst r'.
  specialize (Hv j Hj). specialize (Hv' j Hj). congruence.
Qed.

Lemma all_false_good Y X bx G :
  wf_box bx G -> ySize bx = Z.of_nat Y -> xSize bx = Z.of_nat X ->
  all_false (box bx) -> good Y X bx.
Proof.
  intros Hwf Hy Hx Hall. split; [exact Hy|]. split; [exact Hx|].
  exists G, (fun _ => false). split; [exact Hwf|].
  intros idx Hidx. rewrite dot_zero by (intros; apply andb_false_r).
  destruct Hwf as (_ & _ & (_ & HM)). rewrite Hy, Hx, !Nat2Z.id in HM.
  assert (HX : 0 < X) by (destruct X; [lia|lia]).
  destruct (HM (idx / X) (div_lt_rows Y X idx Hidx)) as (row & Hrow & (_ & Hv)).
  specialize (Hv (idx mod X) ltac:(apply Nat.mod_upper_bound; lia)).
  unfold flat. symmetry. symmetry. apply (Hall row).
  - apply list_elem_of_In. eapply list_elem_of_lookup_2. exact Hrow.
  - apply list_elem_of_In. eapply list_elem_of_lookup_2. exact Hv.
Qed.

Lemma toggle_good_back Y X bx G r c bx' :
  wf_box bx G -> ySize bx = Z.of_nat Y -> xSize bx = Z.of_nat X ->
  (0 <= r < Z.of_nat Y)%Z -> (0 <= c < Z.of_nat X)%Z ->
  toggle bx r c = Done bx' -> good Y X bx' -> good Y X bx.
Proof.
  intros Hwf Hy Hx Hr Hc Ht (Sy' & Sx' & G' & sv & Hwf' & Hcons).
  destruct (toggle_spec bx G r c Hwf ltac:(lia) ltac:(lia)) as (bx2 & Ht2 & _ & Hwf2).
  assert (bx2 = bx') by congruence. subst bx2.
  split; [exact Hy|]. split; [exact Hx|].
  exists G, (fun k => xorb (sv k) (true && idm (Z.to_nat r * X + Z.to_nat c) k)).
  split; [exact Hwf|].
  intros idx Hidx. rewrite dot_xor_r. simpl.
  assert (Hlt : Z.to_nat r * X + Z.to_nat c < Y * X) by (apply lin_lt; lia).
  rewrite dot_idm by exact Hlt. rewrite foot_lin by lia.
  rewrite <- Hcons by exact Hidx. unfold flat.
  assert (HX : 0 < X) by lia.
  destruct Hwf' as (_ & _ & HM'). destruct Hwf2 as (_ & _ & HM2).
  rewrite Sy', Sx', !Nat2Z.id in HM', HM2.
  rewrite <- (repM_agree _ _ _ _ _ (idx / X) (idx mod X) HM2 HM')
    by (try apply (div_lt_rows Y X idx Hidx); apply Nat.mod_upper_bound; lia).
  now destruct (G (idx / X) (idx mod X)), ((idx / X =? Z.to_nat r) || (idx mod X =? Z.to_nat c)).
Qed.

Lemma toggles_good_back Y X ts : forall bx G bxf,
  wf_box bx G -> ySize bx = Z.of_nat Y -> xSize bx = Z.of_nat X ->
  Forall (in_range (Z.of_nat Y) (Z.of_nat X)) ts ->
  toggles bx ts = Done bxf -> all_false (box bxf) -> good Y X bx.
Proof.
  induction ts as [|t ts IH]; intros bx G bxf Hwf Hy Hx Hts Ht Hall.
  - injection Ht as <-. exact (all_false_good Y X bx G Hwf Hy Hx Hall).
  - inversion Hts as [|? ? (Hr & Hc) Hrest]; subst.
    unfold in_range in Hr, Hc.
    destruct (toggle_spec bx G (fst t) (snd t) Hwf ltac:(lia) ltac:(lia))
      as (b1 & T1 & (Sy & Sx & _ & _) & Hwf1).
    cbn [toggles] in Ht. rewrite T1 in Ht. cbn [bind] in Ht.
    apply (toggle_good_back Y X bx G (fst t) (snd t) b1 Hwf Hy Hx Hr Hc T1).
    apply (IH b1 _ bxf Hwf1); try assumption; congruence.
Qed.

(** X11.  From any well-formed grid, reachable or not ([y, x >= 1],
    [y * x < 2^31]), the body of [openBox] after the constructor runs to
    completion, and it returns false exactly when some sequence of
    in-range toggles clears the grid: it reports a box locked only when
    no toggle sequence opens it. *)
Theorem openBox_from_decides bx y x :
  well_formed bx -> ySize bx = y -> xSize bx = x ->
  (1 <= y)%Z -> (1 <= x)%Z -> (y * x < 2147483648)%Z ->
  exists b, openBox_from bx y x = Done b /\ (b = false <-> solvable bx).
Proof.
  intros W Sy Sx Hy Hx Hn.
  set (Y := Z.to_nat y). set (X := Z.to_nat x).
  assert (Ey : y = Z.of_nat Y) by (unfold Y; lia).
  assert (Ex : x = Z.of_nat X) by (unfold X; lia).
  assert (HN : (Z.of_nat (Y * X) < 2147483648)%Z) by lia.
  pose proof (well_formed_wf bx W) as HG.
  assert (Sy' : ySize bx = Z.of_nat Y) by congruence.
  assert (Sx' : xSize bx = Z.of_nat X) by congruence.
  destruct (solve_rep Y X bx _ HG Sy' Sx' HN) as (xr & Hs & Hxr).
  destruct (replay_spec bx _ Y X xr _ HG Sy' Sx' Hxr) as (bx' & Hr & (Ty & Tx & _ & _) & HG').
  destruct (isLocked_spec bx' (wf_well_formed _ _ HG')) as (b & Hl & Hb).
  assert (Ho : openBox_from bx y x = Done b).
  { unfold openBox_from, unlock. rewrite Ey, Ex, Hs. cbn [bind].
    replace (wrap32 (Z.of_nat Y * Z.of_nat X)) with (Z.of_nat (Y * X))
      by (rewrite wrap32_small; lia).
    rewrite Hr. cbn [bind]. exact Hl. }
  exists b. split; [exact Ho|]. split.
  - intros Hf. apply Hb in Hf.
    exists (chosen 0 x xr), bx'. split; [|split; [|exact Hf]].
    + rewrite Sy, Sx. apply chosen_in_range; try lia.
      destruct Hxr as (Hlen & _). rewrite Hlen. lia.
    + rewrite <- (replay_toggles bx x xr) by lia.
      destruct Hxr as (Hlen & _). rewrite Hlen, Ex. exact Hr.
  - intros (ts & bxf & Hts & Ht & Hall).
    rewrite Sy, Sx, Ey, Ex in Hts.
    pose proof (toggles_good_back Y X ts bx _ bxf HG Sy' Sx' Hts Ht Hall) as Hgood.
    pose proof (openBox_from_good Y X bx Hgood HN) as Hfalse.
    rewrite <- Ey, <- Ex in Hfalse. congruence.
Qed.

Lemma openBox_from_decides_witness :
  well_formed (mkBox [[true; false]] 1 2 (fun _ => 0%Z) 0) /\
  ySize (mkBox [[true; false]] 1 2 (fun _ => 0%Z) 0) = 1%Z /\
  xSize (mkBox [[true; false]] 1 2 (fun _ => 0%Z) 0) = 2%Z /\
  (1 <= 1)%Z /\ (1 <= 2)%Z /\ (1 * 2 < 2147483648)%Z /\
  exists b, openBox_from (mkBox [[true; false]] 1 2 (fun _ => 0%Z) 0) 1 2 = Done b /\
            (b = false <-> solvable (mkBox [[true; false]] 1 2 (fun _ => 0%Z) 0)).
Proof.
  assert (W : well_formed (mkBox [[true; false]] 1 2 (fun _ => 0%Z) 0))
    by (repeat split; simpl; try lia; repeat constructor).
  split; [exact W|]. split; [reflexivity|]. split; [reflexivity|].
  split; [lia|]. split; [lia|]. split; [lia|].
  apply (openBox_from_decides _ 1 2 W); first [reflexivity|lia].
Defined.

(** ** Dimensions whose product does not fit, in general *)

Lemma rd_oor {A : Type} (v : list A) i f : rd v i = Fault f -> f = OutOfRange.
Proof.
  unfold rd. destruct (i <? 0)%Z; [congruence|].
  destruct (v !! Z.to_nat i); [discriminate|congruence].
Qed.

Lemma wr_oor {A : Type} (v : list A) i a f : wr v i a = Fault f -> f = OutOfRange.
Proof. unfold wr. destruct (_ && _); [discriminate|congruence]. Qed.

Lemma wr_length {A : Type} (v v' : list A) i a : wr v i a = Done v' -> length v' = length v.
Proof.
  unfold wr. destruct (_ && _); [|discriminate]. intros [= <-]. apply length_insert.
Qed.

Lemma wr_past {A : Type} (v : list A) i a :
  (Z.of_nat (length v) <= i)%Z -> wr v i a = Fault OutOfRange.
Proof.
  intros H. unfold wr.
  replace (i <? Z.of_nat (length v))%Z with false by (symmetry; apply Z.ltb_ge; lia).
  now rewrite andb_false_r.
Qed.

Lemma rd2_oor m i j f : rd2 m i j = Fault f -> f = OutOfRange.
Proof.
  unfold rd2. destruct (rd m i) as [r|f'] eqn:E; cbn [bind].
  - apply rd_oor.
  - intros [= <-]. exact (rd_oor _ _ _ E).
Qed.

Lemma wr2_oor m i j v f : wr2 m i j v = Fault f -> f = OutOfRange.
Proof.
  unfold wr2. destruct (rd m i) as [r|f'] eqn:E; cbn [bind].
  - destruct (wr r j v) as [r'|f''] eqn:E'; cbn [bind].
    + apply wr_oor.
    + intros [= <-]. exact (wr_oor _ _ _ _ E').
  - intros [= <-]. exact (rd_oor _ _ _ E).
Qed.

Lemma for_loop_faults {S : Type} (Q : fault -> Prop) fuel : forall lo body (s : S) f,
  (forall i s f, body i s = Fault f -> Q f) ->
  for_loop fuel lo body s = Fault f -> Q f.
Proof.
  induction fuel as [|n IH]; intros lo body s f HQ; cbn [for_loop]; [discriminate|].
  destruct (body lo s) as [s'|f'] eqn:E; cbn [bind].
  - now apply IH.
  - intros [= <-]. exact (HQ _ _ _ E).
Qed.

Lemma for_loop_keeps {S : Type} (P : S -> Prop) fuel : forall lo body (s s' : S),
  (forall i s s', P s -> body i s = Done s' -> P s') ->
  P s -> for_loop fuel lo body s = Done s' -> P s'.
Proof.
  induction fuel as [|n IH]; intros lo body s s' HP Hs; cbn [for_loop].
  - now intros [= <-].
  - destruct (body lo s) as [s1|f'] eqn:E; cbn [bind]; [|discriminate].
    apply IH; [exact HP|exact (HP _ _ _ Hs E)].
Qed.

Lemma for_loop_stuck {S : Type} (P : S -> Prop) (Q : fault -> Prop) fuel :
  forall lo body (s : S) k,
  k < fuel -> P s ->
  (forall i s s', P s -> body i s = Done s' -> P s') ->
  (forall i s f, body i s = Fault f -> Q f) ->
  (forall s, P s -> exists f, body (lo + Z.of_nat k)%Z s = Fault f) ->
  exists f, for_loop fuel lo body s = Fault f /\ Q f.
Proof.
  induction fuel as [|n IH]; intros lo body s k Hk Hs HP HQ Hst; [lia|].
  cbn [for_loop]. destruct (body lo s) as [s1|f'] eqn:E; cbn [bind].
  - destruct k as [|k].
    + destruct (Hst s Hs) as (f & Hf). rewrite Z.add_0_r in Hf. congruence.
    + apply (IH (lo + 1)%Z body s1 k); try assumption; [lia|exact (HP _ _ _ Hs E)|].
      intros s2 Hs2. replace (lo + 1 + Z.of_nat k)%Z with (lo + Z.of_nat (Datatypes.S k))%Z by lia.
      now apply Hst.
  - exists f'. split; [reflexivity|exact (HQ _ _ _ E)].
Qed.

Lemma build_cell_faults bx y x row col st f :
  build_cell bx y x row col st = Fault f -> f = OutOfRange.
Proof.
  unfold build_cell. cbv zeta.
  destruct (rd2 (getState bx) row col) as [v|f0] eqn:E0; cbn [bind];
    [|intros [= <-]; exact (rd2_oor _ _ _ _ E0)].
  destruct (wr (snd st) _ v) as [b|f1] eqn:E1; cbn [bind];
    [|intros [= <-]; exact (wr_oor _ _ _ _ E1)].
  destruct (wr2 (fst st) _ _ true) as [A0|f2] eqn:E2; cbn [bind];
    [|intros [= <-]; exact (wr2_oor _ _ _ _ _ E2)].
  destruct (for_range 0 x _ A0) as [A1|f3] eqn:E3; cbn [bind].
  - destruct (for_range 0 y _ A1) as [A2|f4] eqn:E4; cbn [bind]; [discriminate|].
    intros [= <-]. unfold for_range in E4.
    apply (for_loop_faults (fun f => f = OutOfRange) _ _ _ _ _) in E4; [exact E4|].
    intros i s f. apply wr2_oor.
  - intros [= <-]. unfold for_range in E3.
    apply (for_loop_faults (fun f => f = OutOfRange) _ _ _ _ _) in E3; [exact E3|].
    intros i s f. apply wr2_oor.
Qed.

Lemma build_cell_keeps bx y x row col (st st' : matrix * list bool) :
  build_cell bx y x row col st = Done st' -> length (snd st') = length (snd st).
Proof.
  unfold build_cell. cbv zeta.
  destruct (rd2 (getState bx) row col) as [v|f0]; cbn [bind]; [|discriminate].
  destruct (wr (snd st) _ v) as [b|f1] eqn:E1; cbn [bind]; [|discriminate].
  destruct (wr2 (fst st) _ _ true) as [A0|f2]; cbn [bind]; [|discriminate].
  destruct (for_range 0 x _ A0) as [A1|f3]; cbn [bind]; [|discriminate].
  destruct (for_range 0 y _ A1) as [A2|f4]; cbn [bind]; [|discriminate].
  intros [= <-]. cbn [snd]. exact (wr_length _ _ _ _ E1).
Qed.

Lemma build_cell_past bx y x row col (st : matrix * list bool) :
  (Z.of_nat (length (snd st)) <= wrap32 (row * x + col))%Z ->
  exists f, build_cell bx y x row col st = Fault f.
Proof.
  intros H. unfold build_cell. cbv zeta.
  destruct (rd2 (getState bx) row col) as [v|f0]; cbn [bind]; [|eexists; reflexivity].
  rewrite (wr_past _ _ _ H). eexists. reflexivity.
Qed.

Lemma build_overflow bx y x :
  (1 <= y)%Z -> (1 <= x)%Z -> (4294967296 <= y * x)%Z ->
  build bx y x = Fault OutOfRange.
Proof.
  intros Hy Hx Hov. unfold build.
  set (n := wrap32 (y * x)).
  assert (Hn : (0 <= n < 4294967296)%Z) by (apply Z.mod_pos_bound; lia).
  set (N := Z.to_nat n).
  set (P := fun st : matrix * list bool => length (snd st) = N).
  set (Q := fun f : fault => f = OutOfRange).
  set (inner := fun row (st : matrix * list bool) =>
                  for_range 0 x (fun col st => build_cell bx y x row col st) st).
  assert (HPin : forall row i s s', P s -> build_cell bx y x row i s = Done s' -> P s').
  { intros row i s s' Hs E. unfold P in *. rewrite (build_cell_keeps _ _ _ _ _ _ _ E). exact Hs. }
  assert (HQin : forall row i s f, build_cell bx y x row i s = Fault f -> Q f).
  { intros row i s f. apply build_cell_faults. }
  assert (Hdiv : (0 <= n / x < y)%Z).
  { split; [apply Z.div_pos; lia|]. apply Z.div_lt_upper_bound; lia. }
  assert (Hmod : (0 <= n mod x < x)%Z) by (apply Z.mod_pos_bound; lia).
  assert (Hidx : wrap32 (n / x * x + n mod x) = n).
  { replace (n / x * x + n mod x)%Z with n by (rewrite (Z.div_mod n x) at 1; lia).
    apply Z.mod_small. exact Hn. }
  destruct (for_loop_stuck P Q (Z.to_nat (y - 0)) 0 inner
              (replicate N (replicate N false), replicate N false) (Z.to_nat (n / x)))
    as (f & Hf & HQf).
  - lia.
  - unfold P. cbn [snd]. apply length_replicate.
  - intros i s s' Hs E. unfold inner, for_range in E.
    exact (for_loop_keeps P _ _ _ _ _ (HPin i) Hs E).
  - intros i s f E. unfold inner, for_range in E.
    exact (for_loop_faults Q _ _ _ _ _ (HQin i) E).
  - intros s Hs. unfold inner, for_range.
    replace (0 + Z.of_nat (Z.to_nat (n / x)))%Z with (n / x)%Z by lia.
    destruct (for_loop_stuck P Q (Z.to_nat (x - 0)) 0
                (fun col st => build_cell bx y x (n / x) col st) s (Z.to_nat (n mod x)))
      as (f & Hf & _); try assumption; [lia|apply HPin|apply HQin| |eauto].
    intros s2 Hs2. replace (0 + Z.of_nat (Z.to_nat (n mod x)))%Z with (n mod x)%Z by lia.
    apply build_cell_past. rewrite Hidx. unfold P in Hs2. rewrite Hs2. unfold N. lia.
  - unfold for_range. fold inner. fold N. rewrite Hf. f_equal. exact HQf.
Qed.

(** X12.  Whenever [y, x >= 1] and the product [y * x] does not fit
    [uint32_t], [openBox] writes out of range while it builds the
    system, whatever the generator produces: the vectors are sized by
    the wrapped product and the construction loop runs past them. *)
Theorem openBox_overflows y x gen :
  (1 <= y)%Z -> (1 <= x)%Z -> (4294967296 <= y * x)%Z ->
  openBox y x gen = Fault OutOfRange.
Proof.
  intros Hy Hx Hov.
  destruct (new_good (Z.to_nat y) (Z.to_nat x) gen ltac:(lia) ltac:(lia)) as (bx & Hb & _).
  rewrite !Z2Nat.id in Hb by lia.
  unfold openBox. rewrite Hb. cbn [bind]. apply openBox_from_fault.
  unfold solve. now rewrite (build_overflow bx y x Hy Hx Hov).
Qed.

Lemma openBox_overflows_witness :
  (1 <= 65537)%Z /\ (1 <= 65536)%Z /\ (4294967296 <= 65537 * 65536)%Z /\
  openBox 65537 65536 (fun k => Z.of_nat k) = Fault OutOfRange.
Proof.
  split; [lia|]. split; [lia|]. split; [lia|].
  apply (openBox_overflows 65537 65536); lia.
Defined.

(** ** Zero dimensions and the command line *)

(** X13.  With a dimension equal to zero the outcome of [openBox] is
    decided by the first output of the generator: when it is a multiple
    of [1000] the shuffle makes no toggle, the system is empty and the
    result is false; otherwise the shuffle takes a remainder modulo
    zero. *)
Theorem openBox_zero_dimension y x gen :
  (0 <= y)%Z -> (0 <= x)%Z -> (y = 0 \/ x = 0)%Z ->
  openBox y x gen =
  if (wrap64 (gen 0%nat) mod 1000 =? 0)%Z then Done false else Fault DivByZero.
Proof.
  intros Hy Hx Hz. destruct (Z.eqb_spec (wrap64 (gen 0%nat) mod 1000) 0) as [Ht|Ht].
  - now destruct (openBox_degenerate y x gen Hy Hx Hz Ht) as (_ & _ & H).
  - unfold openBox, SecureBox_new, shuffle, next, blank.
    cbn [rng drawn box ySize xSize].
    pose proof (Z.mod_pos_bound (wrap64 (gen 0%nat)) 1000 ltac:(lia)) as Hb.
    destruct (Z.to_nat (wrap64 (gen 0%nat) mod 1000)) as [|t] eqn:E; [lia|].
    cbn [shuffle_loop next rng drawn box ySize xSize]. unfold urem.
    destruct (Z.eqb_spec y 0) as [Hy0|Hy0]; [reflexivity|].
    destruct Hz as [Hz|Hz]; [contradiction|]. subst x. reflexivity.
Qed.

Lemma openBox_zero_dimension_witness :
  (0 <= 3)%Z /\ (0 <= 0)%Z /\ (3 = 0 \/ 0 = 0)%Z /\
  openBox 3 0 (fun k => Z.of_nat k * 500 + 2000)%Z =
  if (wrap64 ((fun k => Z.of_nat k * 500 + 2000)%Z 0%nat) mod 1000 =? 0)%Z
  then Done false else Fault DivByZero.
Proof.
  split; [lia|]. split; [lia|]. split; [right; reflexivity|].
  apply (openBox_zero_dimension 3 0); [lia|lia|right; reflexivity].
Defined.

(** X14.  When both arguments convert to dimensions [v1, v2 >= 1] with
    [v1 * v2 < 2^31], [main] calls [openBox v1 v2], prints
    [BOX: OPENED!] and returns [0], whatever the generator produces. *)
Theorem main_opens long_max prog s1 s2 rest v1 v2 gen :
  atol long_max s1 = Done v1 -> atol long_max s2 = Done v2 ->
  (1 <= v1)%Z -> (1 <= v2)%Z -> (v1 * v2 < 2147483648)%Z ->
  main long_max (prog :: s1 :: s2 :: rest) gen
  = ([Called v1 v2; Output "BOX: OPENED!"%string], Done 0%Z).
Proof.
  intros H1 H2 Hy Hx Hn. unfold main, arg. cbn [lookup list_lookup bind].
  rewrite H1. cbn [bind]. rewrite H2. cbn [bind fst snd].
  rewrite !wrap32_small by nia.
  assert (Ho : openBox v1 v2 gen = Done false).
  { assert (HN : (Z.of_nat (Z.to_nat v1 * Z.to_nat v2) < 2147483648)%Z) by lia.
    destruct (new_good (Z.to_nat v1) (Z.to_nat v2) gen ltac:(lia) ltac:(lia)) as (bx & Hb & Hg).
    rewrite !Z2Nat.id in Hb by lia.
    unfold openBox. rewrite (bind_done _ _ _ Hb).
    pose proof (openBox_from_good _ _ bx Hg HN) as H. rewrite !Z2Nat.id in H by lia. exact H. }
  rewrite Ho. reflexivity.
Qed.

Lemma main_opens_witness :
  atol 2147483647 "3" = Done 3%Z /\ atol 2147483647 " +4x" = Done 4%Z /\
  (1 <= 3)%Z /\ (1 <= 4)%Z /\ (3 * 4 < 2147483648)%Z /\
  main 2147483647 ["SecureBox"; "3"; " +4x"]%string (fun k => Z.of_nat k * 7919 + 13)%Z
  = ([Called 3 4; Output "BOX: OPENED!"%string], Done 0%Z).
Proof.
  assert (A1 : atol 2147483647 "3" = Done 3%Z) by reflexivity.
  assert (A2 : atol 2147483647 " +4x" = Done 4%Z) by reflexivity.
  split; [exact A1|]. split; [exact A2|]. split; [lia|]. split; [lia|]. split; [lia|].
  apply (main_opens 2147483647 _ _ _ [] 3 4 _ A1 A2); lia.
Defined.
